(** * ANPR demo pipeline: Voter, TrackerSimple, SessionManager, Validator,
      Deduplicator

    A shallow embedding of the frame-to-event pipeline classes of the
    repository (TypeScript), followed by the properties of the design
    document that were checked against them.

    Conventions of the embedding:
    - a JavaScript [number] is the rational ([Q]) that the finite double
      denotes where the code does arithmetic on confidences, coordinates and
      sample times, and an integer ([Z], [nat], [N]) where it only counts or
      compares epoch milliseconds. Where the code decides on a computed
      number (the mean confidence of a text against that of another text, the
      overlap of two boxes against the threshold and against the best overlap
      so far) the number is computed as the machine computes it, each
      operation rounded to binary64 ([Binary64]); elsewhere the arithmetic is
      exact, and the embedding gives the numbers the code reports up to the
      rounding of their last bits;
    - a JavaScript string is its sequence of UTF-16 code units;
    - a [Map] is kept in insertion order where the code iterates over it
      (tracks, text groups) and is a [gmap] where it is only looked up by key
      (sessions);
    - logger calls have no effect on the results and are left out. *)

From Stdlib Require Import List ZArith NArith QArith Qround Qminmax Qabs Lia Bool.
From Stdlib Require Import Permutation Sorted Lqa.
From stdpp Require Import gmap.
Import ListNotations.

Local Open Scope Q_scope.

(** ** JavaScript strings and numbers *)

(** A string is the list of its UTF-16 code units. *)
Definition jsstring : Type := list N.

(** [a === b] on strings. *)
Definition str_eqb (a b : jsstring) : bool := bool_decide (a = b).

(** [a > b] on numbers. *)
Definition Qgtb (a b : Q) : bool := negb (Qle_bool a b).

(** [Array.prototype.sort(cmp)]: the sort is stable (ECMAScript 2019), so
    for a consistent comparator its result is the one of a stable insertion
    sort. [cmp a b > 0] moves [b] before [a]; otherwise the input order of the
    two is kept. *)
Section Sort.
Context {A : Type} (cmp : A -> A -> Q).

Fixpoint sort_insert (x : A) (l : list A) : list A :=
  match l with
  | [] => [x]
  | y :: r => if Qgtb (cmp x y) 0 then y :: sort_insert x r else x :: y :: r
  end.

Fixpoint js_sort (l : list A) : list A :=
  match l with
  | [] => []
  | x :: r => sort_insert x (js_sort r)
  end.
End Sort.

(** IEEE-754 binary64 arithmetic on the rationals that the finite doubles
    denote: the exact result, rounded to the nearest double, a tie going to
    the double with an even significand. A double is an integer of at most
    53 bits times a power [2 ^ e] of two with [e >= -1074]. Results of
    magnitude [2 ^ 1024] or more (an infinity in the code) are outside the
    model, and so is [NaN]: a division by zero gives 0 here. *)
Module Binary64.

(** The integer part of the binary logarithm of a positive rational. *)
Definition ilog2 (x : Q) : Z :=
  let e0 := (Z.log2 (Qnum x) - Z.log2 (Zpos (Qden x)))%Z in
  if Qle_bool (2 ^ e0) x then e0 else (e0 - 1)%Z.

(** The nearest integer of a rational that is not negative, a half going to
    the even neighbour. *)
Definition nearestEven (m : Q) : Z :=
  let f := Qfloor m in
  match Qcompare (m - inject_Z f) (1#2) with
  | Lt => f
  | Gt => (f + 1)%Z
  | Eq => if Z.even f then f else (f + 1)%Z
  end.

Definition round (x : Q) : Q :=
  if Qeq_bool x 0 then 0
  else
    let a := Qabs x in
    let e := Z.max (ilog2 a - 52) (-1074) in
    let y := Qred (inject_Z (nearestEven (a / 2 ^ e)) * 2 ^ e) in
    if Qle_bool 0 x then y else - y.

(** [x + y], [x - y], [x * y] and [x / y] on doubles. *)
Definition add (x y : Q) : Q := round (x + y).
Definition sub (x y : Q) : Q := round (x - y).
Definition mul (x y : Q) : Q := round (x * y).
Definition div (x y : Q) : Q := round (x / y).

End Binary64.

(** An ordinary object with string keys, as the list of its own properties
    in the order in which they were created. *)
Module JSObject.

Definition isDigit (c : N) : bool := (48 <=? c)%N && (c <=? 57)%N.

Definition decimal (k : jsstring) : N :=
  fold_left (fun v c => (10 * v + (c - 48))%N) k 0%N.

(** The array index that a key denotes: the key is the canonical decimal
    numeral of an integer below [2 ^ 32 - 1]. *)
Definition arrayIndex (k : jsstring) : option N :=
  match k with
  | [] => None
  | c :: r =>
      if forallb isDigit k && (negb (c =? 48)%N || Nat.eqb (length r) 0)
         && (decimal k <? 4294967295)%N
      then Some (decimal k) else None
  end.

Definition isIndex {V : Type} (e : jsstring * V) : bool :=
  match arrayIndex (fst e) with Some _ => true | None => false end.

Definition byIndex {V : Type} (a b : jsstring * V) : Q :=
  inject_Z (Z.of_N (default 0%N (arrayIndex (fst a))))
  - inject_Z (Z.of_N (default 0%N (arrayIndex (fst b)))).

(** [o[k] = v]: the value of a property that is there is replaced, a new
    property comes last. *)
Fixpoint set {V : Type} (e : jsstring * V) (o : list (jsstring * V))
  : list (jsstring * V) :=
  match o with
  | [] => [e]
  | p :: r => if str_eqb (fst p) (fst e) then e :: r else p :: set e r
  end.

(** [Object.fromEntries(entries)] *)
Definition fromEntries {V : Type} (entries : list (jsstring * V)) : list (jsstring * V) :=
  fold_left (fun o e => set e o) entries [].

(** [Object.entries(o)], the order of [JSON.stringify] and of [for-in] as
    well: the properties whose keys are array indices first, by ascending
    index, then the others in the order of their creation. *)
Definition entries {V : Type} (o : list (jsstring * V)) : list (jsstring * V) :=
  js_sort byIndex (List.filter isIndex o) ++ List.filter (fun e => negb (isIndex e)) o.

End JSObject.

(** ** Voter (Voter.ts) *)

Module Voter.

Record OCRCandidate := mkCandidate { text : jsstring; conf : Q }.

Inductive Method := frequency | confidence | tiebreak.

(** The value of one entry of [textGroups]. *)
Record TextGroup := mkGroup {
  count : nat;
  confidences : list Q;
  candidates : list OCRCandidate
}.

(** [textGroups]: a [Map<string, group>], in insertion order. *)
Definition GroupMap : Type := list (jsstring * TextGroup).

(** The body of [allCandidates.forEach]: create the group of
    [candidate.text] when it is missing, then count the candidate in. *)
Fixpoint addCandidate (c : OCRCandidate) (m : GroupMap) : GroupMap :=
  match m with
  | [] => [(text c, mkGroup 1 [conf c] [c])]
  | (k, g) :: r =>
      if str_eqb k (text c)
      then (k, mkGroup (S (count g)) (confidences g ++ [conf c])
                       (candidates g ++ [c])) :: r
      else (k, g) :: addCandidate c r
  end.

Definition groupByText (allCandidates : list OCRCandidate) : GroupMap :=
  fold_left (fun m c => addCandidate c m) allCandidates [].

(** [confidences.reduce((sum, conf) => sum + conf, 0)] *)
Definition sumConf (cs : list Q) : Q := fold_left Binary64.add cs 0.

(** [Math.max(...confidences)]; a group always holds at least one
    confidence (see [groupByText_nonempty]), so the value for the empty
    list is never used. *)
Definition maxConf (cs : list Q) : Q :=
  match cs with
  | [] => 0
  | c :: r => fold_left Qmax r c
  end.

Record VoteCandidate := mkVC {
  vtext : jsstring;
  vcount : nat;
  avgConfidence : Q;
  maxConfidence : Q;
  totalConfidence : Q
}.

Definition toVoteCandidate (e : jsstring * TextGroup) : VoteCandidate :=
  let (t, data) := e in
  mkVC t (count data)
       (Binary64.div (sumConf (confidences data))
                     (inject_Z (Z.of_nat (length (confidences data)))))
       (maxConf (confidences data))
       (sumConf (confidences data)).

Definition numOfNat (n : nat) : Q := inject_Z (Z.of_nat n).

(** The three comparators handed to [sort]. The difference of two doubles
    has the sign of its exact value also after rounding (there is no
    underflow to zero), and the sort reads the sign only. *)
Definition byCount (a b : VoteCandidate) : Q := numOfNat (vcount b) - numOfNat (vcount a).
Definition byAvg (a b : VoteCandidate) : Q := avgConfidence b - avgConfidence a.
Definition byMax (a b : VoteCandidate) : Q := maxConfidence b - maxConfidence a.

Record TallyEntry := mkTally {
  ttext : jsstring;
  tcount : nat;
  tavgConfidence : Q;
  tmaxConfidence : Q
}.

(** [votes] is an object: it is kept as the list of its entries in the
    order in which the object gives them (see [JSObject.entries]). *)
Record VoteResult := mkResult {
  winner : jsstring;
  rconfidence : Q;
  votes : list (jsstring * nat);
  method : Method;
  rcandidates : list TallyEntry
}.

Definition createEmptyResult : VoteResult :=
  mkResult [] 0 [] frequency [].

Definition mkVoteResult (voteCandidates : list VoteCandidate)
           (w : VoteCandidate) (m : Method) : VoteResult :=
  mkResult (vtext w) (avgConfidence w)
           (JSObject.entries
              (JSObject.fromEntries (map (fun c => (vtext c, vcount c)) voteCandidates)))
           m
           (map (fun c => mkTally (vtext c) (vcount c) (avgConfidence c) (maxConfidence c))
                voteCandidates).

(** The winner and the method, from the array sorted by count. [None]
    stands for the [TypeError] of reading a field of [undefined], which the
    callers below never reach. *)
Definition pickWinner (voteCandidates : list VoteCandidate)
  : option (VoteCandidate * Method) :=
  match voteCandidates with
  | [] => None
  | [w] => Some (w, frequency)
  | v0 :: v1 :: _ =>
      if Nat.ltb (vcount v1) (vcount v0) then Some (v0, frequency)
      else
        let tiedCandidates :=
          List.filter (fun c => Nat.eqb (vcount c) (vcount v0)) voteCandidates in
        let tiedByAvg := js_sort byAvg tiedCandidates in
        match tiedByAvg with
        | [] => None
        | [w] => Some (w, confidence)
        | t0 :: t1 :: _ =>
            if Qgtb (avgConfidence t0) (avgConfidence t1) then Some (t0, confidence)
            else
              match js_sort byMax tiedByAvg with
              | [] => None
              | w :: _ => Some (w, tiebreak)
              end
        end
  end.

Definition vote (candidates : list (list OCRCandidate)) : option VoteResult :=
  if Nat.eqb (length candidates) 0 then Some createEmptyResult
  else
    let allCandidates := concat candidates in
    if Nat.eqb (length allCandidates) 0 then Some createEmptyResult
    else
      let voteCandidates :=
        js_sort byCount (map toVoteCandidate (groupByText allCandidates)) in
      match pickWinner voteCandidates with
      | None => None
      | Some (w, m) => Some (mkVoteResult voteCandidates w m)
      end.

(** The groups of an input as [vote] ranks them, in grouping order (the
    order in which the texts are first met). *)
Definition tally (candidates : list (list OCRCandidate)) : list VoteCandidate :=
  map toVoteCandidate (groupByText (concat candidates)).

(** Scenario: three texts seen twice each. "A" and "B" share the best mean
    confidence (3/4); "C" has a lower mean (9/16) but the single best
    reading (1). *)
Definition txtA : jsstring := [65%N].
Definition txtB : jsstring := [66%N].
Definition txtC : jsstring := [67%N].

Definition lowMeanHighMax : list (list OCRCandidate) :=
  [ [ mkCandidate txtA (3#4); mkCandidate txtB (3#4); mkCandidate txtC (1#8) ];
    [ mkCandidate txtA (3#4); mkCandidate txtB (3#4); mkCandidate txtC 1 ] ].

(** Scenario: three texts seen twice each, all with the same best reading
    (7/8); "A", met first, has the lowest mean (1/2), "B" and "C" share the
    best mean (13/16). *)
Definition sameMaxLowMeanFirst : list (list OCRCandidate) :=
  [ [ mkCandidate txtA (1#8); mkCandidate txtB (7#8); mkCandidate txtC (3#4) ];
    [ mkCandidate txtA (7#8); mkCandidate txtB (3#4); mkCandidate txtC (7#8) ] ].

(** [voteSingleCrop(candidates)] *)
Definition voteSingleCrop (candidates : list OCRCandidate) : option VoteResult :=
  vote [candidates].

(** [new Set(texts)]: the texts in the order in which they are first met. *)
Definition setAdd (x : jsstring) (s : list jsstring) : list jsstring :=
  if existsb (str_eqb x) s then s else s ++ [x].

Definition setOf (xs : list jsstring) : list jsstring :=
  fold_left (fun s x => setAdd x s) xs [].

(** [Math.min(...confidences)], on a list that is not empty. *)
Definition minConf (cs : list Q) : Q :=
  match cs with
  | [] => 0
  | c :: r => fold_left Qmin r c
  end.

Record ConfidenceRange := mkRange { rmin : Q; rmax : Q; ravg : Q }.

Record VotingStatistics := mkVotingStatistics {
  totalCrops : nat;
  totalCandidates : nat;
  uniqueTexts : nat;
  avgCandidatesPerCrop : Q;
  confidenceRange : ConfidenceRange
}.

Definition getVotingStatistics (candidates : list (list OCRCandidate)) : VotingStatistics :=
  let allCandidates := concat candidates in
  if Nat.eqb (length allCandidates) 0
  then mkVotingStatistics 0 0 0 0 (mkRange 0 0 0)
  else
    let uniqueTexts := length (setOf (map text allCandidates)) in
    let confidences := map conf allCandidates in
    mkVotingStatistics
      (length candidates) (length allCandidates) uniqueTexts
      (if Nat.ltb 0 (length candidates)
       then Binary64.div (numOfNat (length allCandidates)) (numOfNat (length candidates))
       else 0)
      (mkRange (minConf confidences) (maxConf confidences)
               (Binary64.div (sumConf confidences) (numOfNat (length confidences)))).

(** Vocabulary of the statements on the input of [vote]: the candidates
    that read [t], how many they are, and the mean and the best of their
    confidences, the mean as [toVoteCandidate] computes it. *)
Definition withText (t : jsstring) (all : list OCRCandidate) : list OCRCandidate :=
  List.filter (fun c => str_eqb (text c) t) all.

Definition occurrences (t : jsstring) (all : list OCRCandidate) : nat :=
  length (withText t all).

Definition meanConf (t : jsstring) (all : list OCRCandidate) : Q :=
  Binary64.div (sumConf (map conf (withText t all)))
               (inject_Z (Z.of_nat (length (map conf (withText t all))))).

Definition bestConf (t : jsstring) (all : list OCRCandidate) : Q :=
  maxConf (map conf (withText t all)).

(** What the grouping loop has built after the candidates [seen]. *)
Definition grouped (m : GroupMap) (seen : list OCRCandidate) : Prop :=
  List.NoDup (map fst m)
  /\ (forall k g, In (k, g) m ->
                  candidates g = withText k seen
                  /\ confidences g = map conf (candidates g)
                  /\ count g = length (candidates g)
                  /\ candidates g <> [])
  /\ (forall c, In c seen -> In (text c) (map fst m)).

(** Scenarios: a clear majority for "A", and a tie on count that "B" wins
    on mean confidence. *)
Definition majorityForA : list (list OCRCandidate) :=
  [ [ mkCandidate txtA (3#4); mkCandidate txtA (1#2); mkCandidate txtB 1 ];
    [ mkCandidate txtA (1#4) ] ].

Definition tieOnCount : list (list OCRCandidate) :=
  [ [ mkCandidate txtA (1#2); mkCandidate txtB (3#4) ];
    [ mkCandidate txtA (1#4); mkCandidate txtB (3#4) ] ].

(** Scenario: "B" read twice, "7" once. *)
Definition indexLikeText : list (list OCRCandidate) :=
  [ [ mkCandidate txtB (3#4); mkCandidate [55%N] (1#2); mkCandidate txtB (1#2) ] ].

(** Scenario: the doubles written 0.1, 0.2, 0.3 and 0.10000000000000002
    (the double after 0.1). "A" is read with 0.1, 0.2 and 0.3, "B" with 0.3,
    0.2 and 0.10000000000000002. *)
Definition d01 : Q := Binary64.round (1#10).
Definition d02 : Q := Binary64.round (2#10).
Definition d03 : Q := Binary64.round (3#10).
Definition d01next : Q := d01 + (1 # 72057594037927936).

Definition nearTie : list (list OCRCandidate) :=
  [ [ mkCandidate txtA d01; mkCandidate txtB d03 ];
    [ mkCandidate txtA d02; mkCandidate txtB d02 ];
    [ mkCandidate txtA d03; mkCandidate txtB d01next ] ].

End Voter.

(** ** Shared types (types/index.ts) *)

(** [BBoxArray]: [[x1, y1, x2, y2]]. *)
Record BBoxArray := mkBBox { bx1 : Q; by1 : Q; bx2 : Q; by2 : Q }.

(** [Math.round]: the nearest integer, halves going up. *)
Definition js_round (x : Q) : Z := Qfloor (x + (1#2)).

(** [array.slice(start)] for an integer [start]: from [start], counted from
    the end when it is negative, to the end of the array. *)
Definition js_slice_from {A : Type} (start : Z) (l : list A) : list A :=
  let len := Z.of_nat (length l) in
  let k := if (start <? 0)%Z then Z.max (len + start) 0 else Z.min start len in
  skipn (Z.to_nat k) l.

(** ** TrackerSimple (TrackerSimple.ts) *)

Module TrackerSimple.

Inductive DetType := vehicle | plate.

Record Detection := mkDet {
  dtype : DetType;
  bbox : BBoxArray;
  conf : Q;
  trackId : option N
}.

Inductive Status := active | lost | finished.

(** A track. [id] is the number whose decimal rendering [String(n)] is the
    identity and the key of the track in the map. [detections] is the
    history of references to matched detections; a reference is kept as the
    fields of the detection that the tracker never writes (the [trackId]
    stamp lives in the caller's detection object, see [update]). *)
Record Track := mkTrack {
  id : N;
  status : Status;
  startTime : Q;
  lastSeen : Q;
  detections : list (DetType * BBoxArray * Q);
  tbbox : BBoxArray;
  confidence : Q
}.

(** The fields of the class. [tracks] is the [Map], in insertion order. *)
Record Tracker := mkTracker {
  tracks : list Track;
  nextTrackId : N;
  iouThreshold : Q;
  maxLostFrames : Q;
  minDetections : Q;
  frameCount : N
}.

(** [new TrackerSimple(logger, config)], with the defaults of the class for
    the options that are left out; the default threshold is the double
    written [0.3]. *)
Definition create (iou maxLost minDet : option Q) : Tracker :=
  mkTracker [] 1%N (default (Binary64.round (3#10)) iou) (default 10 maxLost)
            (default 3 minDet) 0%N.

Definition status_eqb (a b : Status) : bool :=
  match a, b with
  | active, active | lost, lost | finished, finished => true
  | _, _ => false
  end.

(** [tracks.set(String(track.id), track)] *)
Fixpoint map_set (t : Track) (m : list Track) : list Track :=
  match m with
  | [] => [t]
  | u :: r => if N.eqb (id u) (id t) then t :: r else u :: map_set t r
  end.

(** [tracks.delete(key)] *)
Definition map_delete (k : N) (m : list Track) : list Track :=
  List.filter (fun u => negb (N.eqb (id u) k)) m.

Definition setStatus (s : Status) (t : Track) : Track :=
  mkTrack (id t) s (startTime t) (lastSeen t) (detections t) (tbbox t) (confidence t).

(** First loop of [update]: every active track is provisionally lost. *)
Definition markLost (t : Track) : Track :=
  if status_eqb (status t) active then setStatus lost t else t.

(** [calculateIOU] in exact arithmetic: the overlap that the code
    approximates (the matching loop below uses what the code computes,
    [calculateIOU64]). The tracker is only given well-formed boxes ([x2 > x1]
    and [y2 > y1], checked by its callers), for which [unionArea] is positive;
    a division by zero, which yields [NaN] or an infinity in the code and 0
    here, does not occur on them. *)
Definition calculateIOU (bbox1 bbox2 : BBoxArray) : Q :=
  let xLeft := Qmax (bx1 bbox1) (bx1 bbox2) in
  let yTop := Qmax (by1 bbox1) (by1 bbox2) in
  let xRight := Qmin (bx2 bbox1) (bx2 bbox2) in
  let yBottom := Qmin (by2 bbox1) (by2 bbox2) in
  if Qgtb xLeft xRight || Qgtb yTop yBottom then 0
  else
    let intersectionArea := (xRight - xLeft) * (yBottom - yTop) in
    let area1 := (bx2 bbox1 - bx1 bbox1) * (by2 bbox1 - by1 bbox1) in
    let area2 := (bx2 bbox2 - bx1 bbox2) * (by2 bbox2 - by1 bbox2) in
    let unionArea := area1 + area2 - intersectionArea in
    intersectionArea / unionArea.

(** [calculateIOU] as the code computes it, each operation rounded to
    binary64. [Math.max], [Math.min] and the comparisons are exact. When
    both boxes have no area the code divides 0 by 0; the [NaN] it gets
    compares false with everything, and so does the 0 that stands for it here
    in the matching loop, where the best overlap so far is never negative. *)
Definition calculateIOU64 (bbox1 bbox2 : BBoxArray) : Q :=
  let xLeft := Qmax (bx1 bbox1) (bx1 bbox2) in
  let yTop := Qmax (by1 bbox1) (by1 bbox2) in
  let xRight := Qmin (bx2 bbox1) (bx2 bbox2) in
  let yBottom := Qmin (by2 bbox1) (by2 bbox2) in
  if Qgtb xLeft xRight || Qgtb yTop yBottom then 0
  else
    let intersectionArea :=
      Binary64.mul (Binary64.sub xRight xLeft) (Binary64.sub yBottom yTop) in
    let area1 :=
      Binary64.mul (Binary64.sub (bx2 bbox1) (bx1 bbox1))
                   (Binary64.sub (by2 bbox1) (by1 bbox1)) in
    let area2 :=
      Binary64.mul (Binary64.sub (bx2 bbox2) (bx1 bbox2))
                   (Binary64.sub (by2 bbox2) (by1 bbox2)) in
    let unionArea := Binary64.sub (Binary64.add area1 area2) intersectionArea in
    Binary64.div intersectionArea unionArea.

(** The inner [tracks.forEach] of the matching loop, from slot [i] on:
    [bestMatch] is a reference to a track object, kept as the slot of the
    map that holds it together with the track read there. *)
Fixpoint findBest (thr : Q) (b : BBoxArray) (ts : list Track) (i : nat)
         (bestMatch : option (nat * Track)) (bestIOU : Q)
  : option (nat * Track) * Q :=
  match ts with
  | [] => (bestMatch, bestIOU)
  | track :: r =>
      if status_eqb (status track) finished then findBest thr b r (S i) bestMatch bestIOU
      else
        let iou := calculateIOU64 b (tbbox track) in
        if Qgtb iou thr && Qgtb iou bestIOU
        then findBest thr b r (S i) (Some (i, track)) iou
        else findBest thr b r (S i) bestMatch bestIOU
  end.

Definition updateTrack (detection : Detection) (timeMs : Q) (track : Track) : Track :=
  mkTrack (id track) active (startTime track) timeMs
          (detections track ++ [(dtype detection, bbox detection, conf detection)])
          (bbox detection)
          (confidence track * (7#10) + conf detection * (3#10)).

(** Mutation of the object in slot [i]. *)
Fixpoint modifyAt (i : nat) (f : Track -> Track) (ts : list Track) : list Track :=
  match ts, i with
  | [], _ => []
  | t :: r, O => f t :: r
  | t :: r, S j => t :: modifyAt j f r
  end.

(** What the matching loop did with one detection. *)
Inductive Outcome :=
| Skipped                 (* not a plate: [continue] *)
| Matched (k : N)         (* stamped with the identity of the matched track *)
| Unmatched.              (* pushed on [unmatchedDetections] *)

(** One iteration of [for (const detection of detections)]. *)
Definition matchDetection (thr timeMs : Q) (ts : list Track) (detection : Detection)
  : list Track * Outcome :=
  match dtype detection with
  | vehicle => (ts, Skipped)
  | plate =>
      match fst (findBest thr (bbox detection) ts 0 None 0) with
      | Some (i, track) =>
          (modifyAt i (updateTrack detection timeMs) ts, Matched (id track))
      | None => (ts, Unmatched)
      end
  end.

Fixpoint matchLoop (thr timeMs : Q) (ts : list Track) (ds : list Detection)
  : list Track * list (Detection * Outcome) :=
  match ds with
  | [] => (ts, [])
  | d :: r =>
      let (ts1, o) := matchDetection thr timeMs ts d in
      let (ts2, os) := matchLoop thr timeMs ts1 r in
      (ts2, (d, o) :: os)
  end.

Definition stamp (k : N) (d : Detection) : Detection :=
  mkDet (dtype d) (bbox d) (conf d) (Some k).

Definition createTrack (next : N) (detection : Detection) (timeMs : Q) : Track :=
  mkTrack next active timeMs timeMs
          [(dtype detection, bbox detection, conf detection)]
          (bbox detection) (conf detection).

(** The stamps of the matching loop and the second loop of [update]
    (a new track per unmatched detection), giving the caller's detection
    array as the cycle leaves it. *)
Fixpoint createLoop (timeMs : Q) (ts : list Track) (next : N)
         (os : list (Detection * Outcome)) : list Track * N * list Detection :=
  match os with
  | [] => (ts, next, [])
  | (d, Skipped) :: r =>
      let '(ts', next', ds) := createLoop timeMs ts next r in (ts', next', d :: ds)
  | (d, Matched k) :: r =>
      let '(ts', next', ds) := createLoop timeMs ts next r in (ts', next', stamp k d :: ds)
  | (d, Unmatched) :: r =>
      let '(ts', next', ds) :=
        createLoop timeMs (map_set (createTrack next d timeMs) ts) (N.succ next) r in
      (ts', next', stamp next d :: ds)
  end.

(** First loop of [handleLostTracks]. *)
Definition finishIfLostTooLong (maxLost timeMs : Q) (track : Track) : Track :=
  if status_eqb (status track) lost
  then
    let framesLost := js_round ((timeMs - lastSeen track) / 33) in
    if Qgtb (inject_Z framesLost) maxLost then setStatus finished track else track
  else track.

Definition byLastSeen (a b : Track) : Q := lastSeen b - lastSeen a.

Definition handleLostTracks (maxLost timeMs : Q) (ts : list Track) : list Track :=
  let ts1 := map (finishIfLostTooLong maxLost timeMs) ts in
  let finishedTracks :=
    js_sort byLastSeen (List.filter (fun t => status_eqb (status t) finished) ts1) in
  if Nat.ltb 10 (length finishedTracks)
  then fold_left (fun m t => map_delete (id t) m) (skipn 10 finishedTracks) ts1
  else ts1.

Definition getActiveTracks (ts : list Track) : list Track :=
  List.filter (fun t => status_eqb (status t) active) ts.

(** The tracks and the outcomes after the first two loops of [update]. *)
Definition matchPhase (T : Tracker) (dets : list Detection) (timeMs : Q)
  : list Track * list (Detection * Outcome) :=
  matchLoop (iouThreshold T) timeMs (map markLost (tracks T)) dets.

(** [update(detections, timeMs)]: the tracker after the cycle, the
    caller's detections as stamped by it, and the returned tracks. *)
Definition update (T : Tracker) (dets : list Detection) (timeMs : Q)
  : Tracker * list Detection * list Track :=
  let (ts1, os) := matchPhase T dets timeMs in
  let '(ts2, next, stamped) := createLoop timeMs ts1 (nextTrackId T) os in
  let ts3 := handleLostTracks (maxLostFrames T) timeMs ts2 in
  (mkTracker ts3 next (iouThreshold T) (maxLostFrames T) (minDetections T)
             (N.succ (frameCount T)),
   stamped,
   getActiveTracks ts3).

(** A run of update cycles, each a detection list and its sample time. *)
Definition run (T : Tracker) (cycles : list (list Detection * Q)) : Tracker :=
  fold_left (fun T c => fst (fst (update T (fst c) (snd c)))) cycles T.

(** Vocabulary of the statements below. *)


(** How many detections of [os] went on [unmatchedDetections]. *)
Fixpoint countUnmatched (os : list (Detection * Outcome)) : nat :=
  match os with
  | [] => O
  | (_, Unmatched) :: r => S (countUnmatched r)
  | _ :: r => countUnmatched r
  end.

(** The stamp a detection leaves the cycle with, from its outcome, the
    counter at the start of the cycle and the outcomes [os1] before it. *)
Definition stampedAs (next : N) (os1 : list (Detection * Outcome))
           (d : Detection) (o : Outcome) : Detection :=
  match o with
  | Skipped => d
  | Matched j => stamp j d
  | Unmatched => stamp (next + N.of_nat (countUnmatched os1)) d
  end.

(** Every identity in the map was handed out by the counter. *)
Definition idsBelow (next : N) (ts : list Track) : Prop :=
  Forall (fun u => (id u < next)%N) ts.

(** Every track of [ts] that bears the identity of [tr] is [tr] itself. *)
Definition onlyAs (tr : Track) (ts : list Track) : Prop :=
  forall u, In u ts -> id u = id tr -> u = tr.

(** The tracker, the stamped detections and the returned tracks of a
    cycle. *)
Definition trackerAfter (T : Tracker) (dets : list Detection) (timeMs : Q) : Tracker :=
  fst (fst (update T dets timeMs)).
Definition stampedBy (T : Tracker) (dets : list Detection) (timeMs : Q) : list Detection :=
  snd (fst (update T dets timeMs)).
Definition returnedBy (T : Tracker) (dets : list Detection) (timeMs : Q) : list Track :=
  snd (update T dets timeMs).

(** Scenario: a plate seen at 0 ms and never again; by 1000 ms it has been
    lost for 30 frames and is finished. *)
Definition boxA : BBoxArray := mkBBox 0 0 10 10.
Definition boxA' : BBoxArray := mkBBox 1 0 11 10.
Definition boxFar : BBoxArray := mkBBox 100 100 110 110.
Definition detA : Detection := mkDet plate boxA (1#2) None.
Definition detA' : Detection := mkDet plate boxA' (3#4) None.
Definition detFar : Detection := mkDet plate boxFar (1#2) None.

Definition seenThenGone : list (list Detection * Q) :=
  [ ([detA], 0); ([], 1000) ].

(** Scenario: a first plate is seen at 0 ms only, a second one at 400 ms
    only, a third one at 500 ms: after the third cycle the first track is
    finished, the second is lost and the third is active. *)
Definition boxMid : BBoxArray := mkBBox 50 50 60 60.
Definition detMid : Detection := mkDet plate boxMid (1#2) None.

Definition threeStatuses : Tracker :=
  run (create None None None) [ ([detA], 0); ([detFar], 400) ].

(** The tracks of the scenarios, as the tracker holds them. *)
Definition finishedTrack1 : Track :=
  mkTrack 1%N finished 0 0 [(plate, boxA, 1#2)] boxA (1#2).
Definition lostTrack2 : Track :=
  mkTrack 2%N lost 400 400 [(plate, boxFar, 1#2)] boxFar (1#2).
Definition activeTrack3 : Track :=
  mkTrack 3%N active 500 500 [(plate, boxMid, 1#2)] boxMid (1#2).

(** [getTrack(trackId)] *)
Definition getTrack (T : Tracker) (k : N) : option Track :=
  find (fun u => N.eqb (id u) k) (tracks T).

Definition getLostTracks (T : Tracker) : list Track :=
  List.filter (fun t => status_eqb (status t) lost) (tracks T).

Definition getFinishedTracks (T : Tracker) : list Track :=
  List.filter (fun t => status_eqb (status t) finished) (tracks T).

Definition getAllTracks (T : Tracker) : list Track := tracks T.

(** [reset()] *)
Definition reset (T : Tracker) : Tracker :=
  mkTracker [] 1%N (iouThreshold T) (maxLostFrames T) (minDetections T) 0%N.

Record Statistics := mkStatistics {
  totalTracks : nat;
  activeTracks : nat;
  lostTracks : nat;
  finishedTracks : nat;
  avgTrackDuration : Q;
  avgDetectionsPerTrack : Q
}.

Definition getStatistics (T : Tracker) : Statistics :=
  let ts := tracks T in
  let totalDuration := fold_left (fun acc t => acc + (lastSeen t - startTime t)) ts 0 in
  let totalDetections := fold_left (fun acc t => (acc + length (detections t))%nat) ts O in
  mkStatistics
    (length ts) (length (getActiveTracks ts)) (length (getLostTracks T))
    (length (getFinishedTracks T))
    (if Nat.ltb 0 (length ts) then totalDuration / inject_Z (Z.of_nat (length ts)) else 0)
    (if Nat.ltb 0 (length ts)
     then inject_Z (Z.of_nat totalDetections) / inject_Z (Z.of_nat (length ts)) else 0).

(** [isPointInTrack(x, y, trackId)] *)
Definition isPointInTrack (T : Tracker) (x y : Q) (k : N) : bool :=
  match getTrack T k with
  | None => false
  | Some track =>
      let b := tbbox track in
      Qle_bool (bx1 b) x && Qle_bool x (bx2 b) && Qle_bool (by1 b) y && Qle_bool y (by2 b)
  end.

(** [getTrackHistory(trackId, maxPoints)]: time, box and confidence of the
    last [maxPoints] detections. *)
Definition getTrackHistory (T : Tracker) (k : N) (maxPoints : Z)
  : list (Q * BBoxArray * Q) :=
  match getTrack T k with
  | None => []
  | Some track =>
      map (fun det => (startTime track, snd (fst det), snd det))
          (js_slice_from (- maxPoints) (detections track))
  end.

(** [predictNextPosition(trackId)]: the last box moved by the last
    displacement; [None] for [null]. *)
Definition predictNextPosition (T : Tracker) (k : N) : option BBoxArray :=
  match getTrack T k with
  | None => None
  | Some track =>
      match rev (detections track) with
      | curr :: prev :: _ =>
          let c := snd (fst curr) in
          let p := snd (fst prev) in
          Some (mkBBox (bx1 c + (bx1 c - bx1 p)) (by1 c + (by1 c - by1 p))
                       (bx2 c + (bx2 c - bx2 p)) (by2 c + (by2 c - by2 p)))
      | _ => None
      end
  end.

(** Vocabulary: a box with positive width and height, and a track whose
    box is the one of the last detection of its history, a plate. *)
Definition wellFormed (b : BBoxArray) : Prop := bx1 b < bx2 b /\ by1 b < by2 b.

Definition boxOfLastPlate (t : Track) : Prop :=
  exists older c, detections t = older ++ [(plate, tbbox t, c)].

(** Some track of [ts] is active under the identity [k]. *)
Definition hasActive (k : N) (ts : list Track) : Prop :=
  exists u, In u ts /\ id u = k /\ status u = active.




(** Scenarios on boxes with decimal coordinates, the doubles written 0.1,
    0.3 and 0.9. The exact overlap of [boxNarrow] and [boxWide] is above the
    double written 0.3, the computed one is that double. *)
Definition boxWide : BBoxArray := mkBBox 0 0 3 1.
Definition boxNarrow : BBoxArray := mkBBox 0 0 (Binary64.round (9#10)) 1.
Definition boxTenth : BBoxArray := mkBBox 0 0 (Binary64.round (1#10)) 1.
Definition boxThird : BBoxArray := mkBBox 0 0 (Binary64.round (3#10)) 1.
Definition detWide : Detection := mkDet plate boxWide (1#2) None.
Definition detNarrow : Detection := mkDet plate boxNarrow (1#2) None.
Definition detTenth : Detection := mkDet plate boxTenth (1#2) None.
Definition detThird : Detection := mkDet plate boxThird (1#2) None.



End TrackerSimple.

(** ** SessionManager (SessionManager.ts) *)

Module SessionManager.

Record Quality := mkQuality { sharpness : Q; contrast : Q; area : Q }.

Record CropImage := mkCrop {
  cropId : jsstring;
  timeMs : Q;
  imageData : jsstring;
  cbbox : BBoxArray;
  quality : option Quality
}.

Inductive Status := active | finalized.

(** A session; [finalPlate] and [confidence] of the interface are never
    written by the manager and are left out. [trackId] is the number whose
    decimal rendering is the key. *)
Record Session := mkSession {
  trackId : N;
  startMs : Q;
  endMs : Q;
  crops : list CropImage;
  status : Status
}.

Record Manager := mkManager {
  sessions : gmap N Session;
  maxSessionFrames : Q;
  disappearThreshold : Q;
  minSessionFrames : Q
}.

Definition create (maxFrames disappear minFrames : option Q) : Manager :=
  mkManager ∅ (default 20 maxFrames) (default 5000 disappear) (default 3 minFrames).

Definition withSessions (M : Manager) (m : gmap N Session) : Manager :=
  mkManager m (maxSessionFrames M) (disappearThreshold M) (minSessionFrames M).

Definition isActive (s : Session) : bool :=
  match status s with active => true | finalized => false end.

Definition numOfNat (n : nat) : Q := inject_Z (Z.of_nat n).

(** The [reason] argument of [finalizeSession] is only logged. *)
Inductive Reason := max_frames_reached | track_lost | requested.

(** [finalizeSession(trackId, reason)]: the manager afterwards and the
    returned session ([None] for [null]). *)
Definition finalizeSession (M : Manager) (k : N) (reason : Reason)
  : Manager * option Session :=
  match sessions M !! k with
  | None => (M, None)
  | Some session =>
      if negb (isActive session) then (M, None)
      else if Qgtb (minSessionFrames M) (numOfNat (length (crops session)))
      then (withSessions M (delete k (sessions M)), None)
      else
        let session' := mkSession (trackId session) (startMs session) (endMs session)
                                  (crops session) finalized in
        (withSessions M (<[k := session']> (sessions M)), Some session')
  end.

Definition createSession (M : Manager) (k : N) (timeMs : Q)
           (cropImage : option CropImage) : Manager :=
  let session :=
    mkSession k timeMs timeMs
              (match cropImage with Some c => [c] | None => [] end) active in
  withSessions M (<[k := session]> (sessions M)).

Definition updateSession (M : Manager) (k : N) (timeMs : Q)
           (cropImage : option CropImage) : Manager :=
  match sessions M !! k with
  | None => M
  | Some session =>
      let s1 := mkSession (trackId session) (startMs session) timeMs
                          (crops session) (status session) in
      match cropImage with
      | None => withSessions M (<[k := s1]> (sessions M))
      | Some c =>
          let s2 := mkSession (trackId s1) (startMs s1) (endMs s1)
                              (crops s1 ++ [c]) (status s1) in
          let M2 := withSessions M (<[k := s2]> (sessions M)) in
          if Qle_bool (maxSessionFrames M) (numOfNat (length (crops s2)))
          then fst (finalizeSession M2 k max_frames_reached)
          else M2
      end
  end.

(** [update(track, detection, timeMs, cropImage?)]; the detection is not
    read. *)
Definition update (M : Manager) (track : TrackerSimple.Track)
           (detection : TrackerSimple.Detection) (timeMs : Q)
           (cropImage : option CropImage) : Manager :=
  let k := TrackerSimple.id track in
  match sessions M !! k with
  | None => createSession M k timeMs cropImage
  | Some _ => updateSession M k timeMs cropImage
  end.

(** [handleTrackLost(trackId, lastSeen)], with the value of [Date.now()]. *)
Definition handleTrackLost (M : Manager) (k : N) (lastSeen now : Q) : Manager :=
  match sessions M !! k with
  | None => M
  | Some session =>
      if negb (isActive session) then M
      else if Qle_bool (disappearThreshold M) (now - lastSeen)
      then fst (finalizeSession M k track_lost)
      else M
  end.

Definition getSession (M : Manager) (k : N) : option Session := sessions M !! k.

(** Scenario: one track, a crop with each of its updates. *)
Definition track1 : TrackerSimple.Track :=
  TrackerSimple.mkTrack 1%N TrackerSimple.active 0 0 [] TrackerSimple.boxA (1#2).

Definition cropAt (n : nat) : CropImage :=
  mkCrop [99%N; N.of_nat n] (numOfNat n) [] TrackerSimple.boxA None.

Definition feed (M : Manager) (times : list nat) : Manager :=
  fold_left (fun M n => update M track1 TrackerSimple.detA (numOfNat n) (Some (cropAt n)))
            times M.

(** A session with a single crop. *)
Definition oneCrop : Manager := feed (create None None None) [0%nat].
Definition oneCropSession : Session :=
  mkSession 1%N (numOfNat 0) (numOfNat 0) [cropAt 0] active.

(** Twenty updates fill the default capacity. *)
Definition filled : Manager := feed (create None None None) (seq 0 20).
(** One more update for the same identity. *)
Definition overfed : Manager := feed filled [20%nat].

(** [clearOldSessions(maxAge)], with the value of [Date.now()]: the keys of
    the finalized sessions that ended before the cutoff are collected, then
    deleted. *)
Definition isStale (cutoff : Q) (session : Session) : bool :=
  Qgtb cutoff (endMs session) && negb (isActive session).

Definition clearOldSessions (M : Manager) (maxAge now : Q) : Manager :=
  let cutoff := now - maxAge in
  withSessions M (filter (fun kv => isStale cutoff (snd kv) = false) (sessions M)).

(** [reset()] *)
Definition reset (M : Manager) : Manager := withSessions M ∅.

(** The calls on a manager, and a sequence of them. *)
Inductive Op :=
| Update (track : TrackerSimple.Track) (detection : TrackerSimple.Detection)
         (timeMs : Q) (cropImage : option CropImage)
| HandleTrackLost (k : N) (lastSeen now : Q)
| FinalizeSession (k : N) (reason : Reason)
| ClearOldSessions (maxAge now : Q)
| Reset.

Definition call (M : Manager) (op : Op) : Manager :=
  match op with
  | Update track detection timeMs cropImage => update M track detection timeMs cropImage
  | HandleTrackLost k lastSeen now => handleTrackLost M k lastSeen now
  | FinalizeSession k reason => fst (finalizeSession M k reason)
  | ClearOldSessions maxAge now => clearOldSessions M maxAge now
  | Reset => reset M
  end.

Definition calls (M : Manager) (ops : list Op) : Manager := fold_left call ops M.


(** Scenario: three crops, then the track is lost for six seconds. *)
Definition threeCrops : Manager := feed (create None None None) (seq 0 3).

End SessionManager.

(** ** Validator (Validator.ts) *)

Module Validator.

Local Open Scope N_scope.

Record ValidationRules := mkRules {
  regions : list jsstring;
  letters : list jsstring;
  digits : list jsstring
}.

Record Validator := mkValidator {
  strictRules : ValidationRules;
  demoFallbackEnabled : bool
}.

Definition defaultRegions : list jsstring :=
  [ [2466; 2494; 2453; 2494];
    [2458; 2463; 2509; 2463; 2455; 2509; 2480; 2494; 2478];
    [2454; 2497; 2482; 2472; 2494];
    [2480; 2494; 2460; 2486; 2494; 2489; 2496];
    [2476; 2480; 2495; 2486; 2494; 2482];
    [2488; 2495; 2482; 2503; 2463];
    [2480; 2434; 2474; 2497; 2480];
    [2478; 2479; 2492; 2478; 2472; 2488; 2495; 2434; 2489] ].

Definition defaultLetters : list jsstring :=
  [ [2488; 2454; 2496]; [2476; 2479]; [2479; 2494; 2479; 2492; 2480];
    [2466; 2494; 2453; 2494]; [2458; 2463; 2509; 2463]; [2454; 2497; 2482];
    [2480; 2494; 2460]; [2476; 2480; 2495]; [2488; 2495; 2482];
    [2480; 2434]; [2478; 2479; 2492] ].

Definition defaultDigits : list jsstring :=
  [ [2534]; [2535]; [2536]; [2537]; [2538]; [2539]; [2540]; [2541]; [2542]; [2543] ].

(** [new Validator(logger, strictRules)]: a list that is left out is
    replaced by the default ([||] keeps any array, also an empty one);
    fallback starts enabled. *)
Definition create (r l d : option (list jsstring)) : Validator :=
  mkValidator (mkRules (default defaultRegions r) (default defaultLetters l)
                       (default defaultDigits d))
              true.

Definition setDemoFallback (V : Validator) (enabled : bool) : Validator :=
  mkValidator (strictRules V) enabled.

Inductive Mode := strict | fallback.

Inductive VehicleType := PrivateVehicle | CommercialVehicle | GovernmentVehicle | Unknown.

(** The [metadata] bag: the keys written by the strict pass, or those
    written by the fallback pass. *)
Inductive Metadata :=
| StrictMeta (region series : jsstring) (vehicleType : VehicleType)
| FallbackMeta (bengaliCharCount : nat) (hasSeparators : bool).

(** The reason and warning strings of the class, a constructor per string;
    the values spliced into a template string are its arguments. *)
Inductive Message :=
| EmptyOrNullPlateText              (* 'Empty or null plate text' *)
| NoBengaliCharactersFound          (* 'No Bengali characters found' *)
| PlateContainsNonBengali           (* 'Plate contains non-Bengali characters' *)
| ValidBanglaPlateFormat            (* 'Valid Bangla plate format' *)
| StrictFormatNotRecognized         (* 'Strict Bangla format not recognized' *)
| UsingDemoFallback                 (* 'Using demo fallback validation' *)
| ProductionRequiresStrict          (* 'Production systems require strict format compliance' *)
| FormatDoesNotMatch                (* 'Plate format does not match Bangla standards' *)
| ExpectedThreeParts (got : nat)    (* `Expected 3 parts separated by hyphens, got ${..}` *)
| InvalidRegion (region : jsstring) (* `Invalid region: ${region}` *)
| LettersPartLength (got : nat)     (* `Letters part should be 2-4 characters, got ${..}` *)
| InvalidLetterCharacter (c : jsstring) (* `Invalid letter character: ${char}` *)
| DigitsPartLength (got : nat)      (* `Digits part should be 3-4 characters, got ${..}` *)
| InvalidDigitCharacter (c : jsstring)  (* `Invalid digit character: ${char}` *)
| StrictValidationPassed            (* 'Strict Bangla format validation passed' *)
| PlateLengthShouldBe (got : nat)   (* `Plate length should be 3-20 characters, got ${..}` *)
| InsufficientBengali               (* 'Insufficient Bengali characters for fallback validation' *)
| LongPlatesShouldContainSeparators (* 'Long plates should contain separators for readability' *)
| DemoFallbackPassed                (* 'Demo fallback validation passed' *)
| FoundBengaliCharacters (n : nat). (* `Found ${..} Bengali characters` *)

Record ValidationResult := mkValidation {
  valid : bool;
  mode : Mode;
  plate : jsstring;
  reasons : list Message;
  warnings : list Message;
  metadata : option Metadata
}.

(** The result of the two private passes. *)
Record PassResult := mkPass {
  pvalid : bool;
  preasons : list Message;
  pmetadata : option Metadata
}.

Definition hyphen : N := 45.
Definition space : N := 32.

(** White space and line terminators of ECMAScript, as removed by [trim]. *)
Definition isWhiteSpace (c : N) : bool :=
  (c =? 9) || (c =? 10) || (c =? 11) || (c =? 12) || (c =? 13) || (c =? 32)
  || (c =? 160) || (c =? 5760) || ((8192 <=? c) && (c <=? 8202))
  || (c =? 8232) || (c =? 8233) || (c =? 8239) || (c =? 8287)
  || (c =? 12288) || (c =? 65279).

Fixpoint trimStart (s : jsstring) : jsstring :=
  match s with
  | [] => []
  | c :: r => if isWhiteSpace c then trimStart r else s
  end.

Definition trim (s : jsstring) : jsstring :=
  rev (trimStart (rev (trimStart s))).

(** [s.split(sep)] for a one-unit separator. *)
Fixpoint split (sep : N) (s : jsstring) : list jsstring :=
  match s with
  | [] => [[]]
  | c :: r =>
      if c =? sep then [] :: split sep r
      else match split sep r with
           | [] => [[c]]
           | p :: ps => (c :: p) :: ps
           end
  end.

Definition isHighSurrogate (c : N) : bool := (55296 <=? c) && (c <=? 56319).
Definition isLowSurrogate (c : N) : bool := (56320 <=? c) && (c <=? 57343).

(** [for (const char of s)]: the string iterator yields code points, a
    surrogate pair as one two-unit string. *)
Fixpoint codePoints (s : jsstring) : list jsstring :=
  match s with
  | [] => []
  | c :: r =>
      match r with
      | d :: r' =>
          if isHighSurrogate c && isLowSurrogate d
          then [c; d] :: codePoints r'
          else [c] :: codePoints r
      | [] => [[c]]
      end
  end.

(** [char.charCodeAt(0)]; the strings it is applied to are never empty. *)
Definition charCodeAt0 (char : jsstring) : N := hd 0 char.

Definition isBengaliChar (char : jsstring) : bool :=
  let code := charCodeAt0 char in (2432 <=? code) && (code <=? 2559).

Definition isBengaliLetter (char : jsstring) : bool :=
  let code := charCodeAt0 char in
  ((2437 <=? code) && (code <=? 2489))
  || ((2494 <=? code) && (code <=? 2508))
  || ((2519 <=? code) && (code <=? 2524)).

(** [/[\u0980-\u09FF]/.test(text)] *)
Definition isBengaliText (text : jsstring) : bool :=
  existsb (fun c => (2432 <=? c) && (c <=? 2559)) text.

Fixpoint startsWith (p s : jsstring) : bool :=
  match p, s with
  | [], _ => true
  | _ :: _, [] => false
  | a :: p', b :: s' => (a =? b) && startsWith p' s'
  end.

(** [s.includes(p)] *)
Fixpoint includes (p s : jsstring) : bool :=
  startsWith p s || match s with [] => false | _ :: r => includes p r end.

(** [array.includes(x)] on strings. *)
Definition memberOf (x : jsstring) (l : list jsstring) : bool :=
  existsb (str_eqb x) l.

Definition inferVehicleType (letters : jsstring) : VehicleType :=
  if includes [2488; 2454; 2496] letters then PrivateVehicle
  else if includes [2476; 2479] letters then CommercialVehicle
  else if includes [2479; 2494; 2479; 2492; 2480] letters then GovernmentVehicle
  else Unknown.

Definition lengthOutside (lo hi : nat) (s : jsstring) : bool :=
  Nat.ltb (length s) lo || Nat.ltb hi (length s).

Definition validateStrictFormat (rules : ValidationRules) (plate : jsstring) : PassResult :=
  match split hyphen plate with
  | [region; letters; digits] =>
      let r1 := if memberOf region (regions rules) then [] else [InvalidRegion region] in
      let r2 :=
        if lengthOutside 2 4 letters then [LettersPartLength (length letters)]
        else match find (fun char => negb (isBengaliLetter char)) (codePoints letters) with
             | Some char => [InvalidLetterCharacter char]
             | None => []
             end in
      let r3 :=
        if lengthOutside 3 4 digits then [DigitsPartLength (length digits)]
        else match find (fun char => negb (memberOf char (Validator.digits rules)))
                        (codePoints digits) with
             | Some char => [InvalidDigitCharacter char]
             | None => []
             end in
      let reasons := r1 ++ r2 ++ r3 in
      match reasons with
      | [] => mkPass true [StrictValidationPassed]
                     (Some (StrictMeta region letters (inferVehicleType letters)))
      | _ :: _ => mkPass false reasons None
      end
  | parts => mkPass false [ExpectedThreeParts (length parts)] None
  end.

Definition validateFallbackFormat (plate : jsstring) : PassResult :=
  if lengthOutside 3 20 plate then mkPass false [PlateLengthShouldBe (length plate)] None
  else
    let bengaliChars := List.filter (fun c => isBengaliChar [c]) plate in
    if Nat.ltb (length bengaliChars) 2 then mkPass false [InsufficientBengali] None
    else
      let hasSeparators := existsb (N.eqb hyphen) plate || existsb (N.eqb space) plate in
      let reasons :=
        if negb hasSeparators && Nat.ltb 10 (length plate)
        then [LongPlatesShouldContainSeparators] else [] in
      mkPass true
             (reasons ++ [DemoFallbackPassed; FoundBengaliCharacters (length bengaliChars)])
             (Some (FallbackMeta (length bengaliChars) hasSeparators)).

Definition validatePlate (V : Validator) (plate : jsstring) : ValidationResult :=
  if Nat.eqb (length plate) 0 || Nat.eqb (length (trim plate)) 0
  then mkValidation false strict plate [EmptyOrNullPlateText] [] None
  else
    let warnings0 := if isBengaliText plate then [] else [PlateContainsNonBengali] in
    let strictResult := validateStrictFormat (strictRules V) plate in
    if pvalid strictResult
    then mkValidation true strict plate [ValidBanglaPlateFormat] warnings0
                      (pmetadata strictResult)
    else
      let failed := mkValidation false strict plate (preasons strictResult)
                                 [FormatDoesNotMatch] None in
      if demoFallbackEnabled V
      then
        let fallbackResult := validateFallbackFormat plate in
        if pvalid fallbackResult
        then mkValidation true fallback plate (preasons fallbackResult)
                          [StrictFormatNotRecognized; UsingDemoFallback;
                           ProductionRequiresStrict]
                          (pmetadata fallbackResult)
        else failed
      else failed.

(** Scenarios: the strict sample of the documentation, and eleven Bengali
    letters in a row. *)
Definition strictSample : jsstring :=
  [2466; 2494; 2453; 2494; 45; 2488; 2454; 2496; 45; 2535; 2536; 2537; 2538].

Definition longUnseparated : jsstring := repeat 2453 11.

(** [updateRules(newRules)]: a list that [newRules] has replaces the one of
    the rules. *)
Definition updateRules (V : Validator) (r l d : option (list jsstring)) : Validator :=
  mkValidator (mkRules (default (regions (strictRules V)) r)
                       (default (letters (strictRules V)) l)
                       (default (digits (strictRules V)) d))
              (demoFallbackEnabled V).

(** Vocabulary of the statements below. *)

(** [plate] reads region-series-number, as the strict pass wants it. *)
Definition strictShape (rules : ValidationRules) (plate region series number : jsstring)
  : Prop :=
  plate = region ++ hyphen :: series ++ hyphen :: number
  /\ ~ In hyphen region /\ ~ In hyphen series /\ ~ In hyphen number
  /\ memberOf region (regions rules) = true
  /\ (2 <= length series <= 4)%nat
  /\ forallb isBengaliLetter (codePoints series) = true
  /\ (3 <= length number <= 4)%nat
  /\ forallb (fun char => memberOf char (digits rules)) (codePoints number) = true.

(** The number of code units in the Bengali block. *)
Definition bengaliUnits (plate : jsstring) : nat :=
  length (List.filter (fun c => isBengaliChar [c]) plate).

(** What the fallback pass wants. *)
Definition fallbackShape (plate : jsstring) : Prop :=
  (3 <= length plate <= 20)%nat /\ (2 <= bengaliUnits plate)%nat.

(** Scenario: a Bengali word that is no region, with the series and number
    of the strict sample. *)
Definition unknownRegion : jsstring :=
  [2488; 2454; 2496; 45; 2476; 2479; 45; 2535; 2536; 2537].

End Validator.

(** ** Deduplicator (Deduplicator.ts) *)

Module Deduplicator.

Inductive Direction := ENTRY | EXIT.

(** An event, with the fields the deduplicator reads and a few of those it
    only carries. [timestamp] is the value of
    [new Date(event.timestamp).getTime()], epoch milliseconds, for a
    timestamp string that parses (the pipeline writes them with
    [toISOString]); [timeMs] is the position in the video. *)
Record ANPREvent := mkEvent {
  id : jsstring;
  timestamp : Z;
  timeMs : Q;
  plate : jsstring;
  status : Direction;
  gate : jsstring;
  confidence : Q;
  trackId : N
}.

(** The two reason strings. *)
Inductive Reason :=
| DuplicateWithin (seconds : Z)   (* `Duplicate plate detected within ${..}s` *)
| NoDuplicateDetected.            (* 'No duplicate detected' *)

Record DeduplicationResult := mkDedupResult {
  isDuplicate : bool;
  reason : Reason;
  previousEvent : option ANPREvent;
  timeDiff : option Q
}.

Record Dedup := mkDedup {
  recentEvents : list ANPREvent;
  maxHistorySize : Q;
  sameDirectionWindow : Q;
  oppositeDirectionWindow : Q
}.

Definition create (maxHistory sameWindow oppositeWindow : option Q) : Dedup :=
  mkDedup [] (default 100 maxHistory)
          (default (5 * 60 * 1000) sameWindow)
          (default (3 * 60 * 1000) oppositeWindow).

Definition withHistory (D : Dedup) (h : list ANPREvent) : Dedup :=
  mkDedup h (maxHistorySize D) (sameDirectionWindow D) (oppositeDirectionWindow D).

Definition direction_eqb (a b : Direction) : bool :=
  match a, b with
  | ENTRY, ENTRY | EXIT, EXIT => true
  | _, _ => false
  end.

Definition numOfNat (n : nat) : Q := inject_Z (Z.of_nat n).

(** The predicate of [recentEvents.filter]: is [event] within the window
    that applies to its direction and the one of [newEvent]? *)
Definition inWindow (D : Dedup) (newEvent event : ANPREvent) : bool :=
  let now := timestamp newEvent in
  let eventTime := timestamp event in
  let timeDiff := inject_Z (Z.abs (now - eventTime)) in
  if direction_eqb (status event) (status newEvent)
  then Qle_bool timeDiff (sameDirectionWindow D)
  else Qle_bool timeDiff (oppositeDirectionWindow D).

(** [addToHistory(event)]: [push], then [shift] when over the cap. *)
Definition addToHistory (D : Dedup) (event : ANPREvent) : Dedup :=
  let pushed := recentEvents D ++ [event] in
  if Qgtb (numOfNat (length pushed)) (maxHistorySize D)
  then withHistory D (tl pushed)
  else withHistory D pushed.

Definition checkDuplicate (D : Dedup) (newEvent : ANPREvent)
  : Dedup * DeduplicationResult :=
  let relevantEvents := List.filter (inWindow D newEvent) (recentEvents D) in
  match find (fun event => str_eqb (plate event) (plate newEvent)) relevantEvents with
  | Some duplicateEvent =>
      let timeDiff := Qabs (timeMs newEvent - timeMs duplicateEvent) in
      (D, mkDedupResult true (DuplicateWithin (js_round (timeDiff / 1000)))
                        (Some duplicateEvent) (Some timeDiff))
  | None =>
      (addToHistory D newEvent,
       mkDedupResult false NoDuplicateDetected None None)
  end.

(** Vocabulary of the statements below. *)

(** The distance of the two timestamps, as [inWindow] measures it. *)
Definition gap (a b : ANPREvent) : Q := inject_Z (Z.abs (timestamp a - timestamp b)).

(** [event] is within, or outside, the window that applies to it. *)
Definition withinWindow (D : Dedup) (newEvent event : ANPREvent) : Prop :=
  (status event = status newEvent /\ gap newEvent event <= sameDirectionWindow D)
  \/ (status event <> status newEvent /\ gap newEvent event <= oppositeDirectionWindow D).

Definition outsideWindow (D : Dedup) (newEvent event : ANPREvent) : Prop :=
  (status event = status newEvent /\ sameDirectionWindow D < gap newEvent event)
  \/ (status event <> status newEvent /\ oppositeDirectionWindow D < gap newEvent event).

(** The result for a duplicate of [previous]. *)
Definition duplicateOf (newEvent previous : ANPREvent) : DeduplicationResult :=
  let timeDiff := Qabs (timeMs newEvent - timeMs previous) in
  mkDedupResult true (DuplicateWithin (js_round (timeDiff / 1000)))
                (Some previous) (Some timeDiff).

(** Scenario: a car leaves at T, comes back 3.5 minutes later and is read
    again half a minute after that. *)
Definition plateP : jsstring := [2453%N; 45%N; 2535%N].
Definition evtExit : ANPREvent := mkEvent [1%N] 0 0 plateP EXIT [] (9#10) 1%N.
Definition evtEntry : ANPREvent := mkEvent [2%N] 210000 210000 plateP ENTRY [] (9#10) 2%N.
Definition evtAgain : ANPREvent := mkEvent [3%N] 240000 240000 plateP ENTRY [] (9#10) 3%N.

Definition afterExitAndEntry : Dedup :=
  fst (checkDuplicate (fst (checkDuplicate (create None None None) evtExit)) evtEntry).

(** Scenario: the car that left at T is read again with timestamps five
    minutes apart, but 1500 ms later in the video. *)
Definition evtLate : ANPREvent := mkEvent [4%N] 300000 1500 plateP EXIT [] (9#10) 4%N.

(** Scenario: an entry at 0 s and an exit at 190 s in the history, and an
    exit at 100 s checked against them. *)
Definition evtEntryAt0 : ANPREvent := mkEvent [5%N] 0 0 plateP ENTRY [] (9#10) 5%N.
Definition evtExitAt190 : ANPREvent :=
  mkEvent [6%N] 190000 190000 plateP EXIT [] (9#10) 6%N.
Definition evtBetween : ANPREvent := mkEvent [7%N] 100000 100000 plateP EXIT [] (9#10) 7%N.
Definition twoInWindow : Dedup :=
  withHistory (create None None None) [evtEntryAt0; evtExitAt190].

(** [getRecentEvents(limit = 10)], for an integer limit: [slice(-limit)]. *)
Definition getRecentEvents (D : Dedup) (limit : option Z) : list ANPREvent :=
  js_slice_from (- default 10%Z limit)%Z (recentEvents D).

Definition getEventsByPlate (D : Dedup) (p : jsstring) : list ANPREvent :=
  List.filter (fun event => str_eqb (plate event) p) (recentEvents D).

Definition getEventsByDirection (D : Dedup) (st : Direction) : list ANPREvent :=
  List.filter (fun event => direction_eqb (status event) st) (recentEvents D).

Definition clearHistory (D : Dedup) : Dedup := withHistory D [].

(** The events of a run, checked one after the other. *)
Definition submitAll (D : Dedup) (events : list ANPREvent) : Dedup :=
  fold_left (fun D event => fst (checkDuplicate D event)) events D.

(** Two history events, the earlier one first, do not conflict: they have
    different plates, or the earlier one is outside the window of the
    later. *)
Definition apart (D : Dedup) (earlier later : ANPREvent) : Prop :=
  plate earlier = plate later -> outsideWindow D later earlier.

End Deduplicator.

(** * Properties *)

(** ** Comparisons on numbers and strings *)

Lemma Qgtb_true (a b : Q) : Qgtb a b = true <-> b < a.
Proof.
  unfold Qgtb. rewrite negb_true_iff. split.
  - intros H. apply Qnot_le_lt. intros Hle. apply Qle_bool_iff in Hle. congruence.
  - intros H. destruct (Qle_bool a b) eqn:E; [|reflexivity].
    apply Qle_bool_iff in E. exfalso. exact (Qlt_not_le _ _ H E).
Qed.

Lemma Qgtb_false (a b : Q) : Qgtb a b = false <-> a <= b.
Proof.
  unfold Qgtb. rewrite negb_false_iff. apply Qle_bool_iff.
Qed.

Lemma str_eqb_eq (a b : jsstring) : str_eqb a b = true <-> a = b.
Proof. unfold str_eqb. apply bool_decide_eq_true. Qed.

(** ** Sorting keeps the elements *)

Lemma skipn_In {A : Type} (n : nat) (l : list A) (x : A) : In x (skipn n l) -> In x l.
Proof.
  intros H. rewrite <- (firstn_skipn n l). apply in_or_app. now right.
Qed.

Section SortFacts.
Context {A : Type} (cmp : A -> A -> Q).

Lemma sort_insert_In (x y : A) (l : list A) :
  In y (sort_insert cmp x l) <-> y = x \/ In y l.
Proof.
  induction l as [|z r IH]; simpl.
  - split; intros [H | H]; auto.
  - destruct (Qgtb (cmp x z) 0); simpl; [rewrite IH|]; intuition auto.
Qed.

Lemma js_sort_In (y : A) (l : list A) : In y (js_sort cmp l) <-> In y l.
Proof.
  induction l as [|x r IH]; simpl; [reflexivity|].
  rewrite sort_insert_In, IH. intuition auto.
Qed.

Lemma sort_insert_length (x : A) (l : list A) :
  length (sort_insert cmp x l) = S (length l).
Proof.
  induction l as [|z r IH]; simpl; [reflexivity|].
  destruct (Qgtb (cmp x z) 0); simpl; [rewrite IH|]; reflexivity.
Qed.

Lemma js_sort_length (l : list A) : length (js_sort cmp l) = length l.
Proof.
  induction l as [|x r IH]; simpl; [reflexivity|].
  now rewrite sort_insert_length, IH.
Qed.
End SortFacts.

(** ** Sorting by a key, largest first *)

Section SortByKey.
Context {A : Type} (key : A -> Q) (cmp : A -> A -> Q).
Hypothesis cmp_key : forall a b, cmp a b = key b - key a.

Let above (a b : A) : Prop := key b <= key a.

Lemma cmp_gt (a b : A) : Qgtb (cmp a b) 0 = true <-> key a < key b.
Proof.
  rewrite Qgtb_true, cmp_key. symmetry. apply Qlt_minus_iff.
Qed.

Lemma sort_insert_perm (x : A) (l : list A) : Permutation (sort_insert cmp x l) (x :: l).
Proof.
  induction l as [|y r IH]; simpl; [reflexivity|].
  destruct (Qgtb (cmp x y) 0); [|reflexivity].
  rewrite IH. apply perm_swap.
Qed.

Lemma js_sort_perm (l : list A) : Permutation (js_sort cmp l) l.
Proof.
  induction l as [|x r IH]; simpl; [reflexivity|].
  rewrite sort_insert_perm. now apply perm_skip.
Qed.

Lemma sort_insert_sorted (x : A) (l : list A) :
  StronglySorted above l -> StronglySorted above (sort_insert cmp x l).
Proof.
  induction 1 as [|y r Hr IH Hy]; simpl.
  - repeat constructor.
  - destruct (Qgtb (cmp x y) 0) eqn:E.
    + apply cmp_gt in E. constructor; [exact IH|].
      rewrite List.Forall_forall in *. intros z Hz.
      apply sort_insert_In in Hz. destruct Hz as [-> | Hz].
      * unfold above. now apply Qlt_le_weak.
      * now apply Hy.
    + assert (Hle : key y <= key x).
      { apply Qnot_lt_le. intros Hlt. apply cmp_gt in Hlt. congruence. }
      constructor; [now constructor|].
      constructor; [exact Hle|].
      rewrite List.Forall_forall in *. intros z Hz.
      unfold above. eapply Qle_trans; [apply Hy; exact Hz | exact Hle].
Qed.

Lemma js_sort_sorted (l : list A) : StronglySorted above (js_sort cmp l).
Proof.
  induction l as [|x r IH]; simpl; [constructor | now apply sort_insert_sorted].
Qed.

(** The element that is strictly above all the others comes first, and
    strictly above the second. *)
Lemma js_sort_unique_max (l : list A) (m : A) :
  List.NoDup l -> In m l ->
  (forall x, In x l -> x <> m -> key x < key m) ->
  exists rest, js_sort cmp l = m :: rest /\ forall x, In x rest -> key x < key m.
Proof.
  intros Hnd Hm Hmax.
  pose proof (js_sort_sorted l) as Hs. pose proof (js_sort_perm l) as Hp.
  assert (Hnd' : List.NoDup (js_sort cmp l))
    by (eapply Permutation_NoDup; [symmetry; exact Hp | exact Hnd]).
  destruct (js_sort cmp l) as [|h t] eqn:E.
  - exfalso. apply Permutation_nil in Hp. subst l. contradiction.
  - inversion Hs as [|? ? _ Hh]; subst. inversion Hnd' as [|? ? Hnin _]; subst.
    rewrite List.Forall_forall in Hh.
    assert (Hin : forall x, In x (h :: t) <-> In x l)
      by (intros x; split; apply Permutation_in; [exact Hp | symmetry; exact Hp]).
    assert (Hhm : h = m).
    { apply Hin in Hm. destruct Hm as [Hm | Hm]; [exact Hm|].
      specialize (Hh m Hm). unfold above in Hh.
      destruct (Hin h) as [Hhl _]. specialize (Hhl (or_introl eq_refl)).
      assert (Hne : h <> m) by (intros ->; contradiction).
      exfalso. exact (Qlt_not_le _ _ (Hmax h Hhl Hne) Hh). }
    subst h. exists t. split; [reflexivity|].
    intros x Hx. apply Hmax; [apply Hin; now right|].
    intros ->. contradiction.
Qed.

(** When two elements share the top key, so do the first two of the
    sorted list. *)
Lemma js_sort_tied_top (l : list A) (m y : A) :
  In m l -> In y l -> y <> m ->
  (forall x, In x l -> key x <= key m) -> key y == key m ->
  exists v0 v1 rest, js_sort cmp l = v0 :: v1 :: rest
                     /\ key v0 == key m /\ key v1 == key m.
Proof.
  intros Hm Hy Hne Hmax Hky.
  pose proof (js_sort_sorted l) as Hs. pose proof (js_sort_perm l) as Hp.
  assert (Hin : forall x, In x (js_sort cmp l) <-> In x l)
    by (intros x; apply js_sort_In).
  destruct (js_sort cmp l) as [|v0 [|v1 rest]] eqn:E.
  - exfalso. apply Hin in Hm. contradiction.
  - exfalso. apply Hin in Hm. apply Hin in Hy.
    destruct Hm as [<- | []], Hy as [<- | []]. now apply Hne.
  - exists v0, v1, rest. split; [reflexivity|].
    inversion Hs as [|? ? Hs1 H0]; subst. inversion Hs1 as [|? ? _ H1]; subst.
    rewrite List.Forall_forall in H0, H1. unfold above in H0, H1.
    assert (Hv0 : key v0 == key m).
    { apply Qle_antisym; [apply Hmax, Hin; now left|].
      apply Hin in Hm. destruct Hm as [<- | Hm]; [apply Qle_refl | now apply H0]. }
    split; [exact Hv0|].
    apply Qle_antisym; [apply Hmax, Hin; right; now left|].
    apply Hin in Hm. apply Hin in Hy.
    destruct Hm as [Hm | [Hm | Hm]].
    + destruct Hy as [Hy | [Hy | Hy]].
      * exfalso. apply Hne. congruence.
      * subst v1. rewrite Hky. apply Qle_refl.
      * rewrite <- Hky. now apply H1.
    + subst v1. apply Qle_refl.
    + now apply H1.
Qed.
End SortByKey.

(** ** Voter: grouping, and the levels of the decision that hold *)

Section VoterLevels.
Import Voter.

Lemma addCandidate_keys c m k :
  In k (map fst (addCandidate c m)) <-> k = text c \/ In k (map fst m).
Proof.
  induction m as [|[k' g] r IH]; simpl.
  - intuition auto.
  - destruct (str_eqb k' (text c)) eqn:E; simpl.
    + apply str_eqb_eq in E. subst k'. intuition auto.
    + rewrite IH. intuition auto.
Qed.

Lemma addCandidate_NoDup c m :
  List.NoDup (map fst m) -> List.NoDup (map fst (addCandidate c m)).
Proof.
  induction m as [|[k g] r IH]; simpl; intros H.
  - repeat constructor. intros [].
  - inversion H as [|? ? Hnin Hr]; subst.
    destruct (str_eqb k (text c)) eqn:E; simpl; [now constructor|].
    constructor; [|now apply IH].
    intros Hin. apply addCandidate_keys in Hin. destruct Hin as [Heq | Hin]; [|contradiction].
    apply str_eqb_eq in Heq. congruence.
Qed.

Lemma addCandidate_nonempty c m : addCandidate c m <> [].
Proof.
  destruct m as [|[k g] r]; simpl; [discriminate|].
  destruct (str_eqb k (text c)); discriminate.
Qed.

Lemma groupByText_fold l m :
  List.NoDup (map fst m) ->
  List.NoDup (map fst (fold_left (fun m c => addCandidate c m) l m))
  /\ (l <> [] \/ m <> [] -> fold_left (fun m c => addCandidate c m) l m <> []).
Proof.
  revert m. induction l as [|c r IH]; intros m H; simpl.
  - split; [exact H | intros [Hl | Hm]; [congruence | exact Hm]].
  - destruct (IH (addCandidate c m) (addCandidate_NoDup c m H)) as [H1 H2].
    split; [exact H1|]. intros _. apply H2. right. apply addCandidate_nonempty.
Qed.

(** Every group holds the confidences of the candidates counted in it, at
    least one. *)
Lemma groupByText_nonempty l k g :
  In (k, g) (groupByText l) ->
  confidences g <> [] /\ count g = length (confidences g).
Proof.
  unfold groupByText.
  assert (Hgen : forall m,
             (forall k g, In (k, g) m ->
                          confidences g <> [] /\ count g = length (confidences g)) ->
             forall k g, In (k, g) (fold_left (fun m c => addCandidate c m) l m) ->
                         confidences g <> [] /\ count g = length (confidences g)).
  { induction l as [|c r IH]; intros m Hm; simpl; [exact Hm|].
    apply IH. clear IH. induction m as [|[k' g'] m' IHm]; simpl.
    - intros k0 g0 [Heq | []]. inversion Heq; subst. simpl. split; [discriminate | reflexivity].
    - destruct (str_eqb k' (text c)); simpl.
      + intros k0 g0 [Heq | Hin]; [|apply (Hm k0); now right].
        inversion Heq; subst. simpl. split; [now destruct (confidences g')|].
        rewrite length_app. simpl.
        destruct (Hm k0 g' (or_introl eq_refl)) as [_ ->]. lia.
      + intros k0 g0 [Heq | Hin]; [apply (Hm k0); now left|].
        apply (IHm (fun k1 g1 H1 => Hm k1 g1 (or_intror H1)) k0 g0 Hin). }
  apply Hgen. intros ? ? [].
Qed.

Lemma tally_texts candidates :
  map vtext (tally candidates) = map fst (groupByText (concat candidates)).
Proof.
  unfold tally. rewrite map_map. apply map_ext. now intros [t g].
Qed.

Lemma tally_NoDup candidates : List.NoDup (tally candidates).
Proof.
  apply (NoDup_map_inv vtext). rewrite tally_texts.
  apply groupByText_fold. constructor.
Qed.

Lemma tally_nonempty candidates : concat candidates <> [] <-> tally candidates <> [].
Proof.
  unfold tally. split.
  - intros H Hnil. apply map_eq_nil in Hnil. revert Hnil.
    apply groupByText_fold; [constructor | now left].
  - intros H Hnil. apply H. now rewrite Hnil.
Qed.

(** [vote] on an input with at least one candidate. *)
Lemma vote_unfold candidates :
  tally candidates <> [] ->
  vote candidates
  = match pickWinner (js_sort byCount (tally candidates)) with
    | Some (w, m) => Some (mkVoteResult (js_sort byCount (tally candidates)) w m)
    | None => None
    end.
Proof.
  intros H. apply tally_nonempty in H. unfold vote, tally.
  destruct candidates as [|c r]; [now contradiction H|].
  change (Nat.eqb (length (c :: r)) 0) with false. cbv iota.
  destruct (Nat.eqb (length (concat (c :: r))) 0) eqn:E; [|reflexivity].
  apply Nat.eqb_eq, length_zero_iff_nil in E. contradiction.
Qed.

Lemma js_sort_nonempty {A : Type} (cmp : A -> A -> Q) (l : list A) :
  l <> [] -> js_sort cmp l <> [].
Proof.
  intros H Hnil. apply H. apply length_zero_iff_nil.
  rewrite <- (js_sort_length cmp l), Hnil. reflexivity.
Qed.

(** The decision never reads past the end of an array, and its winner is one
    of the groups. *)
Lemma pickWinner_some (l : list VoteCandidate) :
  l <> [] -> exists w m, pickWinner l = Some (w, m) /\ In w l.
Proof.
  intros Hl. destruct l as [|v0 [|v1 rest]].
  - congruence.
  - exists v0, frequency. split; [reflexivity | now left].
  - unfold pickWinner.
    destruct (Nat.ltb (vcount v1) (vcount v0));
      [exists v0, frequency; split; [reflexivity | now left]|].
    set (tied := List.filter (fun c => Nat.eqb (vcount c) (vcount v0)) (v0 :: v1 :: rest)).
    assert (Hsub : forall x, In x tied -> In x (v0 :: v1 :: rest))
      by (intros x Hx; apply filter_In in Hx; tauto).
    assert (Htied : tied <> []).
    { subst tied. simpl. rewrite Nat.eqb_refl. discriminate. }
    pose proof (js_sort_nonempty byAvg tied Htied) as Hne.
    assert (Hsub1 : forall x, In x (js_sort byAvg tied) -> In x (v0 :: v1 :: rest))
      by (intros x Hx; apply Hsub; now apply js_sort_In in Hx).
    destruct (js_sort byAvg tied) as [|t0 [|t1 r1]] eqn:E; [congruence | |].
    + exists t0, confidence. split; [reflexivity | apply Hsub1; now left].
    + destruct (Qgtb (avgConfidence t0) (avgConfidence t1));
        [exists t0, confidence; split; [reflexivity | apply Hsub1; now left]|].
      assert (Hne2 : js_sort byMax (t0 :: t1 :: r1) <> [])
        by (apply js_sort_nonempty; discriminate).
      destruct (js_sort byMax (t0 :: t1 :: r1)) as [|w r2] eqn:E2; [congruence|].
      exists w, tiebreak. split; [reflexivity|].
      apply Hsub1. apply (js_sort_In byMax). rewrite E2. now left.
Qed.

(** [vote] returns on every input with a candidate; the winner is one of the
    groups and the confidence is the mean confidence of that group. *)
Lemma vote_returns candidates :
  concat candidates <> [] ->
  exists r w, vote candidates = Some r /\ In w (tally candidates)
              /\ winner r = vtext w /\ rconfidence r = avgConfidence w.
Proof.
  intros H. apply tally_nonempty in H. rewrite (vote_unfold _ H).
  destruct (pickWinner_some (js_sort byCount (tally candidates))) as (w & m & Hw & Hin);
    [now apply js_sort_nonempty|].
  rewrite Hw. eexists _, w. split; [reflexivity|].
  split; [now apply js_sort_In in Hin|]. split; reflexivity.
Qed.

Lemma numOfNat_lt (a b : nat) : numOfNat a < numOfNat b <-> (a < b)%nat.
Proof. unfold numOfNat. rewrite <- Zlt_Qlt. lia. Qed.

Lemma numOfNat_eq (a b : nat) : numOfNat a == numOfNat b <-> a = b.
Proof. unfold numOfNat. rewrite inject_Z_injective. lia. Qed.

Lemma numOfNat_le (a b : nat) : numOfNat a <= numOfNat b <-> (a <= b)%nat.
Proof. unfold numOfNat. rewrite <- Zle_Qle. lia. Qed.

(** Level 1: the text with the strictly highest count wins, by
    [frequency]. *)
Lemma vote_frequency candidates (m : VoteCandidate) :
  In m (tally candidates) ->
  (forall x, In x (tally candidates) -> x <> m -> (vcount x < vcount m)%nat) ->
  exists r, vote candidates = Some r
            /\ winner r = vtext m /\ method r = frequency
            /\ rconfidence r = avgConfidence m.
Proof.
  intros Hm Hmax.
  assert (Hne : tally candidates <> []) by (intros Hnil; rewrite Hnil in Hm; contradiction).
  rewrite (vote_unfold _ Hne).
  destruct (js_sort_unique_max (fun c => numOfNat (vcount c)) byCount
              (fun a b => eq_refl) (tally candidates) m (tally_NoDup candidates) Hm)
    as (rest & -> & Hrest).
  { intros x Hx Hxm. apply numOfNat_lt. now apply Hmax. }
  destruct rest as [|v1 rest]; simpl.
  - eexists. repeat split; reflexivity.
  - assert (Hlt : Nat.ltb (vcount v1) (vcount m) = true).
    { apply Nat.ltb_lt, numOfNat_lt. apply Hrest. now left. }
    rewrite Hlt. eexists. repeat split; reflexivity.
Qed.

(** Level 2: when the top count is shared, the text with the strictly
    highest mean confidence among those that share it wins, by
    [confidence]. *)
Lemma vote_confidence candidates (m y : VoteCandidate) :
  In m (tally candidates) -> In y (tally candidates) -> y <> m ->
  vcount y = vcount m ->
  (forall x, In x (tally candidates) -> (vcount x <= vcount m)%nat) ->
  (forall x, In x (tally candidates) -> x <> m -> vcount x = vcount m ->
             avgConfidence x < avgConfidence m) ->
  exists r, vote candidates = Some r
            /\ winner r = vtext m /\ method r = confidence
            /\ rconfidence r = avgConfidence m.
Proof.
  intros Hm Hy Hne Hcy Hmax Havg.
  assert (Hnil : tally candidates <> []) by (intros E; rewrite E in Hm; contradiction).
  rewrite (vote_unfold _ Hnil).
  destruct (js_sort_tied_top (fun c => numOfNat (vcount c)) byCount
              (fun a b => eq_refl) (tally candidates) m y Hm Hy Hne)
    as (v0 & v1 & rest & E & H0 & H1).
  { intros x Hx. apply numOfNat_le. now apply Hmax. }
  { apply numOfNat_eq. exact Hcy. }
  apply numOfNat_eq in H0. apply numOfNat_eq in H1.
  assert (Hin : forall x, In x (v0 :: v1 :: rest) <-> In x (tally candidates))
    by (intros x; rewrite <- E; apply js_sort_In).
  assert (Hnd : List.NoDup (v0 :: v1 :: rest)).
  { rewrite <- E. eapply Permutation_NoDup; [|apply tally_NoDup].
    symmetry. apply js_sort_perm. }
  rewrite E. unfold pickWinner.
  assert (Hlt : Nat.ltb (vcount v1) (vcount v0) = false) by (apply Nat.ltb_ge; lia).
  rewrite Hlt.
  set (tied := List.filter (fun c => Nat.eqb (vcount c) (vcount v0)) (v0 :: v1 :: rest)).
  destruct (js_sort_unique_max avgConfidence byAvg (fun a b => eq_refl) tied m)
    as (rest' & -> & Hrest).
  { subst tied. now apply List.NoDup_filter. }
  { subst tied. apply filter_In. split; [now apply Hin | apply Nat.eqb_eq; lia]. }
  { intros x Hx Hxm. subst tied. apply filter_In in Hx. destruct Hx as [Hx Hc].
    apply Nat.eqb_eq in Hc. apply Havg; [now apply Hin | exact Hxm | lia]. }
  destruct rest' as [|t1 r1].
  - eexists. repeat split; reflexivity.
  - assert (Hgt : Qgtb (avgConfidence m) (avgConfidence t1) = true).
    { apply Qgtb_true. apply Hrest. now left. }
    rewrite Hgt. eexists. repeat split; reflexivity.
Qed.
End VoterLevels.

(** ** Voter: the empty input and the third level *)

Section VoterResults.
Import Voter.

(** The two samples of the design document: a clear majority, and a tie on
    count settled by the mean confidence. *)
Example vote_majority_sample :
  option_map (fun r => (winner r, method r))
             (vote [ [ mkCandidate txtA (3#4); mkCandidate txtA (1#2); mkCandidate txtB 1 ];
                     [ mkCandidate txtA (1#4) ] ])
  = Some (txtA, frequency).
Proof. vm_compute. reflexivity. Qed.

Example vote_tie_sample :
  option_map (fun r => (winner r, method r))
             (vote [ [ mkCandidate txtA (1#2); mkCandidate txtB (3#4) ];
                     [ mkCandidate txtA (1#4); mkCandidate txtB (3#4) ] ])
  = Some (txtB, confidence).
Proof. vm_compute. reflexivity. Qed.

(** C9. When the input has no crop, or only crops without candidates, [vote]
    returns (and does not throw) the empty result: empty winner, confidence
    0, method [frequency], empty tally and empty candidate list. *)
Theorem vote_empty_input :
  forall candidates : list (list OCRCandidate),
    Forall (fun crop => crop = []) candidates ->
    vote candidates = Some (mkResult [] 0 [] frequency []).
Proof.
  intros candidates H. unfold vote.
  destruct (Nat.eqb (length candidates) 0); [reflexivity|].
  assert (Hflat : concat candidates = []).
  { induction H as [|crop r Hc _ IH]; simpl; [reflexivity|]. now rewrite Hc, IH. }
  rewrite Hflat. reflexivity.
Qed.

Lemma vote_empty_input_witness :
  vote [] = Some (mkResult [] 0 [] frequency [])
  /\ vote [[]; []] = Some (mkResult [] 0 [] frequency []).
Proof.
  split.
  - apply (vote_empty_input []). constructor.
  - apply (vote_empty_input [[]; []]). repeat constructor.
Defined.

(** C1, at [lowMeanHighMax]: the three texts are tied on count and "A" and
    "B" are tied on the best mean confidence, so the third level decides; the
    winner is "C", whose mean confidence is below theirs, because the last
    sort runs over every text tied on count. *)
Theorem vote_third_level_lets_lower_mean_win :
  exists (r : VoteResult) (a c : TallyEntry),
    vote lowMeanHighMax = Some r
    /\ winner r = txtC /\ method r = tiebreak /\ rconfidence r == 9 # 16
    /\ In a (rcandidates r) /\ ttext a = txtA /\ tcount a = 2%nat
    /\ tavgConfidence a == 3 # 4 /\ tmaxConfidence a == 3 # 4
    /\ In c (rcandidates r) /\ ttext c = txtC /\ tcount c = 2%nat
    /\ tavgConfidence c == 9 # 16 /\ tmaxConfidence c == 1.
Proof.
  eexists. exists (mkTally txtA 2 (3 # 4) (3 # 4)), (mkTally txtC 2 (9 # 16) 1).
  split; [vm_compute; reflexivity|]. simpl.
  repeat split; try reflexivity; auto.
Qed.
(** When the third level finds no strictly best reading either, the winner
    is the first of the texts in the order left by the sort on mean
    confidence: here "B", the first-met of the two texts tied on mean, and not
    "A", the first-met of the three texts tied on count and on max. *)
Example vote_third_level_keeps_mean_order :
  exists r : VoteResult,
    vote sameMaxLowMeanFirst = Some r
    /\ winner r = txtB /\ method r = tiebreak /\ rconfidence r == 13 # 16.
Proof.
  eexists. split; [vm_compute; reflexivity|]. simpl. repeat split; reflexivity.
Qed.
End VoterResults.

(** ** TrackerSimple: the matching loop *)

Section Matching.
Import TrackerSimple.
Variables (thr : Q) (b : BBoxArray).

Let iou (t : Track) : Q := calculateIOU64 b (tbbox t).

Lemma status_eqb_eq (s1 s2 : Status) : status_eqb s1 s2 = true <-> s1 = s2.
Proof. destruct s1, s2; simpl; split; intros H; congruence. Qed.

Lemma status_eqb_neq (s1 s2 : Status) : status_eqb s1 s2 = false <-> s1 <> s2.
Proof. destruct s1, s2; simpl; split; intros H; congruence. Qed.



(** Whatever the loop ends with is a track of the map that is not
    finished, or the reference it started with. *)
Lemma findBest_sound (ts : list Track) (i : nat) best (bestIOU : Q) j t :
  fst (findBest thr b ts i best bestIOU) = Some (j, t) ->
  best = Some (j, t) \/
  ((i <= j)%nat /\ nth_error ts (j - i) = Some t /\ status t <> finished).
Proof.
  revert i best bestIOU. induction ts as [|u r IH]; intros i best bestIOU H; simpl in H.
  - now left.
  - destruct (status_eqb (status u) finished) eqn:Ef.
    + apply IH in H. destruct H as [H | (Hle & Hn & Hs)]; [now left | right].
      split; [lia|]. split; [|assumption].
      replace (j - i)%nat with (S (j - S i)) by lia. exact Hn.
    + apply status_eqb_neq in Ef.
      destruct (Qgtb (calculateIOU64 b (tbbox u)) thr && Qgtb (calculateIOU64 b (tbbox u)) bestIOU).
      * apply IH in H. destruct H as [H | (Hle & Hn & Hs)].
        -- inversion H; subst. right. split; [lia|].
           rewrite Nat.sub_diag. simpl. split; [reflexivity | assumption].
        -- right. split; [lia|]. split; [|assumption].
           replace (j - i)%nat with (S (j - S i)) by lia. exact Hn.
      * apply IH in H. destruct H as [H | (Hle & Hn & Hs)]; [now left | right].
        split; [lia|]. split; [|assumption].
        replace (j - i)%nat with (S (j - S i)) by lia. exact Hn.
Qed.
End Matching.


(** ** TrackerSimple: the cycle *)

Section Cycle.
Import TrackerSimple.

Lemma matchLoop_app thr timeMs ts ds1 ds2 :
  matchLoop thr timeMs ts (ds1 ++ ds2)
  = let (ts1, os1) := matchLoop thr timeMs ts ds1 in
    let (ts2, os2) := matchLoop thr timeMs ts1 ds2 in
    (ts2, os1 ++ os2).
Proof.
  revert ts. induction ds1 as [|d r IH]; intros ts; simpl.
  - destruct (matchLoop thr timeMs ts ds2); reflexivity.
  - destruct (matchDetection thr timeMs ts d) as [ts1 o].
    rewrite IH.
    destruct (matchLoop thr timeMs ts1 r) as [ts2 os].
    destruct (matchLoop thr timeMs ts2 ds2); reflexivity.
Qed.


Lemma createLoop_app timeMs ts next os1 os2 :
  createLoop timeMs ts next (os1 ++ os2)
  = let '(ts1, n1, ds1) := createLoop timeMs ts next os1 in
    let '(ts2, n2, ds2) := createLoop timeMs ts1 n1 os2 in
    (ts2, n2, ds1 ++ ds2).
Proof.
  revert ts next. induction os1 as [|[d o] r IH]; intros ts next; simpl.
  - destruct (createLoop timeMs ts next os2) as [[? ?] ?]; reflexivity.
  - destruct o; rewrite IH.
    + destruct (createLoop timeMs ts next r) as [[ts1 n1] ds1].
      destruct (createLoop timeMs ts1 n1 os2) as [[? ?] ?]; reflexivity.
    + destruct (createLoop timeMs ts next r) as [[ts1 n1] ds1].
      destruct (createLoop timeMs ts1 n1 os2) as [[? ?] ?]; reflexivity.
    + destruct (createLoop timeMs _ (N.succ next) r) as [[ts1 n1] ds1].
      destruct (createLoop timeMs ts1 n1 os2) as [[? ?] ?]; reflexivity.
Qed.

(** The counter moves by the number of unmatched detections, and the
    caller's array keeps its length. *)
Lemma createLoop_counter timeMs ts next os :
  snd (fst (createLoop timeMs ts next os)) = (next + N.of_nat (countUnmatched os))%N
  /\ length (snd (createLoop timeMs ts next os)) = length os.
Proof.
  revert ts next. induction os as [|[d o] r IH]; intros ts next; simpl.
  - split; [lia | reflexivity].
  - destruct o.
    + specialize (IH ts next). destruct (createLoop timeMs ts next r) as [[? ?] ?].
      simpl in *. destruct IH; split; lia.
    + specialize (IH ts next). destruct (createLoop timeMs ts next r) as [[? ?] ?].
      simpl in *. destruct IH; split; lia.
    + specialize (IH (map_set (createTrack next d timeMs) ts) (N.succ next)).
      destruct (createLoop timeMs _ (N.succ next) r) as [[? ?] ?].
      simpl in *. destruct IH; split; lia.
Qed.
End Cycle.

(** ** TrackerSimple: identities through the phases of a cycle *)

Section Identities.
Import TrackerSimple.

Lemma markLost_id t : id (markLost t) = id t.
Proof. unfold markLost. destruct (status_eqb (status t) active); reflexivity. Qed.

Lemma markLost_fixed t : status t <> active -> markLost t = t.
Proof.
  intros H. unfold markLost. apply status_eqb_neq in H. now rewrite H.
Qed.

Lemma finishIfLostTooLong_id m timeMs t : id (finishIfLostTooLong m timeMs t) = id t.
Proof.
  unfold finishIfLostTooLong.
  destruct (status_eqb (status t) lost); [|reflexivity].
  destruct (Qgtb _ m); reflexivity.
Qed.

Lemma finishIfLostTooLong_fixed m timeMs t :
  status t <> lost -> finishIfLostTooLong m timeMs t = t.
Proof.
  intros H. unfold finishIfLostTooLong. apply status_eqb_neq in H. now rewrite H.
Qed.

Lemma idsBelow_map next (f : Track -> Track) ts :
  (forall u, id (f u) = id u) -> idsBelow next ts -> idsBelow next (map f ts).
Proof.
  intros Hf H. unfold idsBelow in *. rewrite List.Forall_forall in *.
  intros u Hu. apply in_map_iff in Hu. destruct Hu as (v & <- & Hv).
  rewrite Hf. now apply H.
Qed.

Lemma onlyAs_map tr (f : Track -> Track) ts :
  (forall u, id (f u) = id u) -> f tr = tr -> onlyAs tr ts -> onlyAs tr (map f ts).
Proof.
  intros Hf Htr H u Hu Hid. apply in_map_iff in Hu. destruct Hu as (v & <- & Hv).
  rewrite Hf in Hid. rewrite (H v Hv Hid). exact Htr.
Qed.

Lemma In_modifyAt (f : Track -> Track) i ts u :
  In u (modifyAt i f ts) ->
  In u ts \/ exists v, nth_error ts i = Some v /\ u = f v.
Proof.
  revert i. induction ts as [|t r IH]; intros i H; destruct i as [|j]; simpl in H;
    try contradiction.
  - destruct H as [H | H]; [right | left; now right].
    exists t. split; [reflexivity | now symmetry].
  - destruct H as [H | H]; [left; now left|].
    apply IH in H. destruct H as [H | (v & Hv & Hu)]; [left; now right | right].
    exists v. split; assumption.
Qed.

(** One iteration of the matching loop: identities stay, a finished track
    is neither touched nor handed to a detection. *)
Lemma matchDetection_ids thr timeMs ts d next :
  idsBelow next ts -> idsBelow next (fst (matchDetection thr timeMs ts d)).
Proof.
  intros H. unfold matchDetection.
  destruct (dtype d); [exact H|].
  destruct (fst (findBest thr (bbox d) ts 0 None 0)) as [[i track]|]; [|exact H].
  simpl. unfold idsBelow in *. rewrite List.Forall_forall in *.
  intros u Hu. apply In_modifyAt in Hu.
  destruct Hu as [Hu | (v & Hv & ->)]; [now apply H|].
  simpl. apply H. eapply nth_error_In; eassumption.
Qed.

Lemma matchDetection_onlyAs thr timeMs ts d tr :
  status tr = finished -> onlyAs tr ts ->
  onlyAs tr (fst (matchDetection thr timeMs ts d))
  /\ snd (matchDetection thr timeMs ts d) <> Matched (id tr).
Proof.
  intros Hfin H. unfold matchDetection.
  destruct (dtype d); [split; [exact H | discriminate]|].
  destruct (fst (findBest thr (bbox d) ts 0 None 0)) as [[i track]|] eqn:E;
    [|split; [exact H | discriminate]].
  apply findBest_sound in E. destruct E as [E | (_ & Hn & Hs)]; [discriminate|].
  rewrite Nat.sub_0_r in Hn. simpl. split.
  - intros u Hu Hid. apply In_modifyAt in Hu.
    destruct Hu as [Hu | (v & Hv & ->)]; [now apply H|].
    simpl in Hid. exfalso. apply Hs.
    assert (v = track) by congruence. subst v.
    rewrite (H track (nth_error_In _ _ Hn) Hid). exact Hfin.
  - intros Heq. inversion Heq as [Hid]. apply Hs.
    rewrite (H track (nth_error_In _ _ Hn) Hid). exact Hfin.
Qed.

Lemma matchLoop_ids thr timeMs ds ts next :
  idsBelow next ts -> idsBelow next (fst (matchLoop thr timeMs ts ds)).
Proof.
  revert ts. induction ds as [|d r IH]; intros ts H; simpl; [exact H|].
  pose proof (matchDetection_ids thr timeMs ts d next H) as H1.
  destruct (matchDetection thr timeMs ts d) as [ts1 o]. simpl in H1.
  specialize (IH ts1 H1). destruct (matchLoop thr timeMs ts1 r). exact IH.
Qed.

Lemma matchLoop_onlyAs thr timeMs ds ts tr :
  status tr = finished -> onlyAs tr ts ->
  onlyAs tr (fst (matchLoop thr timeMs ts ds))
  /\ forall d o, In (d, o) (snd (matchLoop thr timeMs ts ds)) -> o <> Matched (id tr).
Proof.
  intros Hfin. revert ts. induction ds as [|d r IH]; intros ts H; simpl.
  - split; [exact H | intros ? ? []].
  - destruct (matchDetection_onlyAs thr timeMs ts d tr Hfin H) as [H1 H2].
    destruct (matchDetection thr timeMs ts d) as [ts1 o]. simpl in H1, H2.
    destruct (IH ts1 H1) as [H3 H4]. destruct (matchLoop thr timeMs ts1 r) as [ts2 os].
    simpl in *. split; [exact H3|].
    intros d' o' [Heq | Hin]; [inversion Heq; now subst | eapply H4; eassumption].
Qed.

Lemma In_map_set t ts u : In u (map_set t ts) -> u = t \/ In u ts.
Proof.
  induction ts as [|v r IH]; simpl.
  - intros [H | []]. now left.
  - destruct (N.eqb (id v) (id t)); simpl.
    + intros [H | H]; [now left | right; now right].
    + intros [H | H]; [right; now left|].
      apply IH in H. destruct H; [now left | right; now right].
Qed.

Lemma map_set_In t ts : In t (map_set t ts).
Proof.
  induction ts as [|v r IH]; simpl; [now left|].
  destruct (N.eqb (id v) (id t)); simpl; [now left | now right].
Qed.

Lemma map_set_keeps t ts u : In u ts -> id u <> id t -> In u (map_set t ts).
Proof.
  induction ts as [|v r IH]; simpl; [intros []|].
  intros [-> | H] Hne.
  - destruct (N.eqb (id u) (id t)) eqn:E; [apply N.eqb_eq in E; contradiction | now left].
  - destruct (N.eqb (id v) (id t)); simpl; right; [assumption | now apply IH].
Qed.

(** The creation loop: identities stay below the counter, which only
    grows; a track whose identity the counter has passed is left alone. *)
Lemma createLoop_ids timeMs os ts next :
  idsBelow next ts ->
  idsBelow (snd (fst (createLoop timeMs ts next os))) (fst (fst (createLoop timeMs ts next os)))
  /\ (next <= snd (fst (createLoop timeMs ts next os)))%N.
Proof.
  revert ts next. induction os as [|[d o] r IH]; intros ts next H; simpl.
  - split; [exact H | lia].
  - destruct o.
    + specialize (IH ts next H). destruct (createLoop timeMs ts next r) as [[? ?] ?]. exact IH.
    + specialize (IH ts next H). destruct (createLoop timeMs ts next r) as [[? ?] ?]. exact IH.
    + assert (H1 : idsBelow (N.succ next) (map_set (createTrack next d timeMs) ts)).
      { unfold idsBelow in *. rewrite List.Forall_forall in *. intros u Hu.
        apply In_map_set in Hu. destruct Hu as [-> | Hu]; [simpl; lia|].
        specialize (H u Hu). simpl in H. lia. }
      specialize (IH _ _ H1).
      destruct (createLoop timeMs _ (N.succ next) r) as [[? ?] ?].
      simpl in *. destruct IH. split; [assumption | lia].
Qed.

Lemma createLoop_onlyAs timeMs os ts next tr :
  (id tr < next)%N -> onlyAs tr ts ->
  onlyAs tr (fst (fst (createLoop timeMs ts next os))).
Proof.
  revert ts next. induction os as [|[d o] r IH]; intros ts next Hlt H; simpl.
  - exact H.
  - destruct o.
    + specialize (IH ts next Hlt H). destruct (createLoop timeMs ts next r) as [[? ?] ?]. exact IH.
    + specialize (IH ts next Hlt H). destruct (createLoop timeMs ts next r) as [[? ?] ?]. exact IH.
    + assert (H1 : onlyAs tr (map_set (createTrack next d timeMs) ts)).
      { intros u Hu Hid. apply In_map_set in Hu. destruct Hu as [-> | Hu]; [|now apply H].
        simpl in Hid. lia. }
      assert (Hlt1 : (id tr < N.succ next)%N) by lia.
      specialize (IH _ _ Hlt1 H1).
      destruct (createLoop timeMs _ (N.succ next) r) as [[? ?] ?]. exact IH.
Qed.

Lemma createLoop_keeps timeMs os ts next tr :
  (id tr < next)%N -> In tr ts ->
  In tr (fst (fst (createLoop timeMs ts next os))).
Proof.
  revert ts next. induction os as [|[d o] r IH]; intros ts next Hlt H; simpl.
  - exact H.
  - destruct o.
    + specialize (IH ts next Hlt H). destruct (createLoop timeMs ts next r) as [[? ?] ?]. exact IH.
    + specialize (IH ts next Hlt H). destruct (createLoop timeMs ts next r) as [[? ?] ?]. exact IH.
    + assert (H1 : In tr (map_set (createTrack next d timeMs) ts)).
      { apply map_set_keeps; [exact H | simpl; lia]. }
      assert (Hlt1 : (id tr < N.succ next)%N) by lia.
      specialize (IH _ _ Hlt1 H1).
      destruct (createLoop timeMs _ (N.succ next) r) as [[? ?] ?]. exact IH.
Qed.

Lemma In_fold_delete (dl ts : list Track) u :
  In u (fold_left (fun m t => map_delete (id t) m) dl ts)
  <-> In u ts /\ forall t, In t dl -> id t <> id u.
Proof.
  revert ts. induction dl as [|t r IH]; intros ts; simpl.
  - split; [intros H; split; [exact H | intros ? []] | intros [H _]; exact H].
  - rewrite IH. unfold map_delete. rewrite filter_In, negb_true_iff, N.eqb_neq.
    split.
    + intros [[H1 H2] H3]. split; [exact H1|].
      intros t' [<- | Ht']; [congruence | now apply H3].
    + intros [H1 H2]. split; [split; [exact H1|] | intros t' Ht'; apply H2; now right].
      intros Heq. apply (H2 t); [now left | now symmetry].
Qed.

Lemma handleLostTracks_sub m timeMs ts u :
  In u (handleLostTracks m timeMs ts) -> In u (map (finishIfLostTooLong m timeMs) ts).
Proof.
  unfold handleLostTracks. destruct (Nat.ltb 10 _); [|auto].
  rewrite In_fold_delete. now intros [H _].
Qed.

Lemma handleLostTracks_ids m timeMs ts next :
  idsBelow next ts -> idsBelow next (handleLostTracks m timeMs ts).
Proof.
  intros H.
  pose proof (idsBelow_map next _ ts (finishIfLostTooLong_id m timeMs) H) as H1.
  unfold idsBelow in *. rewrite List.Forall_forall in *.
  intros u Hu. apply H1. eapply handleLostTracks_sub; eassumption.
Qed.

Lemma handleLostTracks_onlyAs m timeMs ts tr :
  status tr <> lost -> onlyAs tr ts -> onlyAs tr (handleLostTracks m timeMs ts).
Proof.
  intros Hs H u Hu. apply handleLostTracks_sub in Hu. revert u Hu.
  apply onlyAs_map; [apply finishIfLostTooLong_id | now apply finishIfLostTooLong_fixed | exact H].
Qed.

(** A track that is active when the ageing pass runs, and is the only one
    of its identity, stays in the map. *)
Lemma handleLostTracks_keeps m timeMs ts tr :
  status tr = active -> onlyAs tr ts -> In tr ts -> In tr (handleLostTracks m timeMs ts).
Proof.
  intros Hs Honly Hin.
  assert (Hfix : finishIfLostTooLong m timeMs tr = tr)
    by (apply finishIfLostTooLong_fixed; congruence).
  assert (Hin1 : In tr (map (finishIfLostTooLong m timeMs) ts))
    by (rewrite <- Hfix; now apply in_map).
  unfold handleLostTracks. destruct (Nat.ltb 10 _); [|exact Hin1].
  apply In_fold_delete. split; [exact Hin1|].
  intros t Ht Hid. apply skipn_In in Ht. apply js_sort_In in Ht.
  apply filter_In in Ht. destruct Ht as [Ht Hf]. apply status_eqb_eq in Hf.
  assert (Honly1 : onlyAs tr (map (finishIfLostTooLong m timeMs) ts)).
  { apply onlyAs_map; [apply finishIfLostTooLong_id | exact Hfix | exact Honly]. }
  rewrite (Honly1 t Ht Hid) in Hf. congruence.
Qed.
End Identities.

(** ** TrackerSimple: a whole cycle and runs of cycles *)

Section Runs.
Import TrackerSimple.

Lemma update_unfold T dets timeMs :
  update T dets timeMs
  = let ts1 := fst (matchPhase T dets timeMs) in
    let os := snd (matchPhase T dets timeMs) in
    let created := createLoop timeMs ts1 (nextTrackId T) os in
    let ts3 := handleLostTracks (maxLostFrames T) timeMs (fst (fst created)) in
    (mkTracker ts3 (snd (fst created)) (iouThreshold T) (maxLostFrames T)
               (minDetections T) (N.succ (frameCount T)),
     snd created, getActiveTracks ts3).
Proof.
  unfold update. destruct (matchPhase T dets timeMs) as [ts1 os]. simpl.
  destruct (createLoop timeMs ts1 (nextTrackId T) os) as [[ts2 next] stamped].
  reflexivity.
Qed.

Lemma matchPhase_ids T dets timeMs :
  idsBelow (nextTrackId T) (tracks T) ->
  idsBelow (nextTrackId T) (fst (matchPhase T dets timeMs)).
Proof.
  intros H. unfold matchPhase. apply matchLoop_ids.
  apply idsBelow_map; [apply markLost_id | exact H].
Qed.

Lemma update_ids T dets timeMs :
  idsBelow (nextTrackId T) (tracks T) ->
  let T' := fst (fst (update T dets timeMs)) in
  idsBelow (nextTrackId T') (tracks T') /\ (nextTrackId T <= nextTrackId T')%N.
Proof.
  intros H. rewrite update_unfold. simpl.
  pose proof (matchPhase_ids T dets timeMs H) as H1.
  destruct (createLoop_ids timeMs (snd (matchPhase T dets timeMs)) _ _ H1) as [H2 H3].
  split; [now apply handleLostTracks_ids | exact H3].
Qed.

Lemma update_config T dets timeMs :
  iouThreshold (fst (fst (update T dets timeMs))) = iouThreshold T
  /\ maxLostFrames (fst (fst (update T dets timeMs))) = maxLostFrames T.
Proof. rewrite update_unfold. simpl. split; reflexivity. Qed.

Lemma run_app T c1 c2 : run T (c1 ++ c2) = run (run T c1) c2.
Proof. unfold run. apply fold_left_app. Qed.

Lemma run_ids cycles T :
  idsBelow (nextTrackId T) (tracks T) ->
  idsBelow (nextTrackId (run T cycles)) (tracks (run T cycles))
  /\ (nextTrackId T <= nextTrackId (run T cycles))%N.
Proof.
  revert T. induction cycles as [|[dets timeMs] r IH]; intros T H; simpl.
  - split; [exact H | lia].
  - destruct (update_ids T dets timeMs H) as [H1 H2].
    destruct (IH _ H1) as [H3 H4]. split; [exact H3 | simpl in *; lia].
Qed.

Lemma create_ids iou maxLost minDet cycles :
  let T := run (create iou maxLost minDet) cycles in
  idsBelow (nextTrackId T) (tracks T).
Proof. apply run_ids. constructor. Qed.

(** The detections keep their places in the outcome list, and a plate is
    never skipped. *)
Lemma matchLoop_outcomes thr timeMs ds ts :
  map fst (snd (matchLoop thr timeMs ts ds)) = ds
  /\ forall d o, In (d, o) (snd (matchLoop thr timeMs ts ds)) ->
                 dtype d = plate -> o <> Skipped.
Proof.
  revert ts. induction ds as [|d r IH]; intros ts; simpl.
  - split; [reflexivity | intros ? ? []].
  - destruct (matchDetection thr timeMs ts d) as [ts1 o] eqn:E.
    specialize (IH ts1). destruct (matchLoop thr timeMs ts1 r) as [ts2 os].
    simpl in *. destruct IH as [IH1 IH2]. split; [now rewrite IH1|].
    intros d' o' [Heq | Hin] Hp; [|eapply IH2; eassumption].
    inversion Heq; subst d' o'. unfold matchDetection in E. rewrite Hp in E.
    destruct (fst (findBest thr (bbox d) ts 0 None 0)) as [[i track]|];
      inversion E; discriminate.
Qed.

Lemma createLoop_stamp timeMs ts next os1 d o os2 :
  nth_error (snd (createLoop timeMs ts next (os1 ++ (d, o) :: os2))) (length os1)
  = Some (stampedAs next os1 d o).
Proof.
  rewrite createLoop_app.
  destruct (createLoop_counter timeMs ts next os1) as [Hn Hl].
  destruct (createLoop timeMs ts next os1) as [[ts1 n1] ds1]. simpl in Hn, Hl.
  assert (Hhd : exists ts2 n2 ds2,
             createLoop timeMs ts1 n1 ((d, o) :: os2)
             = (ts2, n2, stampedAs next os1 d o :: ds2)).
  { simpl. subst n1. destruct o.
    - destruct (createLoop timeMs ts1 _ os2) as [[ts2 n2] ds2]. now eexists _, _, _.
    - destruct (createLoop timeMs ts1 _ os2) as [[ts2 n2] ds2]. now eexists _, _, _.
    - destruct (createLoop timeMs _ (N.succ _) os2) as [[ts2 n2] ds2]. now eexists _, _, _. }
  destruct Hhd as (ts2 & n2 & ds2 & ->). simpl.
  rewrite nth_error_app2 by lia. rewrite <- Hl, Nat.sub_diag. reflexivity.
Qed.

(** An unmatched detection gets a track of its own, the only one of its
    identity. *)
Lemma createLoop_creates timeMs ts next os1 d os2 :
  idsBelow next ts ->
  let k := (next + N.of_nat (countUnmatched os1))%N in
  let created := createLoop timeMs ts next (os1 ++ (d, Unmatched) :: os2) in
  In (createTrack k d timeMs) (fst (fst created))
  /\ onlyAs (createTrack k d timeMs) (fst (fst created))
  /\ (k < snd (fst created))%N.
Proof.
  intros H k created. subst created. rewrite createLoop_app.
  destruct (createLoop_counter timeMs ts next os1) as [Hn _].
  destruct (createLoop_ids timeMs os1 ts next H) as [Hids _].
  destruct (createLoop timeMs ts next os1) as [[ts1 n1] ds1]. simpl in Hn, Hids.
  fold k in Hn. subst n1. simpl.
  set (new := createTrack k d timeMs).
  assert (Hin : In new (map_set new ts1)) by apply map_set_In.
  assert (Honly : onlyAs new (map_set new ts1)).
  { intros u Hu Hid. apply In_map_set in Hu. destruct Hu as [Hu | Hu]; [exact Hu|].
    unfold idsBelow in Hids. rewrite List.Forall_forall in Hids.
    specialize (Hids u Hu). simpl in Hids, Hid. lia. }
  assert (Hlt : (id new < N.succ k)%N) by (simpl; lia).
  pose proof (createLoop_keeps timeMs os2 _ _ new Hlt Hin) as H1.
  pose proof (createLoop_onlyAs timeMs os2 _ _ new Hlt Honly) as H2.
  destruct (createLoop_ids timeMs os2 (map_set new ts1) (N.succ k)) as [_ H3].
  { unfold idsBelow in *. rewrite List.Forall_forall in *. intros u Hu.
    apply In_map_set in Hu. destruct Hu as [-> | Hu]; [simpl; lia|].
    specialize (Hids u Hu). simpl in Hids. lia. }
  destruct (createLoop timeMs (map_set new ts1) (N.succ k) os2) as [[ts2 n2] ds2].
  simpl in *. split; [exact H1|]. split; [exact H2 | lia].
Qed.
End Runs.

(** ** TrackerSimple: the keys of the map are distinct *)

Section Keys.
Import TrackerSimple.

Lemma NoDup_map_filter {A B : Type} (g : A -> B) (p : A -> bool) (l : list A) :
  List.NoDup (map g l) -> List.NoDup (map g (List.filter p l)).
Proof.
  induction l as [|x r IH]; simpl; intros H; [constructor|].
  inversion H as [|? ? Hnin Hr]; subst.
  destruct (p x); simpl; [|now apply IH].
  constructor; [|now apply IH].
  intros Hin. apply Hnin. apply in_map_iff in Hin. destruct Hin as (y & Hy & Hin).
  apply filter_In in Hin. destruct Hin as [Hin _].
  apply in_map_iff. now exists y.
Qed.

Lemma NoDup_onlyAs ts tr : List.NoDup (map id ts) -> In tr ts -> onlyAs tr ts.
Proof.
  induction ts as [|t r IH]; simpl; intros Hnd Hin; [contradiction|].
  inversion Hnd as [|? ? Hnin Hr]; subst.
  intros u [<- | Hu] Hid.
  - destruct Hin as [Hin | Hin]; [exact Hin|].
    exfalso. apply Hnin. rewrite Hid. now apply in_map.
  - destruct Hin as [-> | Hin]; [|now apply IH].
    exfalso. apply Hnin. rewrite <- Hid. now apply in_map.
Qed.

Lemma map_id_ext (f : Track -> Track) ts :
  (forall u, id (f u) = id u) -> map id (map f ts) = map id ts.
Proof.
  intros Hf. rewrite map_map. apply map_ext. exact Hf.
Qed.

Lemma map_id_modifyAt (f : Track -> Track) i ts :
  (forall u, id (f u) = id u) -> map id (modifyAt i f ts) = map id ts.
Proof.
  intros Hf. revert i. induction ts as [|t r IH]; intros i; destruct i as [|j]; simpl;
    try reflexivity.
  - now rewrite Hf.
  - now rewrite IH.
Qed.

Lemma matchLoop_keys thr timeMs ds ts :
  map id (fst (matchLoop thr timeMs ts ds)) = map id ts.
Proof.
  revert ts. induction ds as [|d r IH]; intros ts; simpl; [reflexivity|].
  assert (H1 : map id (fst (matchDetection thr timeMs ts d)) = map id ts).
  { unfold matchDetection. destruct (dtype d); [reflexivity|].
    destruct (fst (findBest thr (bbox d) ts 0 None 0)) as [[i track]|]; [|reflexivity].
    simpl. now apply map_id_modifyAt. }
  destruct (matchDetection thr timeMs ts d) as [ts1 o]. simpl in H1.
  specialize (IH ts1). destruct (matchLoop thr timeMs ts1 r) as [ts2 os].
  simpl in *. congruence.
Qed.

Lemma map_set_fresh t ts :
  (forall u, In u ts -> id u <> id t) -> map_set t ts = ts ++ [t].
Proof.
  induction ts as [|v r IH]; simpl; intros H; [reflexivity|].
  destruct (N.eqb (id v) (id t)) eqn:E.
  - apply N.eqb_eq in E. exfalso. apply (H v); [now left | exact E].
  - rewrite IH; [reflexivity|]. intros u Hu. apply H. now right.
Qed.

Lemma createLoop_keys timeMs os ts next :
  idsBelow next ts -> List.NoDup (map id ts) ->
  List.NoDup (map id (fst (fst (createLoop timeMs ts next os)))).
Proof.
  revert ts next. induction os as [|[d o] r IH]; intros ts next Hids Hnd; simpl.
  - exact Hnd.
  - destruct o.
    + specialize (IH ts next Hids Hnd). destruct (createLoop timeMs ts next r) as [[? ?] ?].
      exact IH.
    + specialize (IH ts next Hids Hnd). destruct (createLoop timeMs ts next r) as [[? ?] ?].
      exact IH.
    + unfold idsBelow in Hids. rewrite List.Forall_forall in Hids.
      assert (Hfresh : forall u, In u ts -> id u <> id (createTrack next d timeMs)).
      { intros u Hu. specialize (Hids u Hu). simpl in *. lia. }
      assert (H1 : idsBelow (N.succ next) (map_set (createTrack next d timeMs) ts)).
      { unfold idsBelow. rewrite List.Forall_forall. intros u Hu.
        apply In_map_set in Hu. destruct Hu as [-> | Hu]; [simpl; lia|].
        specialize (Hids u Hu). simpl in Hids. lia. }
      assert (H2 : List.NoDup (map id (map_set (createTrack next d timeMs) ts))).
      { rewrite (map_set_fresh _ _ Hfresh), map_app. simpl.
        apply List.NoDup_app; [exact Hnd | repeat constructor; intros [] |].
        intros x Hx [<- | []]. apply in_map_iff in Hx. destruct Hx as (u & Hu & Hin).
        specialize (Hids u Hin). simpl in Hids. lia. }
      specialize (IH _ _ H1 H2).
      destruct (createLoop timeMs _ (N.succ next) r) as [[? ?] ?]. exact IH.
Qed.

Lemma fold_delete_keys (dl ts : list Track) :
  List.NoDup (map id ts) ->
  List.NoDup (map id (fold_left (fun m t => map_delete (id t) m) dl ts)).
Proof.
  revert ts. induction dl as [|t r IH]; intros ts H; simpl; [exact H|].
  apply IH. unfold map_delete. now apply NoDup_map_filter.
Qed.

Lemma handleLostTracks_keys m timeMs ts :
  List.NoDup (map id ts) -> List.NoDup (map id (handleLostTracks m timeMs ts)).
Proof.
  intros H.
  assert (H1 : List.NoDup (map id (map (finishIfLostTooLong m timeMs) ts))).
  { rewrite map_id_ext; [exact H | apply finishIfLostTooLong_id]. }
  unfold handleLostTracks. destruct (Nat.ltb 10 _); [|exact H1].
  now apply fold_delete_keys.
Qed.

Lemma update_keys T dets timeMs :
  idsBelow (nextTrackId T) (tracks T) -> List.NoDup (map id (tracks T)) ->
  List.NoDup (map id (tracks (fst (fst (update T dets timeMs))))).
Proof.
  intros Hids Hnd. rewrite update_unfold. simpl.
  apply handleLostTracks_keys. apply createLoop_keys.
  - now apply matchPhase_ids.
  - unfold matchPhase. rewrite matchLoop_keys, map_id_ext; [exact Hnd | apply markLost_id].
Qed.

Lemma run_keys cycles T :
  idsBelow (nextTrackId T) (tracks T) -> List.NoDup (map id (tracks T)) ->
  List.NoDup (map id (tracks (run T cycles))).
Proof.
  revert T. induction cycles as [|[dets timeMs] r IH]; intros T Hids Hnd; simpl.
  - exact Hnd.
  - apply IH; [apply update_ids; exact Hids | now apply update_keys].
Qed.

Lemma create_keys iou maxLost minDet cycles :
  List.NoDup (map id (tracks (run (create iou maxLost minDet) cycles))).
Proof. apply run_keys; constructor. Qed.
End Keys.

(** ** TrackerSimple: matching a detection *)

Section TrackerMatching.
Import TrackerSimple.


Lemma matchPhase_split T before d after timeMs :
  exists os2,
    snd (matchPhase T (before ++ d :: after) timeMs)
    = snd (matchPhase T before timeMs)
      ++ (d, snd (matchDetection (iouThreshold T) timeMs (fst (matchPhase T before timeMs)) d))
      :: os2.
Proof.
  unfold matchPhase. rewrite matchLoop_app.
  destruct (matchLoop (iouThreshold T) timeMs (map markLost (tracks T)) before) as [S os].
  simpl. destruct (matchDetection (iouThreshold T) timeMs S d) as [S1 o].
  destruct (matchLoop (iouThreshold T) timeMs S1 after) as [S2 os2]. simpl.
  now exists os2.
Qed.




End TrackerMatching.

(** ** TrackerSimple: finished tracks and returned tracks *)

Section Finished.
Import TrackerSimple.

Lemma update_counter T dets timeMs :
  (nextTrackId T <= nextTrackId (trackerAfter T dets timeMs))%N.
Proof.
  unfold trackerAfter. rewrite update_unfold. simpl.
  destruct (createLoop_counter timeMs (fst (matchPhase T dets timeMs)) (nextTrackId T)
              (snd (matchPhase T dets timeMs))) as [-> _].
  lia.
Qed.

(** One cycle leaves a finished track alone and hands its identity to no
    plate detection. *)
Lemma update_finished tr T dets timeMs :
  status tr = finished -> (id tr < nextTrackId T)%N -> onlyAs tr (tracks T) ->
  onlyAs tr (tracks (trackerAfter T dets timeMs))
  /\ forall i d, nth_error dets i = Some d -> dtype d = plate ->
                 exists k, nth_error (stampedBy T dets timeMs) i = Some (stamp k d)
                           /\ k <> id tr.
Proof.
  intros Hfin Hlt Honly.
  assert (Honly0 : onlyAs tr (map markLost (tracks T))).
  { apply onlyAs_map; [apply markLost_id | apply markLost_fixed; congruence | exact Honly]. }
  destruct (matchLoop_onlyAs (iouThreshold T) timeMs dets _ tr Hfin Honly0) as [Honly1 Hout].
  fold (matchPhase T dets timeMs) in Honly1, Hout.
  unfold trackerAfter, stampedBy. rewrite update_unfold. simpl. split.
  - apply handleLostTracks_onlyAs; [congruence|]. now apply createLoop_onlyAs.
  - intros i d Hi Hp.
    destruct (matchLoop_outcomes (iouThreshold T) timeMs dets (map markLost (tracks T)))
      as [Hfst Hplate].
    fold (matchPhase T dets timeMs) in Hfst, Hplate.
    rewrite <- Hfst in Hi. rewrite nth_error_map in Hi.
    destruct (nth_error (snd (matchPhase T dets timeMs)) i) as [[d' o]|] eqn:E;
      [|discriminate].
    simpl in Hi. inversion Hi; subst d'.
    pose proof (nth_error_In _ _ E) as Hin.
    apply nth_error_split in E. destruct E as (os1 & os2 & Hos & Hlen).
    rewrite Hos, <- Hlen, createLoop_stamp.
    destruct o as [|j|]; simpl.
    + exfalso. now apply (Hplate d Skipped Hin Hp).
    + exists j. split; [reflexivity|]. intros ->. now apply (Hout d _ Hin).
    + eexists. split; [reflexivity | lia].
Qed.

Lemma run_finished tr cycles T :
  status tr = finished -> (id tr < nextTrackId T)%N -> onlyAs tr (tracks T) ->
  onlyAs tr (tracks (run T cycles)) /\ (id tr < nextTrackId (run T cycles))%N.
Proof.
  intros Hfin. revert T. induction cycles as [|[dets timeMs] r IH]; intros T Hlt Honly; simpl.
  - split; assumption.
  - apply IH.
    + pose proof (update_counter T dets timeMs). unfold trackerAfter in *. lia.
    + now apply (update_finished tr T dets timeMs).
Qed.

(** C4. Once a track of the tracker is finished, every later state of the
    tracker holds it unchanged under its identity, or not at all: it is never
    active or lost again; and no plate detection of a later cycle is stamped
    with its identity. *)
Theorem finished_track_never_regresses :
  forall (iou maxLost minDet : option Q) (cycles1 cycles2 : list (list Detection * Q))
         (tr : Track),
    let T1 := run (create iou maxLost minDet) cycles1 in
    In tr (tracks T1) ->
    status tr = finished ->
    (forall tr', In tr' (tracks (run T1 cycles2)) -> id tr' = id tr -> tr' = tr)
    /\
    (forall pre dets timeMs post i d,
        cycles2 = pre ++ (dets, timeMs) :: post ->
        nth_error dets i = Some d -> dtype d = plate ->
        exists k, nth_error (stampedBy (run T1 pre) dets timeMs) i = Some (stamp k d)
                  /\ k <> id tr).
Proof.
  intros iou maxLost minDet cycles1 cycles2 tr T1 Hin Hfin.
  assert (Honly : onlyAs tr (tracks T1))
    by (apply NoDup_onlyAs; [apply create_keys | exact Hin]).
  assert (Hlt : (id tr < nextTrackId T1)%N).
  { pose proof (create_ids iou maxLost minDet cycles1) as H. simpl in H.
    unfold idsBelow in H. rewrite List.Forall_forall in H. now apply H. }
  split.
  - apply (run_finished tr cycles2 T1 Hfin Hlt Honly).
  - intros pre dets timeMs post i d _ Hi Hp.
    destruct (run_finished tr pre T1 Hfin Hlt Honly) as [Honly1 Hlt1].
    now apply (update_finished tr (run T1 pre) dets timeMs Hfin Hlt1 Honly1).
Qed.

Lemma finished_track_never_regresses_witness :
  (forall tr', In tr' (tracks (run (run (create None None None) seenThenGone)
                                   [([detA'], 1033)])) ->
               id tr' = 1%N -> tr' = finishedTrack1)
  /\ exists k, nth_error (stampedBy (run (create None None None) seenThenGone)
                                    [detA'] 1033) 0 = Some (stamp k detA')
               /\ k <> 1%N.
Proof.
  destruct (finished_track_never_regresses None None None seenThenGone
              [([detA'], 1033)] finishedTrack1) as [Hsame Hstamp].
  - vm_compute. now left.
  - reflexivity.
  - split; [exact Hsame|].
    apply (Hstamp [] [detA'] 1033 [] 0%nat detA'); reflexivity.
Defined.

(** C10. The list a cycle returns is the list of the tracks of the map that
    are active after the cycle, in map order; a track that the map holds as
    lost or finished is not in it. *)
Theorem update_returns_active_tracks :
  forall (T : Tracker) (dets : list Detection) (timeMs : Q) (tr : Track),
    let T' := trackerAfter T dets timeMs in
    let returned := returnedBy T dets timeMs in
    returned = getActiveTracks (tracks T')
    /\ (In tr returned <-> In tr (tracks T') /\ status tr = active)
    /\ (In tr (tracks T') -> status tr = lost \/ status tr = finished -> ~ In tr returned).
Proof.
  intros T dets timeMs tr T' returned.
  assert (Hret : returned = getActiveTracks (tracks T')).
  { subst returned T'. unfold returnedBy, trackerAfter. rewrite update_unfold. reflexivity. }
  assert (Hiff : In tr returned <-> In tr (tracks T') /\ status tr = active).
  { rewrite Hret. unfold getActiveTracks. rewrite filter_In, status_eqb_eq. reflexivity. }
  split; [exact Hret|]. split; [exact Hiff|].
  intros _ Hs Hin. apply Hiff in Hin. destruct Hin as [_ Ha].
  destruct Hs as [Hs | Hs]; congruence.
Qed.

Lemma update_returns_active_tracks_witness :
  returnedBy threeStatuses [detMid] 500 = [activeTrack3]
  /\ In finishedTrack1 (tracks (trackerAfter threeStatuses [detMid] 500))
  /\ ~ In finishedTrack1 (returnedBy threeStatuses [detMid] 500)
  /\ In lostTrack2 (tracks (trackerAfter threeStatuses [detMid] 500))
  /\ ~ In lostTrack2 (returnedBy threeStatuses [detMid] 500).
Proof.
  destruct (update_returns_active_tracks threeStatuses [detMid] 500 finishedTrack1)
    as (Hret & _ & Hfin).
  destruct (update_returns_active_tracks threeStatuses [detMid] 500 lostTrack2)
    as (_ & _ & Hlost).
  assert (H1 : In finishedTrack1 (tracks (trackerAfter threeStatuses [detMid] 500)))
    by (vm_compute; left; reflexivity).
  assert (H2 : In lostTrack2 (tracks (trackerAfter threeStatuses [detMid] 500)))
    by (vm_compute; right; left; reflexivity).
  split; [rewrite Hret; vm_compute; reflexivity|].
  split; [exact H1|]. split; [exact (Hfin H1 (or_intror eq_refl))|].
  split; [exact H2|]. exact (Hlost H2 (or_introl eq_refl)).
Defined.
End Finished.

(** ** SessionManager *)

Section SessionFacts.
Import SessionManager.

(** C3, at [filled] and [overfed]: the twentieth crop finalizes the session
    of track 1 with end time 19; the next update for the same identity finds
    the session in the map and writes to it all the same: it is still
    finalized, but its end time is now 20 and it holds 21 crops, one more than
    [maxSessionFrames]. *)
Theorem update_writes_to_finalized_session :
  exists s s' : Session,
    getSession filled 1%N = Some s
    /\ status s = finalized /\ endMs s = numOfNat 19 /\ length (crops s) = 20%nat
    /\ overfed = update filled track1 TrackerSimple.detA (numOfNat 20) (Some (cropAt 20))
    /\ getSession overfed 1%N = Some s'
    /\ status s' = finalized /\ endMs s' = numOfNat 20
    /\ crops s' = crops s ++ [cropAt 20]
    /\ maxSessionFrames overfed == 20.
Proof.
  destruct (getSession filled 1%N) as [s|] eqn:E; [|vm_compute in E; discriminate].
  destruct (getSession overfed 1%N) as [s'|] eqn:E'; [|vm_compute in E'; discriminate].
  exists s, s'.
  assert (Hs : getSession filled 1%N = Some s) by exact E.
  assert (Hs' : getSession overfed 1%N = Some s') by exact E'.
  vm_compute in E. vm_compute in E'.
  inversion E as [Es]. inversion E' as [Es'].
  repeat split; reflexivity.
Qed.

(** C5. Finalizing an active session that holds fewer crops than
    [minSessionFrames] returns [null] and removes the session from the map;
    the other sessions are untouched, so the call finalizes nothing: every
    session that is finalized afterwards was so before. The same holds when
    the attempt comes from [handleTrackLost]. *)
Theorem finalizeSession_discards_short_session :
  forall (M : Manager) (k : N) (session : Session) (reason : Reason),
    sessions M !! k = Some session ->
    status session = active ->
    numOfNat (length (crops session)) < minSessionFrames M ->
    let M' := fst (finalizeSession M k reason) in
    snd (finalizeSession M k reason) = None
    /\ getSession M' k = None
    /\ sessions M' = delete k (sessions M)
    /\ (forall k', k' <> k -> getSession M' k' = getSession M k')
    /\ (forall k' s', getSession M' k' = Some s' -> status s' = finalized ->
                      getSession M k' = Some s')
    /\ (forall lastSeen now,
           disappearThreshold M <= now - lastSeen ->
           handleTrackLost M k lastSeen now = M').
Proof.
  intros M k session reason Hk Hact Hlt M'.
  assert (Hfin : forall r, finalizeSession M k r
                           = (withSessions M (delete k (sessions M)), None)).
  { intros r. unfold finalizeSession. rewrite Hk. unfold isActive. rewrite Hact. simpl.
    apply Qgtb_true in Hlt. now rewrite Hlt. }
  subst M'. rewrite Hfin. simpl. unfold getSession. simpl.
  split; [reflexivity|]. split; [apply lookup_delete_eq|]. split; [reflexivity|].
  split; [intros k' Hne; now apply lookup_delete_ne|].
  split.
  - intros k' s' Hs' _. destruct (decide (k' = k)) as [->|Hne].
    + rewrite lookup_delete_eq in Hs'. discriminate.
    + rewrite lookup_delete_ne in Hs' by congruence. exact Hs'.
  - intros lastSeen now Hgone. unfold handleTrackLost. rewrite Hk.
    unfold isActive. rewrite Hact. simpl.
    apply Qle_bool_iff in Hgone. rewrite Hgone. now rewrite Hfin.
Qed.

Lemma finalizeSession_discards_short_session_witness :
  snd (finalizeSession oneCrop 1%N requested) = None
  /\ getSession (fst (finalizeSession oneCrop 1%N requested)) 1%N = None
  /\ handleTrackLost oneCrop 1%N 0 5000 = fst (finalizeSession oneCrop 1%N requested).
Proof.
  destruct (finalizeSession_discards_short_session oneCrop 1%N oneCropSession requested)
    as (Hnull & Hgone & _ & _ & _ & Hlost).
  - reflexivity.
  - reflexivity.
  - vm_compute. reflexivity.
  - split; [exact Hnull|]. split; [exact Hgone|].
    apply Hlost. vm_compute. discriminate.
Defined.
End SessionFacts.

(** ** Validator *)

Section ValidatorFacts.
Import Validator.

Lemma trimStart_blank (s : jsstring) :
  Forall (fun c => isWhiteSpace c = true) s -> trimStart s = [].
Proof.
  induction 1 as [|c r Hc _ IH]; simpl; [reflexivity|]. now rewrite Hc.
Qed.

Lemma trimStart_keeps (s : jsstring) (c : N) :
  In c s -> isWhiteSpace c = false -> In c (trimStart s).
Proof.
  induction s as [|x r IH]; simpl; [intros []|].
  intros [-> | Hin] Hc.
  - rewrite Hc. now left.
  - destruct (isWhiteSpace x); [now apply IH | now right].
Qed.

Lemma trim_keeps (s : jsstring) (c : N) :
  In c s -> isWhiteSpace c = false -> In c (trim s).
Proof.
  intros Hin Hc. unfold trim. apply in_rev. rewrite rev_involutive.
  apply trimStart_keeps; [|exact Hc]. apply -> in_rev.
  now apply trimStart_keeps.
Qed.

Lemma bengali_not_blank (c : N) : isBengaliChar [c] = true -> isWhiteSpace c = false.
Proof.
  unfold isBengaliChar, isWhiteSpace, charCodeAt0. simpl.
  rewrite andb_true_iff, !N.leb_le. intros [H1 H2].
  repeat match goal with
         | |- context [N.eqb c ?n] =>
             let E := fresh in destruct (N.eqb_spec c n) as [E|E]; [lia|]
         | |- context [N.leb ?a ?b] =>
             let E := fresh in destruct (N.leb_spec a b) as [E|E]; try lia
         end; reflexivity.
Qed.

(** The strict sample of the design document. *)
Example validatePlate_strict_sample :
  let result := validatePlate (create None None None) strictSample in
  valid result = true /\ mode result = strict.
Proof. vm_compute. split; reflexivity. Qed.

(** C8. An empty string, or one made of white space only, is invalid with
    the empty-text reason alone, whatever the rules and whether or not the
    fallback is enabled; mode and warnings are the initial ones. *)
Theorem validatePlate_blank :
  forall (V : Validator) (plate : jsstring),
    Forall (fun c => isWhiteSpace c = true) plate ->
    validatePlate V plate = mkValidation false strict plate [EmptyOrNullPlateText] [] None.
Proof.
  intros V plate H. unfold validatePlate, trim.
  rewrite (trimStart_blank plate H). simpl.
  now rewrite orb_true_r.
Qed.

Lemma validatePlate_blank_witness :
  validatePlate (create None None None) []
  = mkValidation false strict [] [EmptyOrNullPlateText] [] None
  /\ validatePlate (setDemoFallback (create None None None) false) [32%N; 9%N; 12288%N]
     = mkValidation false strict [32%N; 9%N; 12288%N] [EmptyOrNullPlateText] [] None.
Proof.
  split.
  - apply (validatePlate_blank (create None None None) []). constructor.
  - apply (validatePlate_blank (setDemoFallback (create None None None) false)
                               [32%N; 9%N; 12288%N]).
    repeat constructor.
Defined.

Lemma split_without_separator (sep : N) (s : jsstring) :
  existsb (N.eqb sep) s = false -> split sep s = [s].
Proof.
  induction s as [|c r IH]; simpl; [reflexivity|].
  rewrite orb_false_iff. intros [Hc Hr].
  rewrite N.eqb_sym, Hc, (IH Hr). reflexivity.
Qed.

Lemma strict_fails_without_hyphen (rules : ValidationRules) (plate : jsstring) :
  existsb (N.eqb hyphen) plate = false ->
  pvalid (validateStrictFormat rules plate) = false.
Proof.
  intros H. unfold validateStrictFormat. now rewrite (split_without_separator _ _ H).
Qed.

(** C7. With the fallback enabled and the strict pass failed, a text of 3 to
    20 units with at least two Bengali ones is valid in fallback mode, with
    the three warnings that say that the strict format was bypassed; when it
    is longer than 10 units and has neither a hyphen nor a space, the
    missing-separator note is recorded among the reasons of this valid
    result. *)
Theorem validatePlate_fallback_missing_separator :
  forall (V : Validator) (plate : jsstring),
    demoFallbackEnabled V = true ->
    pvalid (validateStrictFormat (strictRules V) plate) = false ->
    (3 <= length plate <= 20)%nat ->
    (2 <= length (List.filter (fun c => isBengaliChar [c]) plate))%nat ->
    let result := validatePlate V plate in
    valid result = true
    /\ mode result = fallback
    /\ warnings result
       = [StrictFormatNotRecognized; UsingDemoFallback; ProductionRequiresStrict]
    /\ ((10 < length plate)%nat -> ~ In hyphen plate -> ~ In space plate ->
        In LongPlatesShouldContainSeparators (reasons result)).
Proof.
  intros V plate Hfb Hstrict [Hlo Hhi] Hbn result.
  assert (Hlen0 : Nat.eqb (length plate) 0 = false) by (apply Nat.eqb_neq; lia).
  assert (Htrim : Nat.eqb (length (trim plate)) 0 = false).
  { destruct (List.filter (fun c => isBengaliChar [c]) plate) as [|c r] eqn:E;
      [simpl in Hbn; lia|].
    assert (Hc : In c (List.filter (fun c => isBengaliChar [c]) plate))
      by (rewrite E; now left).
    apply filter_In in Hc. destruct Hc as [Hin Hb].
    pose proof (trim_keeps plate c Hin (bengali_not_blank c Hb)) as Hk.
    destruct (trim plate); [contradiction | reflexivity]. }
  assert (Hout : lengthOutside 3 20 plate = false).
  { unfold lengthOutside. apply orb_false_iff. split; apply Nat.ltb_ge; lia. }
  assert (Hcount : Nat.ltb (length (List.filter (fun c => isBengaliChar [c]) plate)) 2 = false)
    by (apply Nat.ltb_ge; lia).
  subst result. unfold validatePlate.
  rewrite Hlen0, Htrim, Hstrict, Hfb. simpl.
  unfold validateFallbackFormat. rewrite Hout, Hcount. simpl.
  repeat (split; [reflexivity|]).
  intros Hlong Hh Hs.
  assert (Hnh : existsb (N.eqb hyphen) plate = false).
  { apply not_true_is_false. intros Hex. apply existsb_exists in Hex.
    destruct Hex as (x & Hx & Heq). apply N.eqb_eq in Heq. subst x. contradiction. }
  assert (Hns : existsb (N.eqb space) plate = false).
  { apply not_true_is_false. intros Hex. apply existsb_exists in Hex.
    destruct Hex as (x & Hx & Heq). apply N.eqb_eq in Heq. subst x. contradiction. }
  rewrite Hnh, Hns. simpl.
  assert (Hl : Nat.ltb 10 (length plate) = true) by (apply Nat.ltb_lt; lia).
  rewrite Hl. simpl. now left.
Qed.

Lemma validatePlate_fallback_missing_separator_witness :
  let result := validatePlate (create None None None) longUnseparated in
  valid result = true
  /\ mode result = fallback
  /\ warnings result = [StrictFormatNotRecognized; UsingDemoFallback; ProductionRequiresStrict]
  /\ In LongPlatesShouldContainSeparators (reasons result).
Proof.
  destruct (validatePlate_fallback_missing_separator (create None None None) longUnseparated)
    as (Hv & Hm & Hw & Hr).
  - reflexivity.
  - reflexivity.
  - simpl. lia.
  - simpl. lia.
  - intros result. split; [exact Hv|]. split; [exact Hm|]. split; [exact Hw|].
    apply Hr.
    + simpl. lia.
    + vm_compute. intuition discriminate.
    + vm_compute. intuition discriminate.
Defined.
End ValidatorFacts.

(** ** Deduplicator *)

Section DeduplicatorFacts.
Import Deduplicator.

Lemma direction_eqb_eq (a b : Direction) : direction_eqb a b = true <-> a = b.
Proof. destruct a, b; simpl; split; intros H; congruence. Qed.

Lemma inWindow_within D newEvent event :
  inWindow D newEvent event = true <-> withinWindow D newEvent event.
Proof.
  unfold inWindow, withinWindow, gap.
  destruct (direction_eqb (status event) (status newEvent)) eqn:E.
  - apply direction_eqb_eq in E. rewrite Qle_bool_iff. intuition congruence.
  - assert (Hne : status event <> status newEvent).
    { intros Heq. apply direction_eqb_eq in Heq. congruence. }
    rewrite Qle_bool_iff. intuition congruence.
Qed.

Lemma inWindow_outside D newEvent event :
  inWindow D newEvent event = false <-> outsideWindow D newEvent event.
Proof.
  split.
  - intros H. unfold inWindow in H. unfold outsideWindow, gap.
    destruct (direction_eqb (status event) (status newEvent)) eqn:E.
    + apply direction_eqb_eq in E. left. split; [exact E|].
      apply Qnot_le_lt. intros Hle. apply Qle_bool_iff in Hle. congruence.
    + right. split; [intros Heq; apply direction_eqb_eq in Heq; congruence|].
      apply Qnot_le_lt. intros Hle. apply Qle_bool_iff in Hle. congruence.
  - intros H. apply not_true_is_false. intros Hin. apply inWindow_within in Hin.
    unfold withinWindow, outsideWindow in *.
    destruct H as [[H1 H2] | [H1 H2]], Hin as [[H3 H4] | [H3 H4]];
      try contradiction; exact (Qlt_not_le _ _ H2 H4).
Qed.

(** The first entry of the history that has the plate of the new event and
    is within its window is the one [find] returns. *)
Lemma first_match D newEvent pre h post :
  plate h = plate newEvent ->
  inWindow D newEvent h = true ->
  exists p,
    find (fun event => str_eqb (plate event) (plate newEvent))
         (List.filter (inWindow D newEvent) (pre ++ h :: post)) = Some p
    /\ In p (pre ++ [h]) /\ plate p = plate newEvent /\ inWindow D newEvent p = true
    /\ ((forall q, In q pre -> plate q = plate newEvent -> inWindow D newEvent q = false)
        -> p = h).
Proof.
  intros Hp Hw. induction pre as [|q r IH]; simpl.
  - rewrite Hw. simpl. pose proof Hp as Hb. apply str_eqb_eq in Hb. rewrite Hb.
    exists h. split; [reflexivity|]. split; [now left|]. split; [exact Hp|].
    split; [exact Hw|]. reflexivity.
  - destruct IH as (p & Hfind & Hin & Hpp & Hpw & Hfirst).
    destruct (inWindow D newEvent q) eqn:Eq; simpl.
    + destruct (str_eqb (plate q) (plate newEvent)) eqn:Es.
      * exists q. apply str_eqb_eq in Es.
        split; [reflexivity|]. split; [now left|]. split; [exact Es|]. split; [exact Eq|].
        intros Hnone. specialize (Hnone q (or_introl eq_refl) Es). congruence.
      * exists p. split; [exact Hfind|]. split; [now right|]. split; [exact Hpp|].
        split; [exact Hpw|]. intros Hnone. apply Hfirst.
        intros q' Hq'. apply Hnone. now right.
    + exists p. split; [exact Hfind|]. split; [now right|]. split; [exact Hpp|].
      split; [exact Hpw|]. intros Hnone. apply Hfirst.
      intros q' Hq'. apply Hnone. now right.
Qed.

Lemma no_match D newEvent history :
  (forall h, In h history -> plate h = plate newEvent -> inWindow D newEvent h = false) ->
  find (fun event => str_eqb (plate event) (plate newEvent))
       (List.filter (inWindow D newEvent) history) = None.
Proof.
  intros H. destruct (find _ _) as [p|] eqn:E; [|reflexivity].
  apply find_some in E. destruct E as [Hin Hp].
  apply filter_In in Hin. destruct Hin as [Hin Hw]. apply str_eqb_eq in Hp.
  rewrite (H p Hin Hp) in Hw. discriminate.
Qed.

(** The first history event with the plate of the new event that is within
    its window is the one [find] returns: the history splits at it, and no
    event before it qualifies. *)
Lemma first_match_split D newEvent history h :
  In h history ->
  plate h = plate newEvent ->
  inWindow D newEvent h = true ->
  exists pre p post,
    history = pre ++ p :: post
    /\ find (fun event => str_eqb (plate event) (plate newEvent))
            (List.filter (inWindow D newEvent) history) = Some p
    /\ plate p = plate newEvent /\ inWindow D newEvent p = true
    /\ (forall q, In q pre -> plate q = plate newEvent -> inWindow D newEvent q = false).
Proof.
  induction history as [|x r IH]; intros Hin Hp Hw; [destruct Hin|].
  destruct (inWindow D newEvent x) eqn:Ew.
  - destruct (str_eqb (plate x) (plate newEvent)) eqn:Es.
    + exists [], x, r. simpl. rewrite Ew. simpl. rewrite Es.
      apply str_eqb_eq in Es. repeat split; auto. intros q [].
    + assert (Hr : In h r).
      { destruct Hin as [<- | Hin]; [|exact Hin]. apply str_eqb_eq in Hp. congruence. }
      destruct (IH Hr Hp Hw) as (pre & p & post & -> & Hfind & Hpp & Hpw & Hnone).
      exists (x :: pre), p, post. simpl. rewrite Ew. simpl. rewrite Es.
      repeat split; auto.
      intros q [<- | Hq] Hqp; [|now apply Hnone].
      apply str_eqb_eq in Hqp. congruence.
  - assert (Hr : In h r).
    { destruct Hin as [<- | Hin]; [congruence | exact Hin]. }
    destruct (IH Hr Hp Hw) as (pre & p & post & -> & Hfind & Hpp & Hpw & Hnone).
    exists (x :: pre), p, post. simpl. rewrite Ew.
    repeat split; auto.
    intros q [<- | Hq] Hqp; [exact Ew | now apply Hnone].
Qed.

(** C6 as stated fails in two places. The candidate [evtAgain] has the
    plate of the history event [evtExit], the directions are opposite and the
    timestamps are four minutes apart, more than the opposite-direction
    window; yet it is a duplicate, of [evtEntry] (the history is the one the
    deduplicator built from the first two events). And the candidate
    [evtLate] has the plate and the direction of the history event [evtExit],
    five minutes after it by the timestamps, within the same-direction window;
    it is a duplicate, but its [timeDiff] is not these five minutes: it is the
    1500 ms between the two positions in the video. *)
Lemma opposite_window_and_elapsed_gap_fail :
  ~ (forall (D : Dedup) (newEvent h : ANPREvent),
        In h (recentEvents D) ->
        plate h = plate newEvent ->
        status h <> status newEvent ->
        oppositeDirectionWindow D < gap newEvent h ->
        isDuplicate (snd (checkDuplicate D newEvent)) = false)
  /\ ~ (forall (D : Dedup) (newEvent h : ANPREvent),
           In h (recentEvents D) ->
           plate h = plate newEvent ->
           status h = status newEvent ->
           gap newEvent h <= sameDirectionWindow D ->
           exists elapsed, timeDiff (snd (checkDuplicate D newEvent)) = Some elapsed
                           /\ elapsed == gap newEvent h).
Proof.
  split.
  - intros H. specialize (H afterExitAndEntry evtAgain evtExit).
    assert (Hdup : isDuplicate (snd (checkDuplicate afterExitAndEntry evtAgain)) = true)
      by (vm_compute; reflexivity).
    rewrite H in Hdup; [discriminate | | | |].
    + vm_compute. now left.
    + reflexivity.
    + discriminate.
    + vm_compute. reflexivity.
  - intros H.
    destruct (H (fst (checkDuplicate (create None None None) evtExit)) evtLate evtExit)
      as (elapsed & He & Hgap).
    + vm_compute. now left.
    + reflexivity.
    + reflexivity.
    + vm_compute. discriminate.
    + vm_compute in He. inversion He; subst elapsed. vm_compute in Hgap. discriminate.
Qed.

(** C6, amended. A history event [h] with the plate of the new event that
    is within the window that applies to it ([withinWindow]: the same
    direction and timestamps no further apart than the same-direction window,
    or opposite directions and timestamps no further apart than the
    opposite-direction window) makes the new event a duplicate: the history is left as it is and the result refers to
    the first history event [p] with that plate that is within its own window
    (the history splits at [p], and no event before [p] qualifies), with
    [timeDiff] the distance of the two [timeMs] values; [p] is not after [h],
    and is [h] when no earlier history event qualifies. When every history
    event with that plate is outside its window, the new event is no duplicate
    and is pushed on the history, the oldest entry being dropped when the cap
    is exceeded, so that a history within the cap stays within it. *)
Theorem checkDuplicate_windows :
  forall (D : Dedup) (newEvent : ANPREvent),
    (forall pre h post,
        recentEvents D = pre ++ h :: post ->
        plate h = plate newEvent ->
        withinWindow D newEvent h ->
        exists pre' p post',
          recentEvents D = pre' ++ p :: post'
          /\ plate p = plate newEvent /\ withinWindow D newEvent p
          /\ (forall q, In q pre' -> plate q = plate newEvent -> outsideWindow D newEvent q)
          /\ checkDuplicate D newEvent = (D, duplicateOf newEvent p)
          /\ isDuplicate (duplicateOf newEvent p) = true
          /\ previousEvent (duplicateOf newEvent p) = Some p
          /\ timeDiff (duplicateOf newEvent p) = Some (Qabs (timeMs newEvent - timeMs p))
          /\ In p (pre ++ [h])
          /\ ((forall q, In q pre -> plate q = plate newEvent -> outsideWindow D newEvent q)
              -> p = h))
    /\
    ((forall h, In h (recentEvents D) -> plate h = plate newEvent ->
                outsideWindow D newEvent h) ->
     let pushed := recentEvents D ++ [newEvent] in
     let D' := fst (checkDuplicate D newEvent) in
     snd (checkDuplicate D newEvent) = mkDedupResult false NoDuplicateDetected None None
     /\ (numOfNat (length pushed) <= maxHistorySize D -> recentEvents D' = pushed)
     /\ (maxHistorySize D < numOfNat (length pushed) -> recentEvents D' = tl pushed)
     /\ (numOfNat (length (recentEvents D)) <= maxHistorySize D ->
         numOfNat (length (recentEvents D')) <= maxHistorySize D)).
Proof.
  intros D newEvent. split.
  - intros pre h post Hhist Hp Hwin.
    assert (Hw : inWindow D newEvent h = true) by now apply inWindow_within.
    assert (Hin : In h (recentEvents D)).
    { rewrite Hhist. apply in_or_app. right. now left. }
    destruct (first_match_split D newEvent (recentEvents D) h Hin Hp Hw)
      as (pre' & p & post' & Hsplit & Hfind & Hpp & Hpw & Hnone).
    destruct (first_match D newEvent pre h post Hp Hw)
      as (p0 & Hfind0 & Hin0 & _ & _ & Hfirst).
    rewrite <- Hhist, Hfind in Hfind0. inversion Hfind0; subst p0.
    exists pre', p, post'. split; [exact Hsplit|]. split; [exact Hpp|].
    split; [now apply inWindow_within|].
    split; [intros q Hq Hqp; apply inWindow_outside; now apply Hnone|].
    split; [unfold checkDuplicate; now rewrite Hfind|].
    split; [reflexivity|]. split; [reflexivity|]. split; [reflexivity|].
    split; [exact Hin0|].
    intros Hnone'. apply Hfirst. intros q Hq Hqp. apply inWindow_outside. now apply Hnone'.
  - intros Hnone pushed D'.
    assert (Hfind : find (fun event => str_eqb (plate event) (plate newEvent))
                         (List.filter (inWindow D newEvent) (recentEvents D)) = None).
    { apply no_match. intros h Hh Hhp. apply inWindow_outside. now apply Hnone. }
    subst D'. unfold checkDuplicate. rewrite Hfind. simpl.
    split; [reflexivity|]. unfold addToHistory. fold pushed.
    split; [|split].
    + intros Hle. apply Qgtb_false in Hle. now rewrite Hle.
    + intros Hgt. apply Qgtb_true in Hgt. now rewrite Hgt.
    + intros Hle. destruct (Qgtb (numOfNat (length pushed)) (maxHistorySize D)) eqn:E; simpl.
      * subst pushed. destruct (recentEvents D) as [|e r]; simpl in *.
        -- exact Hle.
        -- rewrite length_app. simpl. rewrite Nat.add_1_r. exact Hle.
      * now apply Qgtb_false in E.
Qed.

Lemma checkDuplicate_windows_witness :
  checkDuplicate afterExitAndEntry evtAgain
  = (afterExitAndEntry, duplicateOf evtAgain evtEntry)
  /\ snd (checkDuplicate (create None None None) evtExit)
     = mkDedupResult false NoDuplicateDetected None None
  /\ recentEvents (fst (checkDuplicate (create None None None) evtExit)) = [evtExit].
Proof.
  destruct (checkDuplicate_windows afterExitAndEntry evtAgain) as (Hdup & _).
  destruct (checkDuplicate_windows (create None None None) evtExit) as (_ & Hnew).
  split.
  - destruct (Hdup [evtExit] evtEntry [])
      as (pre' & p & post' & _ & _ & _ & _ & Hres & _ & _ & _ & _ & Hfirst).
    + reflexivity.
    + reflexivity.
    + left. split; [reflexivity | vm_compute; discriminate].
    + rewrite Hres. f_equal. f_equal. apply Hfirst.
      intros q [<- | []] _. right. split; [discriminate | vm_compute; reflexivity].
  - destruct Hnew as (Hres & Hpush & _ & _).
    + intros h [].
    + split; [exact Hres|]. apply Hpush. vm_compute. discriminate.
Defined.

(** Two history events can both be within their windows: the result then
    refers to the first of them. *)
Example checkDuplicate_refers_to_first :
  previousEvent (snd (checkDuplicate twoInWindow evtBetween)) = Some evtEntryAt0.
Proof. vm_compute. reflexivity. Qed.
End DeduplicatorFacts.


(** * Further properties *)

(** ** Voter: the tally against the input *)

Section VoterInput.
Import Voter.

Lemma addCandidate_In c m k g' :
  List.NoDup (map fst m) ->
  In (k, g') (addCandidate c m) ->
  (k <> text c /\ In (k, g') m)
  \/ (k = text c /\ exists g, In (k, g) m
                              /\ g' = mkGroup (S (count g)) (confidences g ++ [conf c])
                                              (candidates g ++ [c]))
  \/ (k = text c /\ ~ In k (map fst m) /\ g' = mkGroup 1 [conf c] [c]).
Proof.
  induction m as [|[k0 g0] r IH]; simpl; intros Hnd Hin.
  - destruct Hin as [Heq | []]. inversion Heq; subst. right. right. auto.
  - inversion Hnd as [|? ? Hnin Hr]; subst.
    destruct (str_eqb k0 (text c)) eqn:E.
    + apply str_eqb_eq in E. subst k0. destruct Hin as [Heq | Hin].
      * inversion Heq; subst. right. left. split; [reflexivity|].
        exists g0. split; [now left | reflexivity].
      * left. split; [|now right].
        intros ->. apply Hnin. apply in_map_iff. now exists (text c, g').
    + assert (Hne : k0 <> text c) by (intros Heq; apply str_eqb_eq in Heq; congruence).
      destruct Hin as [Heq | Hin].
      * inversion Heq; subst. left. split; [exact Hne | now left].
      * destruct (IH Hr Hin) as [[H1 H2] | [[H1 (g & H2 & H3)] | (H1 & H2 & H3)]].
        -- left. split; [exact H1 | now right].
        -- right. left. split; [exact H1|]. exists g. split; [now right | exact H3].
        -- right. right. split; [exact H1|]. split; [|exact H3].
           intros [Heq | Hk]; [simpl in Heq; congruence | contradiction].
Qed.

Lemma withText_snoc k seen c :
  withText k (seen ++ [c]) = withText k seen ++ (if str_eqb (text c) k then [c] else []).
Proof.
  unfold withText. rewrite List.filter_app. simpl. now destruct (str_eqb (text c) k).
Qed.

Lemma str_eqb_neq (a b : jsstring) : str_eqb a b = false <-> a <> b.
Proof.
  split.
  - intros H Heq. apply str_eqb_eq in Heq. congruence.
  - intros H. destruct (str_eqb a b) eqn:E; [|reflexivity].
    apply str_eqb_eq in E. contradiction.
Qed.

Lemma grouped_step m seen c :
  grouped m seen -> grouped (addCandidate c m) (seen ++ [c]).
Proof.
  intros (Hnd & Hg & Hall). split; [now apply addCandidate_NoDup|]. split.
  - intros k g' Hin. rewrite withText_snoc.
    destruct (addCandidate_In c m k g' Hnd Hin)
      as [[H1 H2] | [[H1 (g & H2 & H3)] | (H1 & H2 & H3)]].
    + destruct (Hg k g' H2) as (Ha & Hb & Hc & Hd).
      assert (E : str_eqb (text c) k = false) by (apply str_eqb_neq; congruence).
      rewrite E, app_nil_r. auto.
    + destruct (Hg k g H2) as (Ha & Hb & Hc & Hd). subst k g'. simpl.
      assert (E : str_eqb (text c) (text c) = true) by now apply str_eqb_eq.
      rewrite E, Ha. repeat split.
      * rewrite map_app. simpl. now rewrite <- Ha, Hb.
      * rewrite length_app. simpl. rewrite <- Ha, Hc. lia.
      * now destruct (withText (text c) seen).
    + subst k g'. simpl.
      assert (E : str_eqb (text c) (text c) = true) by now apply str_eqb_eq.
      rewrite E.
      assert (Hnone : withText (text c) seen = []).
      { unfold withText. destruct (List.filter _ seen) as [|x r] eqn:Ef; [reflexivity|].
        exfalso. assert (Hx : In x (List.filter (fun c0 => str_eqb (text c0) (text c)) seen))
          by (rewrite Ef; now left).
        apply filter_In in Hx. destruct Hx as [Hx Ht]. apply str_eqb_eq in Ht.
        apply H2. rewrite <- Ht. now apply Hall. }
      rewrite Hnone. simpl. repeat split; discriminate.
  - intros x Hx. apply addCandidate_keys. apply in_app_or in Hx.
    destruct Hx as [Hx | [<- | []]]; [right; now apply Hall | now left].
Qed.

Lemma grouped_fold l m seen :
  grouped m seen -> grouped (fold_left (fun m c => addCandidate c m) l m) (seen ++ l).
Proof.
  revert m seen. induction l as [|c r IH]; intros m seen H; simpl.
  - now rewrite app_nil_r.
  - replace (seen ++ c :: r) with ((seen ++ [c]) ++ r) by (rewrite <- app_assoc; reflexivity).
    apply IH. now apply grouped_step.
Qed.

Lemma groupByText_grouped l : grouped (groupByText l) l.
Proof.
  apply (grouped_fold l [] []). split; [constructor|].
  split; [intros k g [] | intros c []].
Qed.

(** An entry of the tally, from the input. *)
Lemma tally_entry candidates x :
  In x (tally candidates) ->
  let all := concat candidates in
  (exists c, In c all /\ text c = vtext x)
  /\ vcount x = occurrences (vtext x) all
  /\ avgConfidence x = meanConf (vtext x) all
  /\ maxConfidence x = bestConf (vtext x) all.
Proof.
  intros Hx all. unfold tally in Hx. apply in_map_iff in Hx.
  destruct Hx as ([k g] & <- & Hin).
  destruct (groupByText_grouped all) as (_ & Hg & _).
  destruct (Hg k g Hin) as (Ha & Hb & Hc & Hd). simpl.
  unfold occurrences, meanConf, bestConf. rewrite <- Ha, <- Hb. repeat split; auto.
  destruct (Voter.candidates g) as [|c r] eqn:E; [contradiction|].
  exists c. assert (Hc' : In c (withText k all)) by (rewrite <- Ha; now left).
  apply filter_In in Hc'. destruct Hc' as [Hc1 Hc2]. apply str_eqb_eq in Hc2. auto.
Qed.

Lemma tally_has candidates c :
  In c (concat candidates) -> exists x, In x (tally candidates) /\ vtext x = text c.
Proof.
  intros Hc. destruct (groupByText_grouped (concat candidates)) as (_ & _ & Hall).
  specialize (Hall c Hc). apply in_map_iff in Hall. destruct Hall as ([k g] & Hk & Hin).
  simpl in Hk. subst k. exists (toVoteCandidate (text c, g)). split; [|reflexivity].
  unfold tally. apply in_map_iff. now exists (text c, g).
Qed.

Lemma tally_same_text candidates x y :
  In x (tally candidates) -> In y (tally candidates) -> vtext x = vtext y -> x = y.
Proof.
  intros Hx Hy Ht.
  pose proof (tally_texts candidates) as Hk.
  destruct (groupByText_grouped (concat candidates)) as (Hnd & _ & _).
  rewrite <- Hk in Hnd. clear Hk. revert Hx Hy Ht Hnd.
  induction (tally candidates) as [|z r IH]; simpl; [contradiction|].
  intros Hx Hy Ht Hnd. inversion Hnd as [|? ? Hnin Hr]; subst.
  destruct Hx as [-> | Hx], Hy as [-> | Hy]; auto.
  - exfalso. apply Hnin. rewrite Ht. now apply in_map.
  - exfalso. apply Hnin. rewrite <- Ht. now apply in_map.
Qed.
End VoterInput.


(** ** Voter: the result against the input *)

Section VoterExtras.
Import Voter.

Lemma pickWinner_top (l : list VoteCandidate) w m :
  StronglySorted (fun a b => numOfNat (vcount b) <= numOfNat (vcount a)) l ->
  pickWinner l = Some (w, m) ->
  In w l /\ forall x, In x l -> (vcount x <= vcount w)%nat.
Proof.
  intros Hs Hw.
  assert (Hhead : forall v0 r, l = v0 :: r -> forall x, In x l -> (vcount x <= vcount v0)%nat).
  { intros v0 r -> x [<- | Hx]; [lia|].
    inversion Hs as [|? ? _ Hall]; subst. rewrite List.Forall_forall in Hall.
    apply numOfNat_le. now apply Hall. }
  destruct l as [|v0 [|v1 rest]]; [discriminate | |].
  - inversion Hw; subst. split; [now left | now apply (Hhead w [])].
  - unfold pickWinner in Hw.
    destruct (Nat.ltb (vcount v1) (vcount v0)).
    { inversion Hw; subst. split; [now left | now apply (Hhead w (v1 :: rest))]. }
    set (tied := List.filter (fun c => Nat.eqb (vcount c) (vcount v0)) (v0 :: v1 :: rest)) in Hw.
    assert (Htied : forall x, In x (js_sort byAvg tied) ->
                              In x (v0 :: v1 :: rest) /\ vcount x = vcount v0).
    { intros x Hx. apply js_sort_In in Hx. subst tied. apply filter_In in Hx.
      destruct Hx as [Hx Hc]. apply Nat.eqb_eq in Hc. auto. }
    assert (Hok : In w (js_sort byAvg tied)).
    { destruct (js_sort byAvg tied) as [|t0 [|t1 r1]] eqn:E; [discriminate | |].
      - inversion Hw; subst. now left.
      - destruct (Qgtb (avgConfidence t0) (avgConfidence t1)).
        + inversion Hw; subst. now left.
        + destruct (js_sort byMax (t0 :: t1 :: r1)) as [|w' r2] eqn:E2; [discriminate|].
          inversion Hw; subst. apply (js_sort_In byMax). rewrite E2. now left. }
    destruct (Htied w Hok) as [Hin Hc]. split; [exact Hin|].
    intros x Hx. rewrite Hc. now apply (Hhead v0 (v1 :: rest)).
Qed.

(** X1. On an input with at least one candidate [vote] returns a result
    whose winner is the text of a candidate, read at least as often as any
    other text, and whose confidence is the mean of the confidences of the
    candidates that read the winner. *)
Theorem vote_winner_from_input :
  forall input : list (list OCRCandidate),
    concat input <> [] ->
    exists r, vote input = Some r
              /\ (exists c, In c (concat input) /\ text c = winner r)
              /\ rconfidence r = meanConf (winner r) (concat input)
              /\ forall t, (occurrences t (concat input)
                            <= occurrences (winner r) (concat input))%nat.
Proof.
  intros input H. apply tally_nonempty in H. rewrite (vote_unfold _ H).
  destruct (pickWinner_some (js_sort byCount (tally input))) as (w & m & Hw & _);
    [now apply js_sort_nonempty|].
  rewrite Hw. eexists. split; [reflexivity|]. simpl.
  destruct (pickWinner_top _ w m
              (js_sort_sorted (fun c => numOfNat (vcount c)) byCount (fun a b => eq_refl)
                 (tally input)) Hw) as [Hin Htop].
  apply js_sort_In in Hin.
  destruct (tally_entry input w Hin) as (Hc & Hn & Ha & _).
  split; [exact Hc|]. split; [exact Ha|].
  intros t. rewrite <- Hn.
  destruct (withText t (concat input)) as [|c r] eqn:E.
  - unfold occurrences. rewrite E. simpl. lia.
  - assert (Hc' : In c (withText t (concat input))) by (rewrite E; now left).
    apply filter_In in Hc'. destruct Hc' as [Hc1 Hc2]. apply str_eqb_eq in Hc2.
    destruct (tally_has input c Hc1) as (x & Hx & Hxt).
    destruct (tally_entry input x Hx) as (_ & Hxn & _).
    rewrite Hxt, Hc2 in Hxn. rewrite <- Hxn. apply Htop. now apply js_sort_In.
Qed.

Lemma vote_winner_from_input_witness :
  exists r, vote lowMeanHighMax = Some r
            /\ (exists c, In c (concat lowMeanHighMax) /\ text c = winner r)
            /\ rconfidence r = meanConf (winner r) (concat lowMeanHighMax).
Proof.
  destruct (vote_winner_from_input lowMeanHighMax) as (r & Hr & Hc & Ha & _).
  - discriminate.
  - exists r. auto.
Defined.

(** X2. When one text is read strictly more often than every other text of
    the input, it wins by [frequency], with the mean confidence of its
    readings. *)
Theorem vote_strict_majority :
  forall (input : list (list OCRCandidate)) (c0 : OCRCandidate),
    In c0 (concat input) ->
    (forall c, In c (concat input) -> text c <> text c0 ->
               (occurrences (text c) (concat input)
                < occurrences (text c0) (concat input))%nat) ->
    exists r, vote input = Some r
              /\ winner r = text c0 /\ method r = frequency
              /\ rconfidence r = meanConf (text c0) (concat input).
Proof.
  intros input c0 Hc0 Hmax.
  destruct (tally_has input c0 Hc0) as (m & Hm & Hmt).
  destruct (tally_entry input m Hm) as (_ & Hmn & Hma & _).
  destruct (vote_frequency input m Hm) as (r & Hr & Hw & Hmeth & Hconf).
  - intros x Hx Hne.
    destruct (tally_entry input x Hx) as ((c & Hc & Hct) & Hxn & _).
    rewrite Hxn, Hmn, Hmt, <- Hct. apply Hmax; [exact Hc|].
    intros Heq. apply Hne. apply (tally_same_text input); congruence.
  - exists r. rewrite Hw, Hconf, Hma, Hmt. auto.
Qed.

Lemma vote_strict_majority_witness :
  exists r, vote majorityForA = Some r
            /\ winner r = txtA /\ method r = frequency
            /\ rconfidence r = meanConf txtA (concat majorityForA).
Proof.
  apply (vote_strict_majority majorityForA (mkCandidate txtA (3#4))).
  - simpl. now left.
  - intros c Hc Hne. simpl in Hc.
    destruct Hc as [<- | [<- | [<- | [<- | []]]]]; try (now contradiction Hne);
      vm_compute; lia.
Defined.

(** X3. When the highest count is shared and one of the texts that share it
    has a mean confidence strictly above that of the others, it wins by
    [confidence], with that mean confidence. The mean of a text is the one
    the code computes: the sum of its readings in input order, rounded at
    each step, divided by their number ([meanConf]). *)
Theorem vote_tie_on_count :
  forall (input : list (list OCRCandidate)) (c0 c1 : OCRCandidate),
    let all := concat input in
    In c0 all -> In c1 all -> text c1 <> text c0 ->
    occurrences (text c1) all = occurrences (text c0) all ->
    (forall c, In c all -> (occurrences (text c) all <= occurrences (text c0) all)%nat) ->
    (forall c, In c all -> text c <> text c0 ->
               occurrences (text c) all = occurrences (text c0) all ->
               meanConf (text c) all < meanConf (text c0) all) ->
    exists r, vote input = Some r
              /\ winner r = text c0 /\ method r = confidence
              /\ rconfidence r = meanConf (text c0) all.
Proof.
  intros input c0 c1 all Hc0 Hc1 Hne Hsame Hmax Hmean.
  destruct (tally_has input c0 Hc0) as (m & Hm & Hmt).
  destruct (tally_has input c1 Hc1) as (y & Hy & Hyt).
  destruct (tally_entry input m Hm) as (_ & Hmn & Hma & _).
  destruct (tally_entry input y Hy) as (_ & Hyn & _).
  fold all in Hmn, Hma, Hyn.
  destruct (vote_confidence input m y Hm Hy) as (r & Hr & Hw & Hmeth & Hconf).
  - intros ->. congruence.
  - rewrite Hyn, Hmn, Hyt, Hmt. exact Hsame.
  - intros x Hx. destruct (tally_entry input x Hx) as ((c & Hc & Hct) & Hxn & _).
    fold all in Hc, Hxn. rewrite Hxn, Hmn, Hmt, <- Hct. now apply Hmax.
  - intros x Hx Hxm Hxc.
    destruct (tally_entry input x Hx) as ((c & Hc & Hct) & Hxn & Hxa & _).
    fold all in Hc, Hxn, Hxa. rewrite Hxa, Hma, Hmt, <- Hct.
    apply Hmean; [exact Hc | | ].
    + intros Heq. apply Hxm. apply (tally_same_text input); congruence.
    + rewrite Hct, <- Hxn, <- Hmt, <- Hmn. exact Hxc.
  - exists r. rewrite Hw, Hconf, Hma, Hmt. auto.
Qed.

Lemma vote_tie_on_count_witness :
  exists r, vote tieOnCount = Some r
            /\ winner r = txtB /\ method r = confidence
            /\ rconfidence r = meanConf txtB (concat tieOnCount).
Proof.
  apply (vote_tie_on_count tieOnCount (mkCandidate txtB (3#4)) (mkCandidate txtA (1#2))).
  - simpl. auto.
  - simpl. auto.
  - discriminate.
  - reflexivity.
  - intros c Hc. simpl in Hc.
    destruct Hc as [<- | [<- | [<- | [<- | []]]]]; vm_compute; lia.
  - intros c Hc Hne _. simpl in Hc.
    destruct Hc as [<- | [<- | [<- | [<- | []]]]]; try (now contradiction Hne);
      vm_compute; reflexivity.
Defined.

(** The hypotheses of X3 are about the means as the code computes them. On
    [nearTie] the exact sum of the readings of "B" is above that of "A", but
    the sums of the code, rounded at each step, give "A" the higher mean
    (0.20000000000000004 against 0.19999999999999998), and "A" wins. *)
Example vote_near_tie_follows_rounded_means :
  option_map (fun r => (winner r, method r)) (vote nearTie) = Some (txtA, confidence)
  /\ d01 + d02 + d03 < d03 + d02 + d01next
  /\ meanConf txtB (concat nearTie) < meanConf txtA (concat nearTie).
Proof.
  split; [vm_compute; reflexivity|]. split; vm_compute; reflexivity.
Qed.

(** X4. [vote] only looks at the flattened candidates: how they are spread
    over the crops makes no difference, and voting on them is
    [voteSingleCrop] on their concatenation. *)
Theorem vote_ignores_crop_boundaries :
  forall input : list (list OCRCandidate),
    vote input = voteSingleCrop (concat input).
Proof.
  intros input. unfold voteSingleCrop, vote.
  change (concat [concat input]) with (concat input ++ []). rewrite app_nil_r.
  destruct input as [|c r]; [reflexivity|]. reflexivity.
Qed.

Lemma set_fresh {V : Type} (e : jsstring * V) (o : list (jsstring * V)) :
  ~ In (fst e) (map fst o) -> JSObject.set e o = o ++ [e].
Proof.
  induction o as [|p r IH]; simpl; intros Hn; [reflexivity|].
  destruct (str_eqb (fst p) (fst e)) eqn:E.
  - apply str_eqb_eq in E. exfalso. apply Hn. now left.
  - rewrite IH; [reflexivity|]. intros H. apply Hn. now right.
Qed.

Example arrayIndex_samples :
  map JSObject.arrayIndex
      [ [48]; [55]; [48; 55]; [49; 50]; [49; 97]; [];
        [52; 50; 57; 52; 57; 54; 55; 50; 57; 52];
        [52; 50; 57; 52; 57; 54; 55; 50; 57; 53] ]%N
  = [ Some 0; Some 7; None; Some 12; None; None; Some 4294967294; None ]%N.
Proof. vm_compute. reflexivity. Qed.

Example round_samples :
  Binary64.round (1#10) = 3602879701896397 # 36028797018963968
  /\ Binary64.add (Binary64.round (1#10)) (Binary64.round (2#10))
     = 1351079888211149 # 4503599627370496
  /\ Binary64.round (1#2) = 1#2
  /\ Binary64.round (- (1#3)) = - (6004799503160661 # 18014398509481984).
Proof. vm_compute. repeat split; reflexivity. Qed.

(** An object made from entries with distinct keys has these entries as its
    properties, in their order. *)
Lemma fromEntries_NoDup {V : Type} (es : list (jsstring * V)) :
  List.NoDup (map fst es) -> JSObject.fromEntries es = es.
Proof.
  unfold JSObject.fromEntries.
  assert (Hgen : forall o, List.NoDup (map fst (o ++ es)) ->
                           fold_left (fun o e => JSObject.set e o) es o = o ++ es).
  { induction es as [|e r IH]; intros o Hnd; simpl; [now rewrite app_nil_r|].
    rewrite set_fresh.
    - rewrite IH; rewrite <- app_assoc; [reflexivity | exact Hnd].
    - rewrite map_app in Hnd. simpl in Hnd. apply NoDup_remove_2 in Hnd.
      intros H. apply Hnd. apply in_or_app. now left. }
  intros Hnd. apply (Hgen [] Hnd).
Qed.

Lemma filter_partition_perm {A : Type} (f : A -> bool) (l : list A) :
  Permutation (List.filter f l ++ List.filter (fun x => negb (f x)) l) l.
Proof.
  induction l as [|x r IH]; simpl; [constructor|].
  destruct (f x); simpl.
  - now constructor.
  - etransitivity; [symmetry; apply Permutation_middle|]. now constructor.
Qed.

(** The object gives its properties in another order, and gives them all. *)
Lemma entries_perm {V : Type} (o : list (jsstring * V)) :
  Permutation (JSObject.entries o) o.
Proof.
  unfold JSObject.entries. etransitivity; [|apply (filter_partition_perm JSObject.isIndex)].
  apply Permutation_app_tail. apply js_sort_perm.
Qed.

Lemma sorted_tally_keys input :
  List.NoDup (map fst (map (fun c => (vtext c, vcount c)) (js_sort byCount (tally input)))).
Proof.
  rewrite map_map. simpl. eapply Permutation_NoDup.
  - apply Permutation_map. symmetry. apply js_sort_perm.
  - rewrite tally_texts. now destruct (groupByText_grouped (concat input)).
Qed.

Lemma votes_of_result input r :
  vote input = Some r ->
  votes r = JSObject.entries (map (fun c => (vtext c, vcount c))
                                  (js_sort byCount (tally input)))
  /\ rcandidates r
     = map (fun c => mkTally (vtext c) (vcount c) (avgConfidence c) (maxConfidence c))
           (js_sort byCount (tally input)).
Proof.
  intros Hr. destruct (tally input) as [|x l] eqn:E.
  - assert (Hflat : concat input = []).
    { destruct (concat input) eqn:Ec; [reflexivity|]. exfalso.
      assert (Hne : concat input <> []) by (rewrite Ec; discriminate).
      apply tally_nonempty in Hne. contradiction. }
    unfold vote in Hr. rewrite Hflat in Hr. simpl in Hr.
    destruct (Nat.eqb (length input) 0); inversion Hr; split; reflexivity.
  - assert (Hne : tally input <> []) by (rewrite E; discriminate).
    rewrite (vote_unfold _ Hne) in Hr. rewrite <- E.
    destruct (pickWinner (js_sort byCount (tally input))) as [[w m]|]; [|discriminate].
    inversion Hr. unfold mkVoteResult. simpl.
    rewrite (fromEntries_NoDup _ (sorted_tally_keys input)). split; reflexivity.
Qed.

Lemma votes_perm input r :
  vote input = Some r ->
  Permutation (votes r)
              (map (fun c => (vtext c, vcount c)) (js_sort byCount (tally input))).
Proof.
  intros Hr. destruct (votes_of_result input r Hr) as [-> _]. apply entries_perm.
Qed.

(** X5. The votes of a result hold every text of the input once, with the
    number of candidates that read it; the candidate entries of the result
    hold the same texts and counts, the most read first. *)
Theorem vote_tally_counts_input :
  forall (input : list (list OCRCandidate)) (r : VoteResult),
    vote input = Some r ->
    List.NoDup (map fst (votes r))
    /\ (forall t n, In (t, n) (votes r)
                    <-> (1 <= n)%nat /\ n = occurrences t (concat input))
    /\ Permutation (votes r) (map (fun e => (ttext e, tcount e)) (rcandidates r))
    /\ StronglySorted (fun a b => (tcount b <= tcount a)%nat) (rcandidates r).
Proof.
  intros input r Hr. pose proof (votes_perm input r Hr) as Hperm.
  destruct (votes_of_result input r Hr) as [_ Hc].
  split; [|split; [|split]].
  - eapply Permutation_NoDup; [apply Permutation_map; symmetry; exact Hperm|].
    apply sorted_tally_keys.
  - intros t n.
    assert (Hin : In (t, n) (votes r)
                  <-> In (t, n) (map (fun c => (vtext c, vcount c))
                                     (js_sort byCount (tally input)))).
    { split; apply Permutation_in; [exact Hperm | symmetry; exact Hperm]. }
    rewrite Hin, in_map_iff. split.
    + intros (x & Heq & Hx). inversion Heq; subst. apply js_sort_In in Hx.
      destruct (tally_entry input x Hx) as ((c & Hc' & Hct) & Hn & _).
      split; [|exact Hn]. rewrite Hn. unfold occurrences.
      assert (Hin' : In c (withText (vtext x) (concat input))).
      { apply filter_In. split; [exact Hc' | now apply str_eqb_eq]. }
      destruct (withText (vtext x) (concat input)); [contradiction | simpl; lia].
    + intros [Hpos ->].
      destruct (withText t (concat input)) as [|c l] eqn:E;
        [unfold occurrences in Hpos; rewrite E in Hpos; simpl in Hpos; lia|].
      assert (Hc' : In c (withText t (concat input))) by (rewrite E; now left).
      apply filter_In in Hc'. destruct Hc' as [Hc' Hct]. apply str_eqb_eq in Hct.
      destruct (tally_has input c Hc') as (x & Hx & Hxt).
      destruct (tally_entry input x Hx) as (_ & Hn & _).
      exists x. split; [|now apply js_sort_In].
      rewrite Hn, Hxt, Hct. reflexivity.
  - rewrite Hc, map_map. simpl. exact Hperm.
  - rewrite Hc.
    pose proof (js_sort_sorted (fun c => numOfNat (vcount c)) byCount (fun a b => eq_refl)
                  (tally input)) as Hs.
    clear Hc Hperm. generalize dependent (js_sort byCount (tally input)).
    intros l Hs. induction Hs as [|x l Hl IH Hall]; simpl; constructor.
    + exact IH.
    + rewrite List.Forall_forall in *. intros e Hin. apply in_map_iff in Hin.
      destruct Hin as (y & <- & Hy). simpl.
      apply numOfNat_le. now apply Hall.
Qed.

Lemma vote_tally_counts_input_witness :
  exists r, vote majorityForA = Some r
            /\ (In (txtA, 3%nat) (votes r) /\ In (txtB, 1%nat) (votes r))
            /\ List.NoDup (map fst (votes r)).
Proof.
  destruct (vote majorityForA) as [r|] eqn:E; [|vm_compute in E; discriminate].
  destruct (vote_tally_counts_input majorityForA r E) as (Hnd & Hiff & _).
  exists r. split; [reflexivity|]. split; [split|exact Hnd].
  - apply Hiff. vm_compute. split; [lia | reflexivity].
  - apply Hiff. vm_compute. split; [lia | reflexivity].
Defined.

(** A text that is the numeral of an array index comes first in [votes],
    whatever its count: here "7", read once, before "B", read twice, while the
    candidate entries have "B" first. *)
Example votes_lists_index_keys_first :
  option_map (fun r => (votes r, map ttext (rcandidates r))) (vote indexLikeText)
  = Some ([([55%N], 1%nat); (txtB, 2%nat)], [txtB; [55%N]]).
Proof. vm_compute. reflexivity. Qed.

Lemma addCandidate_setAdd c m :
  map fst (addCandidate c m) = setAdd (text c) (map fst m).
Proof.
  unfold setAdd. induction m as [|[k g] r IH]; simpl; [reflexivity|].
  assert (Hsym : str_eqb (text c) k = str_eqb k (text c)).
  { destruct (str_eqb k (text c)) eqn:E.
    - apply str_eqb_eq in E. now apply str_eqb_eq.
    - apply str_eqb_neq in E. apply str_eqb_neq. congruence. }
  rewrite Hsym. destruct (str_eqb k (text c)); simpl; [reflexivity|].
  rewrite IH. now destruct (existsb (str_eqb (text c)) (map fst r)).
Qed.

Lemma groupByText_setOf l : map fst (groupByText l) = setOf (map text l).
Proof.
  unfold groupByText, setOf.
  assert (Hgen : forall m, map fst (fold_left (fun m c => addCandidate c m) l m)
                           = fold_left (fun s x => setAdd x s) (map text l) (map fst m)).
  { induction l as [|c r IH]; intros m; simpl; [reflexivity|].
    now rewrite IH, addCandidate_setAdd. }
  apply (Hgen []).
Qed.

Lemma list_sum_perm (l l' : list nat) : Permutation l l' -> list_sum l = list_sum l'.
Proof.
  induction 1; simpl; lia.
Qed.

Lemma addCandidate_total c m :
  list_sum (map (fun e => count (snd e)) (addCandidate c m))
  = S (list_sum (map (fun e => count (snd e)) m)).
Proof.
  induction m as [|[k g] r IH]; simpl; [reflexivity|].
  destruct (str_eqb k (text c)); simpl; [reflexivity|]. rewrite IH. lia.
Qed.

Lemma groupByText_total l :
  list_sum (map (fun e => count (snd e)) (groupByText l)) = length l.
Proof.
  unfold groupByText.
  assert (Hgen : forall m,
             list_sum (map (fun e => count (snd e))
                           (fold_left (fun m c => addCandidate c m) l m))
             = (list_sum (map (fun e => count (snd e)) m) + length l)%nat).
  { induction l as [|c r IH]; intros m; simpl; [lia|].
    rewrite IH, addCandidate_total. lia. }
  apply (Hgen []).
Qed.

(** X6. The statistics agree with the vote: [uniqueTexts] is the number of
    entries of the tally, and [totalCandidates] is the sum of its counts. *)
Theorem getVotingStatistics_agrees_with_vote :
  forall (input : list (list OCRCandidate)) (r : VoteResult),
    vote input = Some r ->
    uniqueTexts (getVotingStatistics input) = length (rcandidates r)
    /\ totalCandidates (getVotingStatistics input) = list_sum (map snd (votes r)).
Proof.
  intros input r Hr. destruct (votes_of_result input r Hr) as [_ Hc].
  rewrite (list_sum_perm _ _ (Permutation_map snd (votes_perm input r Hr))).
  rewrite Hc, length_map, js_sort_length.
  assert (Hsum : list_sum (map snd (map (fun c => (vtext c, vcount c))
                                        (js_sort byCount (tally input))))
                 = length (concat input)).
  { replace (map snd (map (fun c => (vtext c, vcount c)) (js_sort byCount (tally input))))
      with (map vcount (js_sort byCount (tally input)))
      by (rewrite map_map; apply map_ext; reflexivity).
    rewrite (list_sum_perm _ _ (Permutation_map vcount (js_sort_perm byCount (tally input)))).
    unfold tally. rewrite map_map.
    rewrite <- (groupByText_total (concat input)). f_equal. apply map_ext. now intros [k g]. }
  rewrite Hsum. unfold getVotingStatistics.
  destruct (concat input) as [|c l] eqn:E; simpl.
  - unfold tally. rewrite E. split; reflexivity.
  - split; [|reflexivity].
    unfold tally. rewrite length_map, E.
    rewrite <- (length_map fst (groupByText (c :: l))), groupByText_setOf. reflexivity.
Qed.

Lemma getVotingStatistics_agrees_with_vote_witness :
  exists r, vote majorityForA = Some r
            /\ uniqueTexts (getVotingStatistics majorityForA) = length (rcandidates r)
            /\ totalCandidates (getVotingStatistics majorityForA)
               = list_sum (map snd (votes r)).
Proof.
  destruct (vote majorityForA) as [r|] eqn:E; [|vm_compute in E; discriminate].
  exists r. split; [reflexivity|].
  apply (getVotingStatistics_agrees_with_vote majorityForA r E).
Defined.
End VoterExtras.


(** ** TrackerSimple: identities and retention over runs *)

Section TrackerRetention.
Import TrackerSimple.

Lemma createLoop_In timeMs os ts next u :
  In u (fst (fst (createLoop timeMs ts next os))) -> In u ts \/ (next <= id u)%N.
Proof.
  revert ts next. induction os as [|[d o] r IH]; intros ts next; simpl.
  - now left.
  - destruct o.
    + specialize (IH ts next). destruct (createLoop timeMs ts next r) as [[? ?] ?]. exact IH.
    + specialize (IH ts next). destruct (createLoop timeMs ts next r) as [[? ?] ?]. exact IH.
    + specialize (IH (map_set (createTrack next d timeMs) ts) (N.succ next)).
      destruct (createLoop timeMs _ (N.succ next) r) as [[? ?] ?]. simpl in *.
      intros Hu. destruct (IH Hu) as [Hin | Hge]; [|right; lia].
      apply In_map_set in Hin. destruct Hin as [-> | Hin]; [right; simpl; lia | now left].
Qed.

Lemma update_In_ids T dets timeMs u :
  In u (tracks (trackerAfter T dets timeMs)) ->
  (exists v, In v (tracks T) /\ id v = id u) \/ (nextTrackId T <= id u)%N.
Proof.
  unfold trackerAfter. rewrite update_unfold. simpl. intros Hu.
  apply handleLostTracks_sub in Hu. apply in_map_iff in Hu. destruct Hu as (v & <- & Hv).
  rewrite finishIfLostTooLong_id.
  apply createLoop_In in Hv. destruct Hv as [Hv | Hge]; [left | now right].
  assert (Hid : In (id v) (map id (fst (matchPhase T dets timeMs)))) by now apply in_map.
  unfold matchPhase in Hid.
  rewrite matchLoop_keys, map_id_ext in Hid by apply markLost_id.
  apply in_map_iff in Hid. destruct Hid as (w & Hw & Hin). now exists w.
Qed.

(** X7. Identities are never reused: at any point of a run the tracks of the
    map bear distinct identities, all handed out by the counter, the counter
    never goes back, and a track of a later state bears either the identity of
    a track the map already held or one that had not been handed out. *)
Theorem identities_never_reused :
  forall (iou maxLost minDet : option Q) (cycles1 cycles2 : list (list Detection * Q)),
    let T1 := run (create iou maxLost minDet) cycles1 in
    let T2 := run T1 cycles2 in
    List.NoDup (map id (tracks T2))
    /\ Forall (fun u => (id u < nextTrackId T2)%N) (tracks T2)
    /\ (nextTrackId T1 <= nextTrackId T2)%N
    /\ Forall (fun u => (exists v, In v (tracks T1) /\ id v = id u)
                        \/ (nextTrackId T1 <= id u)%N) (tracks T2).
Proof.
  intros iou maxLost minDet cycles1 cycles2 T1 T2.
  assert (HT2 : T2 = run (create iou maxLost minDet) (cycles1 ++ cycles2))
    by (subst T2 T1; now rewrite run_app).
  split; [rewrite HT2; apply create_keys|].
  split; [rewrite HT2; apply (create_ids iou maxLost minDet (cycles1 ++ cycles2))|].
  pose proof (create_ids iou maxLost minDet cycles1) as Hids. fold T1 in Hids.
  split; [apply (run_ids cycles2 T1 Hids)|].
  subst T2. clear Hids HT2. generalize T1. clear T1.
  induction cycles2 as [|[dets timeMs] r IH]; intros T; simpl.
  - rewrite List.Forall_forall. intros u Hu. left. now exists u.
  - specialize (IH (fst (fst (update T dets timeMs)))).
    rewrite List.Forall_forall in *. intros u Hu.
    pose proof (update_counter T dets timeMs) as Hc. unfold trackerAfter in Hc.
    destruct (IH u Hu) as [(v & Hv & Hid) | Hge]; [|right; lia].
    apply (update_In_ids T dets timeMs) in Hv.
    destruct Hv as [(w & Hw & Hwid) | Hge]; [left | right; lia].
    exists w. split; [exact Hw | congruence].
Qed.

Lemma sorted_split_above {A : Type} (R : A -> A -> Prop) (l1 l2 : list A) :
  StronglySorted R (l1 ++ l2) -> forall a b, In a l1 -> In b l2 -> R a b.
Proof.
  induction l1 as [|x r IH]; simpl; intros Hs a b Ha Hb; [contradiction|].
  inversion Hs as [|? ? Hr Hall]; subst. destruct Ha as [<- | Ha].
  - rewrite List.Forall_forall in Hall. apply Hall. apply in_or_app. now right.
  - now apply IH.
Qed.

Lemma NoDup_ids_tracks (ts : list Track) : List.NoDup (map id ts) -> List.NoDup ts.
Proof. apply NoDup_map_inv. Qed.

Lemma handleLostTracks_kept :
  forall (maxLost timeMs : Q) (ts : list Track),
    List.NoDup (map id ts) ->
    let aged := map (finishIfLostTooLong maxLost timeMs) ts in
    let kept := handleLostTracks maxLost timeMs ts in
    (forall u, In u aged -> status u <> finished -> In u kept)
    /\ (length (List.filter (fun t => status_eqb (status t) finished) kept) <= 10)%nat
    /\ (forall gone u, In gone aged -> ~ In gone kept ->
                       In u kept -> status u = finished ->
                       status gone = finished /\ lastSeen gone <= lastSeen u).
Proof.
  intros maxLost timeMs ts Hnd aged kept.
  assert (Hnd1 : List.NoDup (map id aged)).
  { subst aged. rewrite map_id_ext; [exact Hnd | apply finishIfLostTooLong_id]. }
  assert (Honly : forall u v, In u aged -> In v aged -> id v = id u -> v = u).
  { intros u v Hu Hv Hid. exact (NoDup_onlyAs aged u Hnd1 Hu v Hv Hid). }
  set (fin := List.filter (fun t => status_eqb (status t) finished) aged).
  set (sorted := js_sort byLastSeen fin).
  assert (Hsorted : forall x, In x sorted <-> In x aged /\ status x = finished).
  { intros x. subst sorted fin. rewrite js_sort_In, filter_In, status_eqb_eq. reflexivity. }
  assert (Hkept : kept = if Nat.ltb 10 (length sorted)
                         then fold_left (fun m t => map_delete (id t) m) (skipn 10 sorted) aged
                         else aged) by reflexivity.
  assert (Hsplit : forall x, In x sorted -> In x (firstn 10 sorted) \/ In x (skipn 10 sorted)).
  { intros x Hx. rewrite <- (firstn_skipn 10 sorted) in Hx. now apply in_app_or in Hx. }
  destruct (Nat.ltb 10 (length sorted)) eqn:Elen.
  - assert (Hin : forall x, In x kept <-> In x aged /\ ~ In x (skipn 10 sorted)).
    { intros x. rewrite Hkept, In_fold_delete. split.
      - intros [Hx Hno]. split; [exact Hx|]. intros Hsk. now apply (Hno x Hsk).
      - intros [Hx Hno]. split; [exact Hx|]. intros t Ht Hid. apply Hno.
        assert (Ht' : In t aged) by (apply Hsorted; now apply skipn_In in Ht).
        now rewrite <- (Honly x t Hx Ht' Hid). }
    split; [|split].
    + intros u Hu Hs. apply Hin. split; [exact Hu|]. intros Hsk.
      apply skipn_In, Hsorted in Hsk. now destruct Hsk.
    + assert (Hincl : incl (List.filter (fun t => status_eqb (status t) finished) kept)
                           (firstn 10 sorted)).
      { intros x Hx. apply filter_In in Hx. destruct Hx as [Hx Hs].
        apply status_eqb_eq in Hs. apply Hin in Hx. destruct Hx as [Hx Hno].
        destruct (Hsplit x) as [H1 | H2]; [now apply Hsorted | exact H1 | contradiction]. }
      assert (Hndk : List.NoDup (List.filter (fun t => status_eqb (status t) finished) kept)).
      { apply List.NoDup_filter. apply NoDup_ids_tracks. rewrite Hkept.
        now apply fold_delete_keys. }
      pose proof (NoDup_incl_length Hndk Hincl) as Hle.
      rewrite length_firstn in Hle. lia.
    + intros gone u Hg Hng Hu Hs.
      assert (Hgsk : In gone (skipn 10 sorted)).
      { destruct (in_dec (fun a b : Track => ltac:(repeat decide equality)) gone (skipn 10 sorted))
          as [Hyes | Hno]; [exact Hyes|].
        exfalso. apply Hng. apply Hin. now split. }
      split; [apply skipn_In, Hsorted in Hgsk; now destruct Hgsk|].
      apply Hin in Hu. destruct Hu as [Hu Huno].
      assert (Hufirst : In u (firstn 10 sorted)).
      { destruct (Hsplit u) as [H1 | H2]; [now apply Hsorted | exact H1 | contradiction]. }
      pose proof (js_sort_sorted lastSeen byLastSeen (fun a b => eq_refl) fin) as Hss.
      fold sorted in Hss. rewrite <- (firstn_skipn 10 sorted) in Hss.
      exact (sorted_split_above _ _ _ Hss u gone Hufirst Hgsk).
  - assert (Hle : (length sorted <= 10)%nat) by (apply Nat.ltb_ge in Elen; lia).
    rewrite Hkept. split; [auto|]. split.
    + fold fin. subst sorted. now rewrite js_sort_length in Hle.
    + intros gone u Hg Hng. contradiction.
Qed.



(** X9. However long the run, the map never holds more than ten finished
    tracks. *)
Theorem at_most_ten_finished_tracks :
  forall (iou maxLost minDet : option Q) (cycles : list (list Detection * Q)),
    (length (getFinishedTracks (run (create iou maxLost minDet) cycles)) <= 10)%nat.
Proof.
  intros iou maxLost minDet cycles.
  destruct (rev cycles) as [|[dets timeMs] r] eqn:E.
  - apply (f_equal (@rev _)) in E. rewrite rev_involutive in E. subst cycles.
    simpl. lia.
  - apply (f_equal (@rev _)) in E. rewrite rev_involutive in E. simpl in E. subst cycles.
    rewrite run_app. simpl. set (T := run (create iou maxLost minDet) (rev r)).
    rewrite update_unfold. unfold getFinishedTracks. simpl.
    apply handleLostTracks_kept.
    apply createLoop_keys.
    + apply matchPhase_ids. apply (create_ids iou maxLost minDet (rev r)).
    + unfold matchPhase. rewrite matchLoop_keys, map_id_ext by apply markLost_id.
      apply create_keys.
Qed.
End TrackerRetention.


(** ** TrackerSimple: stamps, histories and empty cycles *)

Section TrackerStamps.
Import TrackerSimple.

Lemma modifyAt_In (f : Track -> Track) i ts v :
  nth_error ts i = Some v -> In (f v) (modifyAt i f ts).
Proof.
  revert i. induction ts as [|t r IH]; intros i H; destruct i as [|j]; simpl in *;
    try discriminate.
  - inversion H; subst. now left.
  - right. now apply IH.
Qed.

Lemma modifyAt_keeps (f : Track -> Track) i ts u :
  In u ts -> In u (modifyAt i f ts) \/ In (f u) (modifyAt i f ts).
Proof.
  revert i. induction ts as [|t r IH]; intros i H; destruct i as [|j]; simpl in *;
    try contradiction.
  - destruct H as [-> | H]; [right; now left | left; now right].
  - destruct H as [-> | H]; [left; now left|].
    destruct (IH j H) as [H1 | H1]; [left | right]; now right.
Qed.

Lemma matchDetection_active thr timeMs ts d k :
  hasActive k ts -> hasActive k (fst (matchDetection thr timeMs ts d)).
Proof.
  intros (u & Hu & Hid & Hs). unfold matchDetection.
  destruct (dtype d); [now exists u|].
  destruct (fst (findBest thr (bbox d) ts 0 None 0)) as [[i track]|]; [|now exists u].
  simpl. destruct (modifyAt_keeps (updateTrack d timeMs) i ts u Hu) as [H | H].
  - now exists u.
  - exists (updateTrack d timeMs u). split; [exact H|]. split; [exact Hid | reflexivity].
Qed.

Lemma matchDetection_matched thr timeMs ts d k :
  snd (matchDetection thr timeMs ts d) = Matched k ->
  hasActive k (fst (matchDetection thr timeMs ts d)).
Proof.
  unfold matchDetection. destruct (dtype d); [discriminate|].
  destruct (fst (findBest thr (bbox d) ts 0 None 0)) as [[i track]|] eqn:E; [|discriminate].
  simpl. intros Hk. inversion Hk; subst.
  apply findBest_sound in E. destruct E as [E | (_ & Hn & _)]; [discriminate|].
  rewrite Nat.sub_0_r in Hn.
  exists (updateTrack d timeMs track). split; [now apply modifyAt_In|]. split; reflexivity.
Qed.

Lemma matchLoop_active thr timeMs ds ts :
  (forall k, hasActive k ts -> hasActive k (fst (matchLoop thr timeMs ts ds)))
  /\ (forall d k, In (d, Matched k) (snd (matchLoop thr timeMs ts ds)) ->
                  hasActive k (fst (matchLoop thr timeMs ts ds))).
Proof.
  revert ts. induction ds as [|d r IH]; intros ts; simpl.
  - split; [auto | intros ? ? []].
  - pose proof (matchDetection_active thr timeMs ts d) as H1.
    pose proof (matchDetection_matched thr timeMs ts d) as H2.
    destruct (matchDetection thr timeMs ts d) as [ts1 o]. simpl in H1, H2.
    destruct (IH ts1) as [IH1 IH2]. destruct (matchLoop thr timeMs ts1 r) as [ts2 os].
    simpl in *. split.
    + intros k Hk. apply IH1. now apply H1.
    + intros d' k [Heq | Hin]; [|now apply (IH2 d')].
      inversion Heq; subst. apply IH1. now apply H2.
Qed.

(** A vehicle is skipped, and only a plate ends up matched or unmatched. *)
Lemma matchLoop_types thr timeMs ds ts d o :
  In (d, o) (snd (matchLoop thr timeMs ts ds)) ->
  (dtype d = vehicle -> o = Skipped) /\ (o <> Skipped -> dtype d = plate).
Proof.
  revert ts. induction ds as [|d0 r IH]; intros ts; simpl; [intros []|].
  destruct (matchDetection thr timeMs ts d0) as [ts1 o0] eqn:E.
  specialize (IH ts1). destruct (matchLoop thr timeMs ts1 r) as [ts2 os]. simpl in *.
  intros [Heq | Hin]; [|now apply IH].
  inversion Heq; subst. unfold matchDetection in E.
  destruct (dtype d) eqn:Ed.
  - inversion E; subst. split; [reflexivity | congruence].
  - split; [discriminate | reflexivity].
Qed.

Lemma hasActive_createLoop timeMs os ts next k :
  idsBelow next ts -> hasActive k ts ->
  hasActive k (fst (fst (createLoop timeMs ts next os))).
Proof.
  intros Hids (u & Hu & Hid & Hs). exists u. split; [|auto].
  apply createLoop_keeps; [|exact Hu].
  unfold idsBelow in Hids. rewrite List.Forall_forall in Hids. now apply Hids.
Qed.

(** X10. A cycle leaves every vehicle detection as it was and stamps every
    plate detection with the identity of a track that is in the returned
    list. *)
Theorem update_stamps_returned_tracks :
  forall (iou maxLost minDet : option Q) (cycles : list (list Detection * Q))
         (dets : list Detection) (timeMs : Q) (i : nat) (d : Detection),
    let T := run (create iou maxLost minDet) cycles in
    nth_error dets i = Some d ->
    (dtype d = vehicle -> nth_error (stampedBy T dets timeMs) i = Some d)
    /\ (dtype d = plate ->
        exists u, In u (returnedBy T dets timeMs)
                  /\ nth_error (stampedBy T dets timeMs) i = Some (stamp (id u) d)).
Proof.
  intros iou maxLost minDet cycles dets timeMs i d T Hi.
  pose proof (create_ids iou maxLost minDet cycles) as Hids. fold T in Hids.
  pose proof (create_keys iou maxLost minDet cycles) as Hkeys. fold T in Hkeys.
  pose proof (matchPhase_ids T dets timeMs Hids) as Hids1.
  assert (Hkeys1 : List.NoDup (map id (fst (matchPhase T dets timeMs)))).
  { unfold matchPhase. now rewrite matchLoop_keys, map_id_ext by apply markLost_id. }
  destruct (matchLoop_outcomes (iouThreshold T) timeMs dets (map markLost (tracks T)))
    as [Hfst Hnoskip].
  destruct (matchLoop_active (iouThreshold T) timeMs dets (map markLost (tracks T)))
    as [_ Hmatched].
  pose proof (matchLoop_types (iouThreshold T) timeMs dets (map markLost (tracks T))) as Htypes.
  fold (matchPhase T dets timeMs) in Hfst, Hnoskip, Hmatched, Htypes.
  rewrite <- Hfst in Hi. rewrite nth_error_map in Hi.
  destruct (nth_error (snd (matchPhase T dets timeMs)) i) as [[d' o]|] eqn:E; [|discriminate].
  simpl in Hi. inversion Hi; subst d'.
  pose proof (nth_error_In _ _ E) as Hin.
  apply nth_error_split in E. destruct E as (os1 & os2 & Hos & Hlen).
  destruct (Htypes d o Hin) as [Hveh Hpl].
  unfold stampedBy, returnedBy. rewrite update_unfold. simpl.
  assert (Hstamp : nth_error (snd (createLoop timeMs (fst (matchPhase T dets timeMs))
                                              (nextTrackId T) (snd (matchPhase T dets timeMs)))) i
                   = Some (stampedAs (nextTrackId T) os1 d o)).
  { rewrite Hos, <- Hlen. apply createLoop_stamp. }
  assert (Hreturn : forall u,
             In u (fst (fst (createLoop timeMs (fst (matchPhase T dets timeMs))
                                        (nextTrackId T) (snd (matchPhase T dets timeMs))))) ->
             status u = active ->
             In u (getActiveTracks
                     (handleLostTracks (maxLostFrames T) timeMs
                        (fst (fst (createLoop timeMs (fst (matchPhase T dets timeMs))
                                              (nextTrackId T)
                                              (snd (matchPhase T dets timeMs)))))))).
  { intros u Hu Hs. unfold getActiveTracks. apply filter_In.
    split; [|now apply status_eqb_eq].
    apply handleLostTracks_keeps; [exact Hs | | exact Hu].
    apply NoDup_onlyAs; [|exact Hu]. now apply createLoop_keys. }
  split.
  - intros Hv. rewrite Hstamp, (Hveh Hv). reflexivity.
  - intros Hp. destruct o as [|j|].
    + exfalso. now apply (Hnoskip d Skipped Hin Hp).
    + destruct (hasActive_createLoop timeMs (snd (matchPhase T dets timeMs)) _ _ j Hids1
                  (Hmatched d j Hin)) as (u & Hu & Hid & Hs).
      exists u. split; [now apply Hreturn|]. rewrite Hstamp. simpl. now rewrite Hid.
    + destruct (createLoop_creates timeMs (fst (matchPhase T dets timeMs)) (nextTrackId T)
                  os1 d os2 Hids1) as (Hnew & _ & _).
      rewrite <- Hos in Hnew.
      eexists. split; [apply Hreturn; [exact Hnew | reflexivity]|].
      rewrite Hstamp. reflexivity.
Qed.

Lemma update_stamps_returned_tracks_witness :
  exists u, In u (returnedBy (run (create None None None) [([detA], 0)]) [detFar; detA'] 33)
            /\ nth_error (stampedBy (run (create None None None) [([detA], 0)])
                                    [detFar; detA'] 33) 1
               = Some (stamp (id u) detA').
Proof.
  destruct (update_stamps_returned_tracks None None None [([detA], 0)] [detFar; detA'] 33
              1%nat detA') as [_ Hplate].
  - reflexivity.
  - apply Hplate. reflexivity.
Defined.

Lemma createLoop_In_new timeMs os ts next u :
  In u (fst (fst (createLoop timeMs ts next os))) ->
  In u ts \/ exists d k, In (d, Unmatched) os /\ u = createTrack k d timeMs.
Proof.
  revert ts next. induction os as [|[d o] r IH]; intros ts next; simpl.
  - now left.
  - destruct o.
    + specialize (IH ts next). destruct (createLoop timeMs ts next r) as [[? ?] ?].
      simpl in *. intros Hu. destruct (IH Hu) as [H | (d' & k' & H1 & H2)]; [now left|].
      right. exists d', k'. split; [now right | exact H2].
    + specialize (IH ts next). destruct (createLoop timeMs ts next r) as [[? ?] ?].
      simpl in *. intros Hu. destruct (IH Hu) as [H | (d' & k' & H1 & H2)]; [now left|].
      right. exists d', k'. split; [now right | exact H2].
    + specialize (IH (map_set (createTrack next d timeMs) ts) (N.succ next)).
      destruct (createLoop timeMs _ (N.succ next) r) as [[? ?] ?]. simpl in *.
      intros Hu. destruct (IH Hu) as [H | (d' & k' & H1 & H2)].
      * apply In_map_set in H. destruct H as [-> | H]; [right | now left].
        exists d, next. split; [now left | reflexivity].
      * right. exists d', k'. split; [now right | exact H2].
Qed.

Lemma boxOfLastPlate_same (t t' : Track) :
  detections t' = detections t -> tbbox t' = tbbox t ->
  boxOfLastPlate t -> boxOfLastPlate t'.
Proof.
  intros Hd Hb (older & c & H). exists older, c. now rewrite Hd, Hb.
Qed.

Lemma matchLoop_boxes thr timeMs ds ts :
  Forall boxOfLastPlate ts -> Forall boxOfLastPlate (fst (matchLoop thr timeMs ts ds)).
Proof.
  revert ts. induction ds as [|d r IH]; intros ts H; simpl; [exact H|].
  assert (H1 : Forall boxOfLastPlate (fst (matchDetection thr timeMs ts d))).
  { unfold matchDetection. destruct (dtype d) eqn:Ed; [exact H|].
    destruct (fst (findBest thr (bbox d) ts 0 None 0)) as [[i track]|]; [|exact H].
    simpl. rewrite List.Forall_forall in *. intros u Hu. apply In_modifyAt in Hu.
    destruct Hu as [Hu | (v & Hv & ->)]; [now apply H|].
    exists (detections v), (conf d). simpl. now rewrite Ed. }
  destruct (matchDetection thr timeMs ts d) as [ts1 o]. simpl in H1.
  specialize (IH ts1 H1). now destruct (matchLoop thr timeMs ts1 r).
Qed.

Lemma update_boxes T dets timeMs :
  Forall boxOfLastPlate (tracks T) ->
  Forall boxOfLastPlate (tracks (trackerAfter T dets timeMs)).
Proof.
  intros H. unfold trackerAfter. rewrite update_unfold. simpl.
  assert (H0 : Forall boxOfLastPlate (map markLost (tracks T))).
  { rewrite List.Forall_forall in *. intros u Hu. apply in_map_iff in Hu.
    destruct Hu as (v & <- & Hv). apply (boxOfLastPlate_same v); [| |now apply H];
      unfold markLost; now destruct (status_eqb (status v) active). }
  pose proof (matchLoop_boxes (iouThreshold T) timeMs dets _ H0) as H1.
  fold (matchPhase T dets timeMs) in H1.
  pose proof (matchLoop_types (iouThreshold T) timeMs dets (map markLost (tracks T))) as Hty.
  fold (matchPhase T dets timeMs) in Hty.
  rewrite List.Forall_forall in *. intros u Hu.
  apply handleLostTracks_sub in Hu. apply in_map_iff in Hu. destruct Hu as (v & <- & Hv).
  assert (Hv' : boxOfLastPlate v).
  { apply createLoop_In_new in Hv. destruct Hv as [Hv | (d & k & Hd & ->)]; [now apply H1|].
    exists [], (conf d). simpl. destruct (Hty d Unmatched Hd) as [_ Hp].
    now rewrite (Hp ltac:(discriminate)). }
  apply (boxOfLastPlate_same v); [| |exact Hv'];
    unfold finishIfLostTooLong; destruct (status_eqb (status v) lost); try reflexivity;
    now destruct (Qgtb _ (maxLostFrames T)).
Qed.

(** X11. At any point of a run, every track of the map has a history that
    ends with a plate detection, and its box is the box of that detection. *)
Theorem track_box_is_last_detection :
  forall (iou maxLost minDet : option Q) (cycles : list (list Detection * Q)),
    Forall boxOfLastPlate (tracks (run (create iou maxLost minDet) cycles)).
Proof.
  intros iou maxLost minDet cycles.
  assert (Hgen : forall T, Forall boxOfLastPlate (tracks T) ->
                           Forall boxOfLastPlate (tracks (run T cycles))).
  { induction cycles as [|[dets timeMs] r IH]; intros T H; simpl; [exact H|].
    apply IH. now apply (update_boxes T dets timeMs). }
  apply Hgen. constructor.
Qed.

(** X12. A cycle without detections creates no track and returns none: the
    counter stays, no track of the map is active afterwards, and every track
    that is left is a track of before with, at most, another status. *)
Theorem update_without_detections :
  forall (T : Tracker) (timeMs : Q),
    returnedBy T [] timeMs = []
    /\ stampedBy T [] timeMs = []
    /\ nextTrackId (trackerAfter T [] timeMs) = nextTrackId T
    /\ Forall (fun u' => status u' <> active
                         /\ exists u, In u (tracks T) /\ u' = setStatus (status u') u)
              (tracks (trackerAfter T [] timeMs)).
Proof.
  intros T timeMs. unfold returnedBy, stampedBy, trackerAfter. rewrite update_unfold. simpl.
  assert (Hall : Forall (fun u' => status u' <> active
                                   /\ exists u, In u (tracks T) /\ u' = setStatus (status u') u)
                        (handleLostTracks (maxLostFrames T) timeMs (map markLost (tracks T)))).
  { rewrite List.Forall_forall. intros u' Hu'. apply handleLostTracks_sub in Hu'.
    apply in_map_iff in Hu'. destruct Hu' as (v & <- & Hv).
    apply in_map_iff in Hv. destruct Hv as (u & <- & Hu).
    assert (Hm : status (markLost u) <> active /\ markLost u = setStatus (status (markLost u)) u).
    { unfold markLost. destruct (status u) eqn:Es; simpl; split;
        try discriminate; try reflexivity; destruct u; simpl in *; now subst. }
    destruct Hm as [Hm1 Hm2]. unfold finishIfLostTooLong.
    destruct (status_eqb (status (markLost u)) lost) eqn:El.
    - destruct (Qgtb _ (maxLostFrames T)).
      + split; [discriminate|]. exists u. split; [exact Hu|].
        rewrite Hm2 at 1. reflexivity.
      + split; [exact Hm1|]. exists u. split; [exact Hu | exact Hm2].
    - split; [exact Hm1|]. exists u. split; [exact Hu | exact Hm2]. }
  split; [|split; [reflexivity|split; [reflexivity | exact Hall]]].
  unfold getActiveTracks.
  destruct (List.filter _ _) as [|x l] eqn:E; [reflexivity|]. exfalso.
  assert (Hx : In x (List.filter (fun t => status_eqb (status t) active)
                       (handleLostTracks (maxLostFrames T) timeMs (map markLost (tracks T)))))
    by (rewrite E; now left).
  apply filter_In in Hx. destruct Hx as [Hx Hs]. apply status_eqb_eq in Hs.
  rewrite List.Forall_forall in Hall. now destruct (Hall x Hx).
Qed.

Lemma filter_status_partition (ts : list Track) :
  length ts
  = (length (List.filter (fun t => status_eqb (status t) active) ts)
     + length (List.filter (fun t => status_eqb (status t) lost) ts)
     + length (List.filter (fun t => status_eqb (status t) finished) ts))%nat.
Proof.
  induction ts as [|t r IH]; simpl; [reflexivity|].
  destruct (status t); simpl; lia.
Qed.

(** X13. In the statistics the three status counts add up to the number of
    tracks, and the returned list of a cycle has [activeTracks] entries. *)
Theorem getStatistics_counts :
  forall (T : Tracker) (dets : list Detection) (timeMs : Q),
    let stats := getStatistics T in
    totalTracks stats = (activeTracks stats + lostTracks stats + finishedTracks stats)%nat
    /\ activeTracks (getStatistics (trackerAfter T dets timeMs))
       = length (returnedBy T dets timeMs).
Proof.
  intros T dets timeMs stats. split.
  - apply filter_status_partition.
  - unfold returnedBy, trackerAfter. rewrite update_unfold. reflexivity.
Qed.
End TrackerStamps.


(** ** TrackerSimple: the overlap measure *)

Section Overlap.
Import TrackerSimple.

Lemma Qmax_same (x : Q) : Qmax x x = x.
Proof. unfold Qmax, GenericMinMax.gmax. now destruct (x ?= x). Qed.

Lemma Qmin_same (x : Q) : Qmin x x = x.
Proof. unfold Qmin, GenericMinMax.gmin. now destruct (x ?= x). Qed.

(** X14. The overlap of a well-formed box with itself is 1, and the overlap
    of two boxes that are apart on one axis is 0. *)
Theorem calculateIOU_same_and_apart :
  forall a b : BBoxArray,
    (wellFormed a -> calculateIOU a a == 1)
    /\ (bx2 a < bx1 b \/ bx2 b < bx1 a \/ by2 a < by1 b \/ by2 b < by1 a ->
        calculateIOU a b = 0).
Proof.
  intros a b. split.
  - intros [Hx Hy]. unfold calculateIOU. rewrite !Qmax_same, !Qmin_same.
    assert (E1 : Qgtb (bx1 a) (bx2 a) = false) by (apply Qgtb_false; lra).
    assert (E2 : Qgtb (by1 a) (by2 a) = false) by (apply Qgtb_false; lra).
    rewrite E1, E2. simpl.
    assert (Hpos : 0 < (bx2 a - bx1 a) * (by2 a - by1 a)) by nra.
    field. intros Hz. lra.
  - intros H. unfold calculateIOU.
    pose proof (Q.le_max_l (bx1 a) (bx1 b)). pose proof (Q.le_max_r (bx1 a) (bx1 b)).
    pose proof (Q.le_max_l (by1 a) (by1 b)). pose proof (Q.le_max_r (by1 a) (by1 b)).
    pose proof (Q.le_min_l (bx2 a) (bx2 b)). pose proof (Q.le_min_r (bx2 a) (bx2 b)).
    pose proof (Q.le_min_l (by2 a) (by2 b)). pose proof (Q.le_min_r (by2 a) (by2 b)).
    assert (E : Qgtb (Qmax (bx1 a) (bx1 b)) (Qmin (bx2 a) (bx2 b))
                || Qgtb (Qmax (by1 a) (by1 b)) (Qmin (by2 a) (by2 b)) = true).
    { apply orb_true_iff. destruct H as [H | [H | [H | H]]];
        [left | left | right | right]; apply Qgtb_true; lra. }
    now rewrite E.
Qed.

Lemma calculateIOU_same_and_apart_witness :
  calculateIOU boxA boxA == 1 /\ calculateIOU boxA boxFar = 0.
Proof.
  destruct (calculateIOU_same_and_apart boxA boxFar) as [Hsame Hapart]. split.
  - apply Hsame. split; vm_compute; reflexivity.
  - apply Hapart. left. vm_compute. reflexivity.
Defined.

Lemma Qgtb_compat (a a' b b' : Q) : a == a' -> b == b' -> Qgtb a b = Qgtb a' b'.
Proof. intros Ha Hb. unfold Qgtb. now rewrite Ha, Hb. Qed.

(** X15. The overlap does not depend on the order of the two boxes, and for
    well-formed boxes it lies between 0 and 1. *)
Theorem calculateIOU_symmetric_and_bounded :
  forall a b : BBoxArray,
    calculateIOU a b == calculateIOU b a
    /\ (wellFormed a -> wellFormed b -> 0 <= calculateIOU a b <= 1).
Proof.
  intros a b. split.
  - unfold calculateIOU.
    rewrite (Qgtb_compat _ _ _ _ (Q.max_comm (bx1 a) (bx1 b)) (Q.min_comm (bx2 a) (bx2 b))).
    rewrite (Qgtb_compat _ _ _ _ (Q.max_comm (by1 a) (by1 b)) (Q.min_comm (by2 a) (by2 b))).
    destruct (Qgtb (Qmax (bx1 b) (bx1 a)) (Qmin (bx2 b) (bx2 a))
              || Qgtb (Qmax (by1 b) (by1 a)) (Qmin (by2 b) (by2 a))); [reflexivity|].
    rewrite (Q.max_comm (bx1 a) (bx1 b)), (Q.min_comm (bx2 a) (bx2 b)),
      (Q.max_comm (by1 a) (by1 b)), (Q.min_comm (by2 a) (by2 b)).
    rewrite (Qplus_comm ((bx2 a - bx1 a) * (by2 a - by1 a))). reflexivity.
  - intros [Hax Hay] [Hbx Hby]. unfold calculateIOU.
    pose proof (Q.le_max_l (bx1 a) (bx1 b)). pose proof (Q.le_max_r (bx1 a) (bx1 b)).
    pose proof (Q.le_max_l (by1 a) (by1 b)). pose proof (Q.le_max_r (by1 a) (by1 b)).
    pose proof (Q.le_min_l (bx2 a) (bx2 b)). pose proof (Q.le_min_r (bx2 a) (bx2 b)).
    pose proof (Q.le_min_l (by2 a) (by2 b)). pose proof (Q.le_min_r (by2 a) (by2 b)).
    set (xLeft := Qmax (bx1 a) (bx1 b)) in *. set (yTop := Qmax (by1 a) (by1 b)) in *.
    set (xRight := Qmin (bx2 a) (bx2 b)) in *. set (yBottom := Qmin (by2 a) (by2 b)) in *.
    destruct (Qgtb xLeft xRight) eqn:E1; [simpl; lra|].
    destruct (Qgtb yTop yBottom) eqn:E2; [simpl; lra|]. simpl.
    apply Qgtb_false in E1. apply Qgtb_false in E2.
    set (w := xRight - xLeft). set (h := yBottom - yTop).
    set (wa := bx2 a - bx1 a). set (ha := by2 a - by1 a).
    set (wb := bx2 b - bx1 b). set (hb := by2 b - by1 b).
    assert (Hw : 0 <= w) by (unfold w; lra). assert (Hh : 0 <= h) by (unfold h; lra).
    assert (Hwa : w <= wa) by (unfold w, wa; lra).
    assert (Hha : h <= ha) by (unfold h, ha; lra).
    assert (Hwb : w <= wb) by (unfold w, wb; lra).
    assert (Hhb : h <= hb) by (unfold h, hb; lra).
    assert (Hpa : 0 < wa * ha) by (unfold wa, ha; nra).
    assert (Hia : w * h <= wa * ha) by nra.
    assert (Hib : w * h <= wb * hb) by nra.
    assert (Hi : 0 <= w * h) by nra.
    assert (Hu : 0 < wa * ha + wb * hb - w * h) by lra.
    split.
    + apply Qle_shift_div_l; [exact Hu | lra].
    + apply Qle_shift_div_r; [exact Hu | lra].
Qed.

Lemma calculateIOU_symmetric_and_bounded_witness :
  0 <= calculateIOU boxA boxA' <= 1.
Proof.
  destruct (calculateIOU_symmetric_and_bounded boxA boxA') as [_ Hb].
  apply Hb; split; vm_compute; reflexivity.
Defined.
End Overlap.


(** ** SessionManager: one session at a time *)

Section SessionExtras.
Import SessionManager.

Lemma finalizeSession_other M k r k' :
  k' <> k -> sessions (fst (finalizeSession M k r)) !! k' = sessions M !! k'.
Proof.
  intros Hne. unfold finalizeSession. destruct (sessions M !! k) as [s|]; [|reflexivity].
  destruct (negb (isActive s)); [reflexivity|].
  destruct (Qgtb _ _); simpl.
  - apply lookup_delete_ne. congruence.
  - apply lookup_insert_ne. congruence.
Qed.

Lemma finalizeSession_same M k r :
  sessions (fst (finalizeSession M k r)) !! k
  = match sessions M !! k with
    | None => None
    | Some s =>
        if isActive s
        then if Qgtb (minSessionFrames M) (numOfNat (length (crops s))) then None
             else Some (mkSession (trackId s) (startMs s) (endMs s) (crops s) finalized)
        else Some s
    end.
Proof.
  unfold finalizeSession. destruct (sessions M !! k) as [s|] eqn:E; [|exact E].
  destruct (isActive s); simpl; [|exact E].
  destruct (Qgtb _ _); simpl; [apply lookup_delete_eq | apply lookup_insert_eq].
Qed.

Lemma finalizeSession_config M k r :
  maxSessionFrames (fst (finalizeSession M k r)) = maxSessionFrames M
  /\ minSessionFrames (fst (finalizeSession M k r)) = minSessionFrames M
  /\ disappearThreshold (fst (finalizeSession M k r)) = disappearThreshold M.
Proof.
  unfold finalizeSession. destruct (sessions M !! k) as [s|]; [|auto].
  destruct (negb (isActive s)); [auto|]. destruct (Qgtb _ _); simpl; auto.
Qed.



(** X17. A crop for an active session either leaves it active, below the
    capacity, or fills it: the session is then finalized on the spot with the
    crop in it, or discarded when the minimum is not met. *)
Theorem update_finalizes_at_capacity :
  forall (M : Manager) (track : TrackerSimple.Track) (detection : TrackerSimple.Detection)
         (timeMs : Q) (c : CropImage) (s : Session),
    let k := TrackerSimple.id track in
    let M' := update M track detection timeMs (Some c) in
    let n := numOfNat (length (crops s ++ [c])) in
    let grown st := mkSession (trackId s) (startMs s) timeMs (crops s ++ [c]) st in
    getSession M k = Some s ->
    status s = active ->
    (n < maxSessionFrames M -> getSession M' k = Some (grown active))
    /\ (maxSessionFrames M <= n -> minSessionFrames M <= n ->
        getSession M' k = Some (grown finalized))
    /\ (maxSessionFrames M <= n -> n < minSessionFrames M -> getSession M' k = None).
Proof.
  intros M track detection timeMs c s k M' n grown Hs Hact.
  subst M'. unfold getSession in *. unfold update. fold k. rewrite Hs.
  unfold updateSession. rewrite Hs. simpl. fold n.
  split; [|split].
  - intros Hlt. assert (E : Qle_bool (maxSessionFrames M) n = false).
    { apply not_true_is_false. intros H. apply Qle_bool_iff in H. lra. }
    rewrite E. simpl. rewrite lookup_insert_eq. subst grown. simpl. now rewrite Hact.
  - intros Hmax Hmin. apply Qle_bool_iff in Hmax. rewrite Hmax.
    rewrite finalizeSession_same. simpl. rewrite lookup_insert_eq. simpl.
    unfold isActive. simpl. rewrite Hact. fold n.
    apply Qgtb_false in Hmin. now rewrite Hmin.
  - intros Hmax Hmin. apply Qle_bool_iff in Hmax. rewrite Hmax.
    rewrite finalizeSession_same. simpl. rewrite lookup_insert_eq. simpl.
    unfold isActive. simpl. rewrite Hact. fold n.
    apply Qgtb_true in Hmin. now rewrite Hmin.
Qed.

Lemma update_finalizes_at_capacity_witness :
  getSession (update (feed (create (Some 2) None (Some 1)) [0%nat]) track1
                     TrackerSimple.detA 1 (Some (cropAt 1)))
             (TrackerSimple.id track1)
  = Some (mkSession (trackId oneCropSession) (startMs oneCropSession) 1
                    (crops oneCropSession ++ [cropAt 1]) finalized).
Proof.
  apply (update_finalizes_at_capacity (feed (create (Some 2) None (Some 1)) [0%nat]) track1
           TrackerSimple.detA 1 (cropAt 1) oneCropSession).
  - vm_compute. reflexivity.
  - reflexivity.
  - vm_compute. discriminate.
  - vm_compute. discriminate.
Defined.

(** X18. [finalizeSession] hands a session out at most once: what it
    returns is the active session of the key, with at least the minimum of
    crops, now finalized and stored as such; and right after any call, another
    call for the same key returns [null] and changes nothing. *)
Theorem finalizeSession_at_most_once :
  forall (M : Manager) (k : N) (reason reason' : Reason),
    let M' := fst (finalizeSession M k reason) in
    finalizeSession M' k reason' = (M', None)
    /\ (forall s', snd (finalizeSession M k reason) = Some s' ->
                   getSession M' k = Some s' /\ status s' = finalized
                   /\ minSessionFrames M <= numOfNat (length (crops s'))
                   /\ exists s, getSession M k = Some s /\ status s = active
                                /\ s' = mkSession (trackId s) (startMs s) (endMs s)
                                                  (crops s) finalized).
Proof.
  intros M k reason reason' M'. split.
  - pose proof (finalizeSession_same M k reason) as Hk. fold M' in Hk.
    unfold finalizeSession at 1. rewrite Hk.
    destruct (sessions M !! k) as [s|]; [|reflexivity].
    destruct (isActive s) eqn:Ea; [|now rewrite Ea].
    destruct (Qgtb _ _); reflexivity.
  - intros s' Hs'. subst M'. unfold getSession.
    unfold finalizeSession in *. destruct (sessions M !! k) as [s|] eqn:E; [|discriminate].
    destruct (isActive s) eqn:Ea; simpl in *; [|discriminate].
    destruct (Qgtb _ _) eqn:Eg; simpl in *; [discriminate|].
    inversion Hs'; subst. simpl. split; [apply lookup_insert_eq|]. split; [reflexivity|].
    split; [now apply Qgtb_false|]. exists s. split; [reflexivity|]. split; [|reflexivity].
    unfold isActive in Ea. now destruct (status s).
Qed.

Lemma finalizeSession_at_most_once_witness :
  getSession (fst (finalizeSession threeCrops 1%N requested)) 1%N
  = Some (mkSession 1%N (numOfNat 0) (numOfNat 2) (map cropAt (seq 0 3)) finalized).
Proof.
  apply (proj2 (finalizeSession_at_most_once threeCrops 1%N requested requested)).
  vm_compute. reflexivity.
Defined.

(** X19. [clearOldSessions] removes the finalized sessions that ended before
    the cutoff and nothing else: an active session, or one that ended at the
    cutoff or later, is still there, unchanged. *)
Theorem clearOldSessions_keeps :
  forall (M : Manager) (maxAge now : Q) (k : N) (s : Session),
    getSession (clearOldSessions M maxAge now) k = Some s
    <-> getSession M k = Some s /\ (status s = active \/ now - maxAge <= endMs s).
Proof.
  intros M maxAge now k s. unfold getSession, clearOldSessions. simpl.
  rewrite map_lookup_filter_Some. simpl. unfold isStale, isActive.
  split; intros [Hk Hs]; (split; [exact Hk|]).
  - apply andb_false_iff in Hs. destruct Hs as [Hs | Hs].
    + right. now apply Qgtb_false.
    + left. destruct (status s); [reflexivity | discriminate].
  - apply andb_false_iff. destruct Hs as [Hs | Hs].
    + right. now rewrite Hs.
    + left. now apply Qgtb_false.
Qed.

Lemma clearOldSessions_keeps_witness :
  getSession (clearOldSessions oneCrop 30000 100000) 1%N = Some oneCropSession.
Proof.
  apply (clearOldSessions_keeps oneCrop 30000 100000 1%N oneCropSession).
  split; [reflexivity | now left].
Defined.

Lemma call_config M op :
  maxSessionFrames (call M op) = maxSessionFrames M.
Proof.
  destruct op as [track det t crop | k ls now | k r | age now |]; simpl; try reflexivity.
  - unfold update. destruct (sessions M !! _) as [s|] eqn:E; [|reflexivity].
    unfold updateSession. rewrite E. destruct crop as [c|]; simpl; [|reflexivity].
    destruct (Qle_bool _ _); [|reflexivity].
    now destruct (finalizeSession_config
                    (withSessions M (<[TrackerSimple.id track :=
                       mkSession (trackId s) (startMs s) t (crops s ++ [c]) (status s)]>
                                      (sessions M)))
                    (TrackerSimple.id track) max_frames_reached) as [-> _].
  - unfold handleTrackLost. destruct (sessions M !! k) as [s|]; [|reflexivity].
    destruct (negb (isActive s)); [reflexivity|]. destruct (Qle_bool _ _); [|reflexivity].
    now destruct (finalizeSession_config M k track_lost) as [-> _].
  - now destruct (finalizeSession_config M k r) as [-> _].
Qed.

(** What holds of every session of a manager. *)
Lemma finalizeSession_bounded M k r (cap : Q) :
  (forall k' s, k' <> k -> sessions M !! k' = Some s ->
                trackId s = k' /\ (status s = active -> numOfNat (length (crops s)) < cap)) ->
  (forall s, sessions M !! k = Some s -> trackId s = k) ->
  (forall s, sessions M !! k = Some s -> status s = active) ->
  forall k' s, sessions (fst (finalizeSession M k r)) !! k' = Some s ->
               trackId s = k' /\ (status s = active -> numOfNat (length (crops s)) < cap).
Proof.
  intros Hother Hid Hact k' s. destruct (decide (k' = k)) as [-> | Hne].
  - rewrite finalizeSession_same. destruct (sessions M !! k) as [s0|] eqn:E; [|discriminate].
    specialize (Hid s0 eq_refl). specialize (Hact s0 eq_refl).
    unfold isActive. rewrite Hact. destruct (Qgtb _ _); [discriminate|].
    intros [= <-]. simpl. split; [exact Hid | discriminate].
  - rewrite finalizeSession_other by exact Hne. now apply Hother.
Qed.

Lemma call_bounded M op :
  1 < maxSessionFrames M ->
  (forall k s, sessions M !! k = Some s ->
               trackId s = k
               /\ (status s = active -> numOfNat (length (crops s)) < maxSessionFrames M)) ->
  forall k s, sessions (call M op) !! k = Some s ->
              trackId s = k
              /\ (status s = active -> numOfNat (length (crops s)) < maxSessionFrames M).
Proof.
  intros Hcap Hinv.
  assert (Hfin : forall k0 r k s, sessions (fst (finalizeSession M k0 r)) !! k = Some s ->
                   trackId s = k
                   /\ (status s = active -> numOfNat (length (crops s)) < maxSessionFrames M)).
  { intros k0 r k s. destruct (decide (k = k0)) as [-> | Hne].
    - rewrite finalizeSession_same. destruct (sessions M !! k0) as [s0|] eqn:E; [|discriminate].
      destruct (Hinv k0 s0 E) as [Hid Hb]. destruct (isActive s0) eqn:Ea.
      + destruct (Qgtb _ _); [discriminate|]. intros [= <-]. simpl.
        split; [exact Hid | discriminate].
      + intros [= <-]. auto.
    - rewrite finalizeSession_other by exact Hne. apply Hinv. }
  destruct op as [track det t crop | k0 ls now | k0 r | age now |]; simpl.
  - set (k0 := TrackerSimple.id track). unfold update. fold k0.
    destruct (sessions M !! k0) as [s0|] eqn:E.
    + destruct (Hinv k0 s0 E) as [Hid Hb].
      unfold updateSession. rewrite E. destruct crop as [c|]; simpl.
      * destruct (Qle_bool (maxSessionFrames M) (numOfNat (length (crops s0 ++ [c])))) eqn:Ec.
        -- destruct (status s0) eqn:Es.
           ++ apply finalizeSession_bounded.
              ** intros k' s Hne. simpl. rewrite lookup_insert_ne by congruence. apply Hinv.
              ** intros s. simpl. rewrite lookup_insert_eq. intros [= <-]. exact Hid.
              ** intros s. simpl. rewrite lookup_insert_eq. intros [= <-]. reflexivity.
           ++ intros k s. destruct (decide (k = k0)) as [-> | Hne].
              ** rewrite finalizeSession_same. simpl. rewrite lookup_insert_eq. simpl.
                 unfold isActive. simpl. intros [= <-]. simpl.
                 split; [exact Hid | discriminate].
              ** rewrite finalizeSession_other by exact Hne. simpl.
                 rewrite lookup_insert_ne by congruence. apply Hinv.
        -- intros k s. simpl. destruct (decide (k = k0)) as [-> | Hne].
           ++ rewrite lookup_insert_eq. intros [= <-]. simpl.
              split; [exact Hid|]. intros _.
              apply Qnot_le_lt. intros Hle. apply Qle_bool_iff in Hle. congruence.
           ++ rewrite lookup_insert_ne by congruence. apply Hinv.
      * intros k s. destruct (decide (k = k0)) as [-> | Hne].
        -- rewrite lookup_insert_eq. intros [= <-]. simpl. auto.
        -- rewrite lookup_insert_ne by congruence. apply Hinv.
    + unfold createSession. simpl. intros k s. destruct (decide (k = k0)) as [-> | Hne].
      * rewrite lookup_insert_eq. intros [= <-]. simpl.
        split; [reflexivity|]. intros _.
        destruct crop; [change (1 < maxSessionFrames M); exact Hcap
                       | change (0 < maxSessionFrames M); lra].
      * rewrite lookup_insert_ne by congruence. apply Hinv.
  - unfold handleTrackLost. destruct (sessions M !! k0) as [s0|]; [|exact Hinv].
    destruct (negb (isActive s0)); [exact Hinv|].
    destruct (Qle_bool _ _); [apply Hfin | exact Hinv].
  - apply Hfin.
  - intros k s. unfold clearOldSessions. simpl. rewrite map_lookup_filter_Some.
    intros [H _]. now apply Hinv.
  - intros k s. simpl. rewrite lookup_empty. discriminate.
Qed.

(** X20. Whatever is called on a manager with a capacity above 1, every
    session sits under the key of its own track identity, and an active
    session holds fewer crops than the capacity. *)
Theorem active_sessions_below_capacity :
  forall (maxFrames disappear minFrames : option Q) (ops : list Op) (k : N) (s : Session),
    let M := calls (create maxFrames disappear minFrames) ops in
    1 < maxSessionFrames M ->
    getSession M k = Some s ->
    trackId s = k
    /\ (status s = active -> numOfNat (length (crops s)) < maxSessionFrames M).
Proof.
  intros maxFrames disappear minFrames ops k s M. subst M. unfold getSession, calls.
  assert (Hgen : forall M0,
             (forall k s, sessions M0 !! k = Some s ->
                          trackId s = k
                          /\ (status s = active ->
                              numOfNat (length (crops s)) < maxSessionFrames M0)) ->
             1 < maxSessionFrames (fold_left call ops M0) ->
             forall k s, sessions (fold_left call ops M0) !! k = Some s ->
                         trackId s = k
                         /\ (status s = active ->
                             numOfNat (length (crops s))
                             < maxSessionFrames (fold_left call ops M0))).
  { induction ops as [|op r IH]; intros M0 Hinv Hcap; simpl in *; [exact Hinv|].
    apply IH; [|exact Hcap].
    assert (Hcfg : maxSessionFrames (fold_left call r (call M0 op)) = maxSessionFrames M0).
    { clear. revert M0 op. induction r as [|op' r' IHr]; intros M0 op; simpl.
      - apply call_config.
      - rewrite IHr. apply call_config. }
    rewrite call_config. apply call_bounded; [|exact Hinv].
    now rewrite <- Hcfg. }
  intros Hcap. apply Hgen; [|exact Hcap].
  intros k0 s0. simpl. rewrite lookup_empty. discriminate.
Qed.

Lemma active_sessions_below_capacity_witness :
  trackId oneCropSession = 1%N
  /\ (status oneCropSession = active ->
      numOfNat (length (crops oneCropSession))
      < maxSessionFrames
          (calls (create None None None)
                 [Update track1 TrackerSimple.detA (numOfNat 0) (Some (cropAt 0))])).
Proof.
  apply (active_sessions_below_capacity None None None
           [Update track1 TrackerSimple.detA (numOfNat 0) (Some (cropAt 0))] 1%N oneCropSession).
  - vm_compute. reflexivity.
  - vm_compute. reflexivity.
Defined.
End SessionExtras.


(** ** Validator: what is accepted, and how *)

Section ValidatorExtras.
Import Validator.

Lemma split_head (sep : N) (s : jsstring) :
  exists a rest, split sep s = a :: rest /\ ~ In sep a
                 /\ ((rest = [] /\ s = a)
                     \/ (rest <> [] /\ exists r, s = a ++ sep :: r /\ split sep r = rest)).
Proof.
  induction s as [|c r IH]; simpl.
  - exists [], []. split; [reflexivity|]. split; [intros []|]. now left.
  - destruct IH as (a & rest & E & Ha & Hcase). destruct (N.eqb_spec c sep) as [-> | Hne].
    + exists [], (split sep r). split; [reflexivity|]. split; [intros []|].
      right. split; [rewrite E; discriminate|]. exists r. split; reflexivity.
    + rewrite E. exists (c :: a), rest. split; [reflexivity|].
      split; [intros [H | H]; [congruence | contradiction]|].
      destruct Hcase as [[-> ->] | [Hr (r' & -> & Hs)]].
      * now left.
      * right. split; [exact Hr|]. exists r'. split; [reflexivity | exact Hs].
Qed.

Lemma split_app (sep : N) (a r : jsstring) :
  ~ In sep a -> split sep (a ++ sep :: r) = a :: split sep r.
Proof.
  induction a as [|c a IH]; simpl; intros Ha.
  - now rewrite N.eqb_refl.
  - destruct (N.eqb_spec c sep) as [-> | Hne]; [exfalso; apply Ha; now left|].
    rewrite IH; [reflexivity | intros H; apply Ha; now right].
Qed.

Lemma split_plain (sep : N) (a : jsstring) : ~ In sep a -> split sep a = [a].
Proof.
  induction a as [|c a IH]; simpl; intros Ha; [reflexivity|].
  destruct (N.eqb_spec c sep) as [-> | Hne]; [exfalso; apply Ha; now left|].
  rewrite IH; [reflexivity | intros H; apply Ha; now right].
Qed.

Lemma split_three (p a b c : jsstring) :
  split hyphen p = [a; b; c]
  <-> p = a ++ hyphen :: b ++ hyphen :: c
      /\ ~ In hyphen a /\ ~ In hyphen b /\ ~ In hyphen c.
Proof.
  split.
  - intros E.
    destruct (split_head hyphen p) as (a' & rest & E1 & Ha & H1).
    rewrite E in E1. inversion E1; subst a' rest. clear E1.
    destruct H1 as [[H _] | [_ (r1 & -> & E2)]]; [discriminate|].
    destruct (split_head hyphen r1) as (b' & rest & E3 & Hb & H2).
    rewrite E2 in E3. inversion E3; subst b' rest. clear E3.
    destruct H2 as [[H _] | [_ (r2 & -> & E4)]]; [discriminate|].
    destruct (split_head hyphen r2) as (c' & rest & E5 & Hc & H3).
    rewrite E4 in E5. inversion E5; subst c' rest. clear E5.
    destruct H3 as [[_ ->] | [H _]]; [|congruence].
    auto.
  - intros (-> & Ha & Hb & Hc).
    rewrite (split_app _ _ _ Ha). simpl. rewrite (split_app _ _ _ Hb), (split_plain _ _ Hc).
    reflexivity.
Qed.

Lemma find_negb_none {A : Type} (f : A -> bool) (l : list A) :
  find (fun x => negb (f x)) l = None <-> forallb f l = true.
Proof.
  induction l as [|x r IH]; simpl; [tauto|].
  destruct (f x); simpl; [exact IH|]. split; discriminate.
Qed.

Lemma lengthOutside_false (lo hi : nat) (s : jsstring) :
  lengthOutside lo hi s = false <-> (lo <= length s <= hi)%nat.
Proof.
  unfold lengthOutside. rewrite orb_false_iff, !Nat.ltb_ge. tauto.
Qed.

Lemma strict_pass_inv (rules : ValidationRules) (p : jsstring) :
  pvalid (validateStrictFormat rules p) = true ->
  exists a b c, strictShape rules p a b c
                /\ validateStrictFormat rules p
                   = mkPass true [StrictValidationPassed]
                            (Some (StrictMeta a b (inferVehicleType b))).
Proof.
  unfold validateStrictFormat.
  destruct (split hyphen p) as [|a [|b [|c [|d rest]]]] eqn:E; try discriminate.
  apply split_three in E. destruct E as (Hp & Ha & Hb & Hc).
  destruct (memberOf a (regions rules)) eqn:Hr; [|discriminate].
  destruct (lengthOutside 2 4 b) eqn:Hlb; [discriminate|].
  destruct (find _ (codePoints b)) eqn:Hfb; [discriminate|].
  destruct (lengthOutside 3 4 c) eqn:Hlc; [discriminate|].
  destruct (find _ (codePoints c)) eqn:Hfc; [discriminate|].
  intros _. exists a, b, c. split; [|reflexivity].
  apply lengthOutside_false in Hlb, Hlc.
  apply find_negb_none in Hfb.
  apply (find_negb_none (fun char => memberOf char (digits rules))) in Hfc.
  unfold strictShape. tauto.
Qed.

Lemma strict_pass_intro (rules : ValidationRules) (p a b c : jsstring) :
  strictShape rules p a b c -> pvalid (validateStrictFormat rules p) = true.
Proof.
  intros (Hp & Ha & Hb & Hc & Hr & Hlb & Hfb & Hlc & Hfc).
  unfold validateStrictFormat.
  rewrite (proj2 (split_three p a b c)) by auto.
  rewrite Hr. apply lengthOutside_false in Hlb, Hlc. rewrite Hlb, Hlc.
  apply find_negb_none in Hfb. rewrite Hfb.
  apply (find_negb_none (fun char => memberOf char (digits rules))) in Hfc. rewrite Hfc.
  reflexivity.
Qed.

Lemma strict_fail_reasons (rules : ValidationRules) (p : jsstring) :
  pvalid (validateStrictFormat rules p) = false ->
  preasons (validateStrictFormat rules p) <> [] /\ pmetadata (validateStrictFormat rules p) = None.
Proof.
  unfold validateStrictFormat.
  destruct (split hyphen p) as [|a [|b [|c [|d rest]]]]; simpl; try (split; [discriminate | reflexivity]).
  destruct (_ ++ _ ++ _) eqn:E; simpl; [discriminate|].
  intros _. split; [discriminate | reflexivity].
Qed.

Lemma fallback_pass_iff (p : jsstring) :
  pvalid (validateFallbackFormat p) = true <-> fallbackShape p.
Proof.
  unfold validateFallbackFormat, fallbackShape, bengaliUnits.
  destruct (lengthOutside 3 20 p) eqn:Hl; simpl.
  - split; [discriminate|]. intros [H _]. apply lengthOutside_false in H. congruence.
  - apply lengthOutside_false in Hl.
    destruct (Nat.ltb_spec (length (List.filter (fun c => isBengaliChar [c]) p)) 2); simpl.
    + split; [discriminate | lia].
    + split; auto.
Qed.

Lemma not_blank (p : jsstring) (c : N) :
  In c p -> isWhiteSpace c = false ->
  Nat.eqb (length p) 0 || Nat.eqb (length (trim p)) 0 = false.
Proof.
  intros Hin Hc. pose proof (trim_keeps p c Hin Hc) as Ht.
  destruct p; [destruct Hin|]. destruct (trim _); [destruct Ht|]. reflexivity.
Qed.

Lemma strictShape_not_blank rules p a b c :
  strictShape rules p a b c ->
  Nat.eqb (length p) 0 || Nat.eqb (length (trim p)) 0 = false.
Proof.
  intros (-> & _). apply (not_blank _ hyphen); [|reflexivity].
  apply in_or_app. right. now left.
Qed.

Lemma fallbackShape_not_blank p :
  fallbackShape p -> Nat.eqb (length p) 0 || Nat.eqb (length (trim p)) 0 = false.
Proof.
  intros [_ H]. unfold bengaliUnits in H.
  destruct (List.filter (fun c => isBengaliChar [c]) p) as [|c r] eqn:E; [simpl in H; lia|].
  assert (Hc : In c (List.filter (fun c => isBengaliChar [c]) p)) by (rewrite E; now left).
  apply filter_In in Hc. destruct Hc as [Hin Hb].
  apply (not_blank _ c Hin). now apply bengali_not_blank.
Qed.

(** X21. A plate is accepted exactly when it reads region-series-number,
    with a region of the rules, a series of 2 to 4 units of Bengali letters
    and a number of 3 to 4 units of digits of the rules, or when the fallback
    is on and it has 3 to 20 units, two of them in the Bengali block. The
    result is in fallback mode exactly in the second case without the
    first. *)
Theorem validatePlate_accepts :
  forall (V : Validator) (plate : jsstring),
    let result := validatePlate V plate in
    let strictly := exists region series number,
                      strictShape (strictRules V) plate region series number in
    (valid result = true
     <-> strictly \/ (demoFallbackEnabled V = true /\ fallbackShape plate))
    /\ (mode result = fallback
        <-> ~ strictly /\ demoFallbackEnabled V = true /\ fallbackShape plate).
Proof.
  intros V plate result strictly. subst result strictly. unfold validatePlate.
  destruct (pvalid (validateStrictFormat (strictRules V) plate)) eqn:Hs.
  - destruct (strict_pass_inv _ _ Hs) as (a & b & c & Hshape & _).
    rewrite (strictShape_not_blank _ _ _ _ _ Hshape). simpl. split.
    + split; [|reflexivity]. intros _. left. now exists a, b, c.
    + split; [discriminate|]. intros [Hn _]. exfalso. apply Hn. now exists a, b, c.
  - assert (Hno : ~ exists region series number,
                      strictShape (strictRules V) plate region series number).
    { intros (a & b & c & Hshape). apply strict_pass_intro in Hshape. congruence. }
    destruct (demoFallbackEnabled V) eqn:Hf.
    + destruct (pvalid (validateFallbackFormat plate)) eqn:Hfb.
      * pose proof (proj1 (fallback_pass_iff plate) Hfb) as Hshape.
        rewrite (fallbackShape_not_blank _ Hshape). simpl. split.
        -- split; [|reflexivity]. intros _. right. auto.
        -- split; [|reflexivity]. intros _. auto.
      * assert (Hnf : ~ fallbackShape plate).
        { intros H. apply fallback_pass_iff in H. congruence. }
        destruct (_ || _); simpl.
        -- split; (split; [discriminate|]); tauto.
        -- split; (split; [discriminate|]); tauto.
    + destruct (_ || _); simpl.
      * split; (split; [discriminate|]); intros H; exfalso;
          [destruct H as [H | [H _]]; [tauto | discriminate]
          | destruct H as (_ & H & _); discriminate].
      * split; (split; [discriminate|]); intros H; exfalso;
          [destruct H as [H | [H _]]; [tauto | discriminate]
          | destruct H as (_ & H & _); discriminate].
Qed.

Lemma validatePlate_accepts_witness :
  mode (validatePlate (create None None None) unknownRegion) = fallback.
Proof.
  apply (proj2 (validatePlate_accepts (create None None None) unknownRegion)).
  split; [|split].
  - intros (a & b & c & H). apply strict_pass_intro in H. vm_compute in H. discriminate.
  - reflexivity.
  - unfold fallbackShape. vm_compute. lia.
Defined.

Lemma bengaliLetter_in_block (char : jsstring) :
  isBengaliLetter char = true -> isBengaliChar char = true.
Proof.
  unfold isBengaliLetter, isBengaliChar. cbv zeta.
  rewrite !orb_true_iff, !andb_true_iff, !N.leb_le. lia.
Qed.

Lemma codePoints_head (c : N) (r : jsstring) :
  exists x rest, codePoints (c :: r) = x :: rest /\ charCodeAt0 x = c.
Proof.
  destruct r as [|d r']; simpl; [now exists [c], []|].
  destruct (isHighSurrogate c && isLowSurrogate d); eexists _, _; split; reflexivity.
Qed.

Lemma startsWith_length (p s : jsstring) :
  startsWith p s = true -> (length p <= length s)%nat.
Proof.
  revert s. induction p as [|a p IH]; intros [|b s]; simpl.
  - lia.
  - lia.
  - discriminate.
  - rewrite andb_true_iff. intros [_ H]. apply IH in H. lia.
Qed.

Lemma includes_length (p s : jsstring) :
  includes p s = true -> (length p <= length s)%nat.
Proof.
  induction s as [|b s IH]; simpl.
  - rewrite orb_false_r. apply startsWith_length.
  - rewrite orb_true_iff. intros [H | H].
    + apply startsWith_length in H. exact H.
    + apply IH in H. lia.
Qed.

(** X22. A plate accepted in strict mode carries no warning: its series
    starts with a unit of the Bengali block, whatever the rules. Its metadata
    name the region and the series of the plate, and the vehicle type is never
    the government one, whose pattern is longer than a series may be. *)
Theorem strict_acceptance_is_clean :
  forall (V : Validator) (plate : jsstring),
    let result := validatePlate V plate in
    valid result = true ->
    mode result = strict ->
    warnings result = []
    /\ reasons result = [ValidBanglaPlateFormat]
    /\ exists region series number vehicleType,
         strictShape (strictRules V) plate region series number
         /\ metadata result = Some (StrictMeta region series vehicleType)
         /\ vehicleType <> GovernmentVehicle.
Proof.
  intros V plate result. subst result. unfold validatePlate.
  destruct (_ || _) eqn:Hblank; simpl; [discriminate|].
  destruct (pvalid (validateStrictFormat (strictRules V) plate)) eqn:Hs; simpl.
  - intros _ _. destruct (strict_pass_inv _ _ Hs) as (a & b & c & Hshape & Heq).
    assert (Hb : isBengaliText plate = true).
    { destruct Hshape as (-> & _ & _ & _ & _ & [Hlo _] & Hall & _).
      destruct b as [|u b']; [simpl in Hlo; lia|].
      destruct (codePoints_head u b') as (x & rest & Ecp & Hx).
      rewrite Ecp in Hall. simpl in Hall. apply andb_true_iff in Hall.
      destruct Hall as [Hx' _]. apply bengaliLetter_in_block in Hx'.
      unfold isBengaliChar in Hx'. rewrite Hx in Hx'.
      unfold isBengaliText. apply existsb_exists. exists u. split; [|exact Hx'].
      apply in_or_app. right. right. now left. }
    rewrite Hb. split; [reflexivity|]. split; [reflexivity|].
    exists a, b, c, (inferVehicleType b). split; [exact Hshape|].
    rewrite Heq. split; [reflexivity|].
    destruct Hshape as (_ & _ & _ & _ & _ & [_ Hhi] & _).
    unfold inferVehicleType.
    destruct (includes [2488; 2454; 2496]%N b); [discriminate|].
    destruct (includes [2476; 2479]%N b); [discriminate|].
    destruct (includes [2479; 2494; 2479; 2492; 2480]%N b) eqn:Hg; [|discriminate].
    apply includes_length in Hg. simpl in Hg. lia.
  - destruct (demoFallbackEnabled V); simpl; [|discriminate].
    destruct (pvalid (validateFallbackFormat plate)); simpl; discriminate.
Qed.

Lemma strict_acceptance_is_clean_witness :
  warnings (validatePlate (create None None None) strictSample) = [].
Proof.
  apply (strict_acceptance_is_clean (create None None None) strictSample);
    vm_compute; reflexivity.
Defined.

(** X23. Every result gives the plate back with at least one reason. A
    rejection is always labelled strict, also when the fallback was tried, and
    has no metadata; a result in fallback mode is an acceptance under the
    three fallback warnings. *)
Theorem validatePlate_result_shape :
  forall (V : Validator) (plate : jsstring),
    let result := validatePlate V plate in
    Validator.plate result = plate
    /\ reasons result <> []
    /\ (valid result = false -> mode result = strict /\ metadata result = None)
    /\ (mode result = fallback ->
        valid result = true
        /\ warnings result = [StrictFormatNotRecognized; UsingDemoFallback;
                              ProductionRequiresStrict]).
Proof.
  intros V plate result. subst result. unfold validatePlate.
  destruct (_ || _); simpl.
  - split; [reflexivity|]. split; [discriminate|]. split; [auto | discriminate].
  - destruct (pvalid (validateStrictFormat (strictRules V) plate)) eqn:Hs; simpl.
    + split; [reflexivity|]. split; [discriminate|]. split; discriminate.
    + destruct (strict_fail_reasons _ _ Hs) as [Hr Hm].
      destruct (demoFallbackEnabled V); simpl.
      * destruct (pvalid (validateFallbackFormat plate)) eqn:Hf; simpl.
        -- split; [reflexivity|]. split; [|split; [discriminate | auto]].
           unfold validateFallbackFormat in *.
           destruct (lengthOutside 3 20 plate); [discriminate|].
           destruct (Nat.ltb _ 2); [discriminate|]. simpl.
           destruct (_ && _); discriminate.
        -- split; [reflexivity|]. split; [exact Hr|]. split; [auto | discriminate].
      * split; [reflexivity|]. split; [exact Hr|]. split; [auto | discriminate].
Qed.

Lemma validatePlate_result_shape_witness :
  mode (validatePlate (create None None None) [65%N]) = strict
  /\ metadata (validatePlate (create None None None) [65%N]) = None.
Proof.
  apply (proj1 (proj2 (proj2 (validatePlate_result_shape (create None None None) [65%N])))).
  reflexivity.
Defined.

(** X24. With the fallback switched off no result is in fallback mode, and
    switching it on changes nothing for a plate that was accepted without
    it. *)
Theorem setDemoFallback_only_adds :
  forall (V : Validator) (plate : jsstring),
    mode (validatePlate (setDemoFallback V false) plate) = strict
    /\ (valid (validatePlate (setDemoFallback V false) plate) = true ->
        validatePlate (setDemoFallback V true) plate
        = validatePlate (setDemoFallback V false) plate).
Proof.
  intros V plate. unfold validatePlate, setDemoFallback. simpl.
  destruct (_ || _); simpl; [split; [reflexivity | discriminate]|].
  destruct (pvalid (validateStrictFormat (strictRules V) plate)); simpl.
  - split; reflexivity.
  - split; [reflexivity | discriminate].
Qed.

Lemma setDemoFallback_only_adds_witness :
  validatePlate (setDemoFallback (create None None None) true) strictSample
  = validatePlate (setDemoFallback (create None None None) false) strictSample.
Proof.
  apply (proj2 (setDemoFallback_only_adds (create None None None) strictSample)).
  vm_compute. reflexivity.
Defined.

(** X25. The list of letters of the rules is never read: replacing it with
    [updateRules] changes no result. *)
Theorem letters_rule_is_not_read :
  forall (V : Validator) (newLetters : list jsstring) (plate : jsstring),
    validatePlate (updateRules V None (Some newLetters) None) plate = validatePlate V plate.
Proof.
  intros [[r l d] f] newLetters plate. reflexivity.
Qed.
End ValidatorExtras.


(** ** Deduplicator: the history *)

Section DeduplicatorExtras.
Import Deduplicator.

Lemma checkDuplicate_config D e :
  maxHistorySize (fst (checkDuplicate D e)) = maxHistorySize D
  /\ sameDirectionWindow (fst (checkDuplicate D e)) = sameDirectionWindow D
  /\ oppositeDirectionWindow (fst (checkDuplicate D e)) = oppositeDirectionWindow D.
Proof.
  unfold checkDuplicate. destruct (find _ _); simpl; [auto|].
  unfold addToHistory. destruct (Qgtb _ _); simpl; auto.
Qed.

Lemma submitAll_config D events :
  maxHistorySize (submitAll D events) = maxHistorySize D
  /\ sameDirectionWindow (submitAll D events) = sameDirectionWindow D
  /\ oppositeDirectionWindow (submitAll D events) = oppositeDirectionWindow D.
Proof.
  unfold submitAll. revert D. induction events as [|e r IH]; intros D; simpl; [auto|].
  destruct (IH (fst (checkDuplicate D e))) as (-> & -> & ->). apply checkDuplicate_config.
Qed.

Lemma checkDuplicate_history D e :
  recentEvents (fst (checkDuplicate D e)) = recentEvents D
  \/ recentEvents (fst (checkDuplicate D e)) = recentEvents D ++ [e]
     /\ numOfNat (length (recentEvents D ++ [e])) <= maxHistorySize D
  \/ recentEvents (fst (checkDuplicate D e)) = tl (recentEvents D ++ [e])
     /\ maxHistorySize D < numOfNat (length (recentEvents D ++ [e])).
Proof.
  unfold checkDuplicate. destruct (find _ _); simpl; [now left|].
  unfold addToHistory. destruct (Qgtb _ _) eqn:E; simpl.
  - right. right. split; [reflexivity|]. now apply Qgtb_true.
  - right. left. split; [reflexivity|]. now apply Qgtb_false.
Qed.

Lemma length_tl_snoc {A : Type} (h : list A) (e : A) : length (tl (h ++ [e])) = length h.
Proof. destruct h; simpl; [reflexivity|]. rewrite length_app. simpl. lia. Qed.

Lemma submitAll_bounded D events :
  numOfNat (length (recentEvents D)) <= maxHistorySize D ->
  numOfNat (length (recentEvents (submitAll D events))) <= maxHistorySize D.
Proof.
  unfold submitAll. revert D. induction events as [|e r IH]; intros D Hb; simpl; [exact Hb|].
  destruct (checkDuplicate_config D e) as (Hm & _).
  rewrite <- Hm. apply IH. rewrite Hm.
  destruct (checkDuplicate_history D e) as [-> | [[-> H] | [-> _]]].
  - exact Hb.
  - exact H.
  - now rewrite length_tl_snoc.
Qed.

(** X26. From a new deduplicator with a history size that is not negative,
    the history never holds more events than that size. With a size below 1
    it stays empty, and no event is ever reported as a duplicate. *)
Theorem history_stays_bounded :
  forall (maxHistory sameWindow oppositeWindow : option Q) (events : list ANPREvent),
    let D := submitAll (create maxHistory sameWindow oppositeWindow) events in
    0 <= maxHistorySize D ->
    numOfNat (length (recentEvents D)) <= maxHistorySize D
    /\ (maxHistorySize D < 1 ->
        recentEvents D = []
        /\ forall event, isDuplicate (snd (checkDuplicate D event)) = false).
Proof.
  intros maxHistory sameWindow oppositeWindow events D H0.
  destruct (submitAll_config (create maxHistory sameWindow oppositeWindow) events)
    as (Hm & _). fold D in Hm.
  assert (Hb : numOfNat (length (recentEvents D)) <= maxHistorySize D).
  { rewrite Hm. apply submitAll_bounded. simpl. rewrite Hm in H0. exact H0. }
  split; [exact Hb|]. intros H1.
  assert (He : recentEvents D = []).
  { destruct (recentEvents D) as [|x r]; [reflexivity|]. exfalso.
    assert (Hlen : 1 <= numOfNat (length (x :: r))).
    { unfold numOfNat. change 1 with (inject_Z 1). rewrite <- Zle_Qle. simpl length. lia. }
    lra. }
  split; [exact He|]. intros event. unfold checkDuplicate. rewrite He. reflexivity.
Qed.

Lemma history_stays_bounded_witness :
  numOfNat (length (recentEvents (submitAll (create (Some 1) None None) [evtExit; evtEntry])))
  <= maxHistorySize (submitAll (create (Some 1) None None) [evtExit; evtEntry]).
Proof.
  apply (history_stays_bounded (Some 1) None None [evtExit; evtEntry]).
  vm_compute. discriminate.
Defined.

Lemma match_none_inv D newEvent history :
  find (fun event => str_eqb (plate event) (plate newEvent))
       (List.filter (inWindow D newEvent) history) = None ->
  forall h, In h history -> plate h = plate newEvent -> inWindow D newEvent h = false.
Proof.
  intros Hnone h Hin Hp. destruct (inWindow D newEvent h) eqn:Ew; [|reflexivity].
  assert (Hf : In h (List.filter (inWindow D newEvent) history)).
  { apply filter_In. auto. }
  pose proof (find_none _ _ Hnone h Hf) as Hx. simpl in Hx.
  apply str_eqb_eq in Hp. congruence.
Qed.

Lemma inWindow_self D e : 0 <= sameDirectionWindow D -> inWindow D e e = true.
Proof.
  intros H. unfold inWindow.
  rewrite (proj2 (direction_eqb_eq (status e) (status e)) eq_refl).
  rewrite Z.sub_diag. simpl. now apply Qle_bool_iff.
Qed.

(** X27. An event that was not a duplicate is the newest of the history
    afterwards, when the history size is at least 1; and, the same-direction
    window not being negative, the same event checked again right away is a
    duplicate of itself, zero seconds apart, and is not stored again. *)
Theorem accepted_event_is_remembered :
  forall (D : Dedup) (event : ANPREvent),
    1 <= maxHistorySize D ->
    0 <= sameDirectionWindow D ->
    isDuplicate (snd (checkDuplicate D event)) = false ->
    let D' := fst (checkDuplicate D event) in
    (exists older, recentEvents D' = older ++ [event])
    /\ checkDuplicate D' event = (D', duplicateOf event event).
Proof.
  intros D event Hmax Hwin Hnew D'. subst D'. unfold checkDuplicate in Hnew |- * at 1 3 4.
  destruct (find _ (List.filter (inWindow D event) (recentEvents D))) eqn:Hnone;
    [discriminate|]. clear Hnew. cbn [fst].
  pose proof (match_none_inv _ _ _ Hnone) as Hold.
  assert (Hh : exists older, recentEvents (addToHistory D event) = older ++ [event]
                             /\ forall q, In q older -> In q (recentEvents D)).
  { unfold addToHistory. destruct (Qgtb _ _) eqn:E; simpl.
    - destruct (recentEvents D) as [|x r] eqn:Er.
      + exfalso. apply Qgtb_true in E. change (maxHistorySize D < 1) in E. lra.
      + exists r. split; [reflexivity|]. intros q Hq. now right.
    - exists (recentEvents D). split; [reflexivity | auto]. }
  destruct Hh as (older & Eh & Hsub). split; [now exists older|].
  destruct (first_match (addToHistory D event) event older event [] eq_refl) as
    (p & Hfind & _ & _ & _ & Hfirst).
  { apply inWindow_self. unfold addToHistory. now destruct (Qgtb _ _). }
  assert (Hp : p = event).
  { apply Hfirst. intros q Hq Hplate.
    replace (inWindow (addToHistory D event) event q) with (inWindow D event q)
      by (unfold addToHistory, inWindow; now destruct (Qgtb _ _)).
    apply Hold; [apply Hsub, Hq | exact Hplate]. }
  subst p. unfold checkDuplicate. rewrite Eh, Hfind. reflexivity.
Qed.

Lemma accepted_event_is_remembered_witness :
  checkDuplicate (fst (checkDuplicate (create None None None) evtExit)) evtExit
  = (fst (checkDuplicate (create None None None) evtExit), duplicateOf evtExit evtExit).
Proof.
  apply (proj2 (accepted_event_is_remembered (create None None None) evtExit
                  ltac:(vm_compute; discriminate) ltac:(vm_compute; discriminate)
                  eq_refl)).
Defined.

Lemma FOP_snoc {A : Type} (R : A -> A -> Prop) (h : list A) (e : A) :
  ForallOrdPairs R h -> Forall (fun a => R a e) h -> ForallOrdPairs R (h ++ [e]).
Proof.
  induction 1 as [|a l Ha Hl IH]; intros Hall; simpl.
  - constructor; constructor.
  - inversion Hall; subst. constructor.
    + apply Forall_app. split; [exact Ha | constructor; [assumption | constructor]].
    + now apply IH.
Qed.

Lemma FOP_tl {A : Type} (R : A -> A -> Prop) (h : list A) :
  ForallOrdPairs R h -> ForallOrdPairs R (tl h).
Proof. destruct 1; simpl; [constructor | assumption]. Qed.

Lemma FOP_impl {A : Type} (R R' : A -> A -> Prop) (h : list A) :
  (forall a b, R a b -> R' a b) -> ForallOrdPairs R h -> ForallOrdPairs R' h.
Proof.
  intros Himp. induction 1 as [|a l Ha Hl IH]; constructor; [|exact IH].
  revert Ha. apply List.Forall_impl. apply Himp.
Qed.

Lemma checkDuplicate_apart D0 D e :
  sameDirectionWindow D = sameDirectionWindow D0 ->
  oppositeDirectionWindow D = oppositeDirectionWindow D0 ->
  ForallOrdPairs (apart D0) (recentEvents D) ->
  ForallOrdPairs (apart D0) (recentEvents (fst (checkDuplicate D e))).
Proof.
  intros Hs Ho Hinv. unfold checkDuplicate.
  destruct (find _ _) eqn:Hnone; simpl; [exact Hinv|].
  pose proof (match_none_inv _ _ _ Hnone) as Hold.
  assert (Hpushed : ForallOrdPairs (apart D0) (recentEvents D ++ [e])).
  { apply FOP_snoc; [exact Hinv|]. apply List.Forall_forall. intros a Ha Hplate.
    specialize (Hold a Ha Hplate). apply inWindow_outside in Hold.
    unfold outsideWindow in *. now rewrite <- Hs, <- Ho. }
  unfold addToHistory. destruct (Qgtb _ _); simpl; [now apply FOP_tl | exact Hpushed].
Qed.

(** X28. From a new deduplicator, whatever is submitted, no two events of
    the history conflict: if they have the same plate, the earlier one is
    outside the window, same-direction or opposite-direction as the two
    directions have it, of the later one. *)
Theorem history_has_no_conflict :
  forall (maxHistory sameWindow oppositeWindow : option Q) (events : list ANPREvent),
    let D := submitAll (create maxHistory sameWindow oppositeWindow) events in
    ForallOrdPairs (apart D) (recentEvents D).
Proof.
  intros maxHistory sameWindow oppositeWindow events D.
  set (D0 := create maxHistory sameWindow oppositeWindow) in *.
  assert (Hgen : forall D1,
             sameDirectionWindow D1 = sameDirectionWindow D0 ->
             oppositeDirectionWindow D1 = oppositeDirectionWindow D0 ->
             ForallOrdPairs (apart D0) (recentEvents D1) ->
             ForallOrdPairs (apart D0) (recentEvents (submitAll D1 events))).
  { unfold submitAll. induction events as [|e r IH]; intros D1 Hs Ho Hinv; simpl;
      [exact Hinv|].
    destruct (checkDuplicate_config D1 e) as (_ & Hs' & Ho').
    apply IH; [congruence | congruence | now apply checkDuplicate_apart]. }
  specialize (Hgen D0 eq_refl eq_refl (FOP_nil _)). fold D in Hgen.
  destruct (submitAll_config D0 events) as (_ & Hs & Ho). fold D in Hs, Ho.
  revert Hgen. apply FOP_impl. intros a b Hab Hplate. specialize (Hab Hplate).
  unfold outsideWindow in *. now rewrite Hs, Ho.
Qed.


(** X29. [getRecentEvents] returns an end piece of the history: with a
    positive limit the newest events, as many as the limit or all of them
    when there are fewer; with the limit 0 the whole history, not an empty
    list. *)
Theorem getRecentEvents_limits :
  forall (D : Dedup) (limit : Z),
    (0 <= limit)%Z ->
    let got := getRecentEvents D (Some limit) in
    (exists older, recentEvents D = older ++ got)
    /\ (limit = 0%Z -> got = recentEvents D)
    /\ ((0 < limit)%Z ->
        length got = Nat.min (Z.to_nat limit) (length (recentEvents D))).
Proof.
  intros D limit Hl got. subst got. unfold getRecentEvents, js_slice_from. simpl default.
  set (h := recentEvents D). split; [|split].
  - eexists. symmetry. apply firstn_skipn.
  - intros ->. change (- 0 <? 0)%Z with false. cbv iota.
    replace (Z.to_nat (Z.min (- 0) (Z.of_nat (length h)))) with 0%nat by lia.
    reflexivity.
  - intros Hpos. destruct (Z.ltb_spec (- limit) 0); [|lia].
    rewrite length_skipn. lia.
Qed.

Lemma getRecentEvents_limits_witness :
  getRecentEvents afterExitAndEntry (Some 0%Z) = recentEvents afterExitAndEntry.
Proof.
  apply (getRecentEvents_limits afterExitAndEntry 0%Z); [lia | reflexivity].
Defined.
End DeduplicatorExtras.


(** ** TrackerSimple: what a cycle does with a plate detection *)

Section TrackerCycle.
Import TrackerSimple.












(** The overlap is compared as the code computes it. The exact overlap of
    [boxNarrow] and [boxWide] is above the default threshold, the computed one
    is equal to it: the detection opens a track. [boxThird] overlaps
    [boxTenth] and [boxNarrow] by a third each; the computed overlap with the
    second is the higher one, and the detection is matched to the second
    track. *)
Example update_compares_computed_overlaps :
  Binary64.round (3#10) < calculateIOU boxNarrow boxWide
  /\ calculateIOU64 boxNarrow boxWide = Binary64.round (3#10)
  /\ nth_error (stampedBy (run (create None None None) [([detWide], 0)]) [detNarrow] 33) 0
     = Some (stamp 2%N detNarrow)
  /\ calculateIOU64 boxThird boxTenth < calculateIOU64 boxThird boxNarrow
  /\ nth_error (stampedBy (run (create None None None) [([detTenth; detNarrow], 0)])
                          [detThird] 33) 0
     = Some (stamp 2%N detThird).
Proof. vm_compute. repeat split; reflexivity. Qed.
End TrackerCycle.
